(** * spectral-ops: the numeric pipeline of the spectral hybridisation engine

    A shallow embedding of [operations.js] (the [FFTOperations] object) and of
    the [AudioProcessor] class (transform kernel, STFT framing, phase
    combination, frame alignment, overlap-add resynthesis).

    Numbers.  A JavaScript number is an IEEE-754 binary64 value; it is
    modelled by [spec_float] of the Standard Library with the operations of
    [SpecFloat] at precision 53.  A [Float32Array] is a list of numbers; every
    store rounds to binary32 ([fround]), a read out of range is [undefined]
    (NaN once it reaches arithmetic) and a store out of range is dropped.
    Array lengths, loop counters and frame counts are integers far below
    2^53, where binary64 arithmetic on them is exact: they are [nat] or [Z].

    [Math.cos], [Math.sin] and [Math.atan2] are implementation-approximated
    in ECMAScript: the embedding takes them as a [MathImpl] record. *)

From Stdlib Require Import ZArith List Bool Lia Reals Lra Machin.
From Stdlib Require Import Floats.SpecFloat.
From stdpp Require Import base option list strings.

Set Default Proof Using "Type".

(** ** JavaScript numbers *)

Module JS.

Definition number := spec_float.

Definition NaN : number := S754_nan.
Definition pzero : number := S754_zero false.
Definition nzero : number := S754_zero true.

Definition add : number -> number -> number := SFadd 53 1024.
Definition sub : number -> number -> number := SFsub 53 1024.
Definition mul : number -> number -> number := SFmul 53 1024.
Definition div : number -> number -> number := SFdiv 53 1024.
Definition neg : number -> number := SFopp.
Definition Math_abs : number -> number := SFabs.
Definition Math_sqrt : number -> number := SFsqrt 53 1024.

(** [a < b], [a <= b] and [a > b]: false as soon as one side is NaN. *)
Definition lt (a b : number) : bool := SFltb a b.
Definition le (a b : number) : bool := SFleb a b.
Definition gt (a b : number) : bool := SFltb b a.

(** An integer as a number (exact below 2^53, rounded above). *)
Definition of_Z (z : Z) : number := binary_normalize 53 1024 z 0 false.
Definition of_nat (n : nat) : number := of_Z (Z.of_nat n).

Definition isNaN (x : number) : bool :=
  match x with S754_nan => true | _ => false end.

Definition is_finite (x : number) : bool :=
  match x with S754_zero _ | S754_finite _ _ _ => true | _ => false end.

Definition is_zero (x : number) : bool :=
  match x with S754_zero _ => true | _ => false end.

(** ToBoolean on a number: NaN, +0 and -0 are falsy. *)
Definition truthy (x : number) : bool :=
  match x with S754_nan | S754_zero _ => false | _ => true end.

(** [x || d] where [x] is a number or [undefined]. *)
Definition or_else (x : option number) (d : number) : number :=
  match x with
  | Some v => if truthy v then v else d
  | None => d
  end.

(** [Math.min] and [Math.max] of two arguments: NaN is contagious and
    -0 is below +0. *)
Definition Math_min (a b : number) : number :=
  match SFcompare a b with
  | None => NaN
  | Some Lt => a
  | Some Gt => b
  | Some Eq => match a with S754_zero true => a | _ => b end
  end.

Definition Math_max (a b : number) : number :=
  match SFcompare a b with
  | None => NaN
  | Some Lt => b
  | Some Gt => a
  | Some Eq => match a with S754_zero false => a | _ => b end
  end.

(** [Math.floor] of a number, as an integer.  The callers below apply it to
    finite values only; NaN and the infinities are sent to 0. *)
Definition Math_floor (x : number) : Z :=
  match x with
  | S754_finite s m e =>
      let z := cond_Zopp s (Zpos m) in
      if (0 <=? e)%Z then Z.shiftl z e else Z.shiftr z (- e)
  | _ => 0%Z
  end.

(** The value a [Float32Array] holds after a store of [x]: [x] rounded to
    binary32 (to nearest, ties to even), read back as a binary64. *)
Definition fround (x : number) : number :=
  match x with
  | S754_finite s m e =>
      match binary_round 24 128 s m e with
      | S754_finite s' m' e' => binary_round 53 1024 s' m' e'
      | y => y
      end
  | _ => x
  end.

(** Literals of the source. *)
Definition Math_PI : number := S754_finite false 7074237752028440 (-51).
Definition one : number := of_Z 1.
Definition two : number := of_Z 2.
Definition half : number := S754_finite false 4503599627370496 (-53).
Definition c0_95 : number := S754_finite false 8556839292003942 (-53).
Definition c0_001 : number := S754_finite false 4611686018427388 (-62).

End JS.

Import JS.

(** ** Float32Array *)

Abbreviation Float32Array := (list number).

(** [new Float32Array(n)]. *)
Definition f32_new (n : nat) : Float32Array := replicate n pzero.

(** [a[i]] in an arithmetic position. *)
Definition f32_get (a : Float32Array) (i : nat) : number := default NaN (a !! i).

(** [a[i] = v]. *)
Definition f32_set (a : Float32Array) (i : nat) (v : number) : Float32Array :=
  <[i := fround v]> a.

(** [for (let i = 0; i < n; i++) body]. *)
Definition for_range {S : Type} (n : nat) (body : nat -> S -> S) (s : S) : S :=
  fold_left (fun s i => body i s) (seq 0 n) s.

(** ** operations.js *)

(** [findMax] and [findMin]. *)
Definition findMax (arr : Float32Array) : number :=
  for_range (length arr - 1)
    (fun k max => let i := S k in if gt (f32_get arr i) max then f32_get arr i else max)
    (or_else (arr !! 0) pzero).

Definition findMin (arr : Float32Array) : number :=
  for_range (length arr - 1)
    (fun k min => let i := S k in if lt (f32_get arr i) min then f32_get arr i else min)
    (or_else (arr !! 0) pzero).

Module FFTOperations.

(** The loop shared by the ten operators: a fresh array of [magA.length]
    cells, cell [i] receiving [f i]. *)
Definition fill (magA : Float32Array) (f : nat -> number) : Float32Array :=
  for_range (length magA) (fun i result => f32_set result i (f i))
    (f32_new (length magA)).

Definition and (magA magB : Float32Array) : Float32Array :=
  fill magA (fun i => Math_min (f32_get magA i) (f32_get magB i)).

Definition or (magA magB : Float32Array) : Float32Array :=
  fill magA (fun i => Math_max (f32_get magA i) (f32_get magB i)).

Definition xor (magA magB : Float32Array) : Float32Array :=
  fill magA (fun i => Math_abs (sub (f32_get magA i) (f32_get magB i))).

Definition multiply (magA magB : Float32Array) : Float32Array :=
  fill magA (fun i => mul (f32_get magA i) (f32_get magB i)).

Definition average (magA magB : Float32Array) : Float32Array :=
  fill magA (fun i => div (add (f32_get magA i) (f32_get magB i)) two).

Definition notA (magA magB : Float32Array) : Float32Array :=
  let maxA := findMax magA in
  let minB := findMin magB in
  fill magA (fun i => add (sub maxA (f32_get magA i)) minB).

Definition notB (magA magB : Float32Array) : Float32Array :=
  let maxB := findMax magB in
  let minA := findMin magA in
  fill magA (fun i => add (sub maxB (f32_get magB i)) minA).

Definition aSquared (magA magB : Float32Array) : Float32Array :=
  let maxA := findMax magA in
  fill magA (fun i =>
    let normalized := div (f32_get magA i) (or_else (Some maxA) one) in
    mul (mul normalized normalized) maxA).

Definition bSquared (magA magB : Float32Array) : Float32Array :=
  let maxB := findMax magB in
  fill magA (fun i =>
    let normalized := div (f32_get magB i) (or_else (Some maxB) one) in
    mul (mul normalized normalized) maxB).

Definition subtract (magA magB : Float32Array) : Float32Array :=
  fill magA (fun i => Math_max pzero (sub (f32_get magA i) (f32_get magB i))).

End FFTOperations.

(** ** Effects: exceptions, the [_logged] flag and the console *)

Inductive js_error :=
  | Error (message : string)   (* throw new Error(message) *)
  | TypeError                  (* a property read on undefined, a call of a non-function *)
  | RangeError.                (* new Float32Array(n) with n < 0 *)

(** What a call comes to: a value, an exception, a loop still running when
    the fuel is spent, or a call into a built-in of [Object.prototype], which
    this development does not model. *)
Inductive outcome (A : Type) :=
  | Ok (a : A)
  | Throw (e : js_error)
  | OutOfFuel
  | Unmodelled.
Arguments Ok {A} a.
Arguments Throw {A} e.
Arguments OutOfFuel {A}.
Arguments Unmodelled {A}.

(** A property key: a string, or the array that [apply] receives as its
    [operation] when it is reached through [FFTOperations["apply"]]. *)
Inductive prop_key :=
  | KString (s : string)
  | KArray (a : Float32Array).

Inductive log_entry :=
  | console_error_unknown (operation : prop_key)
      (* console.error(`Unknown operation: ${operation}`) *)
  | console_log_sample_at (operation : prop_key) (sampleIdx : nat)
      (* console.log(`Operation "${operation}" sample at bin ${sampleIdx}:`) *)
  | console_log_sample (a b r : number)
      (* console.log(`  A: ..., B: ..., Result: ...`) *)
  | console_log_processing (operation phaseMode : string)
  | console_log_frames (lenA lenB : nat) (target : Z)
  | console_log_mid_frame (operation : string) (sum max avg : number).

(** The mutable part of the module: the [_logged] property of
    [FFTOperations] ([None] until it is first assigned) and the console. *)
Record engine_state := {
  _logged : option bool;
  console : list log_entry
}.

Definition initial_state : engine_state := {| _logged := None; console := [] |}.

Definition M (A : Type) : Type := engine_state -> outcome A * engine_state.

Definition ret {A} (a : A) : M A := fun st => (Ok a, st).

Definition bind {A B} (m : M A) (k : A -> M B) : M B :=
  fun st =>
    match m st with
    | (Ok a, st') => k a st'
    | (Throw e, st') => (Throw e, st')
    | (OutOfFuel, st') => (OutOfFuel, st')
    | (Unmodelled, st') => (Unmodelled, st')
    end.

Definition throw {A} (e : js_error) : M A := fun st => (Throw e, st).
Definition unmodelled {A} : M A := fun st => (Unmodelled, st).
Definition lift {A} (o : outcome A) : M A := fun st => (o, st).

Definition log (e : log_entry) : M unit :=
  fun st => (Ok tt, {| _logged := _logged st; console := console st ++ [e] |}).

Definition set_logged (b : bool) : M unit :=
  fun st => (Ok tt, {| _logged := Some b; console := console st |}).

Definition get_logged : M (option bool) := fun st => (Ok (_logged st), st).

#[global] Instance M_ret : MRet M := @ret.
#[global] Instance M_bind : MBind M := fun A B k m => bind m k.

(** [for (...) body] over a list of indices, in the monad. *)
Fixpoint forM {S : Type} (l : list nat) (body : nat -> S -> M S) (s : S) : M S :=
  match l with
  | [] => ret s
  | i :: l' => s' ← body i s; forM l' body s'
  end.

Module Dispatch.
Import FFTOperations.

(** What [FFTOperations[key]] evaluates to. *)
Inductive member :=
  | MOperator (f : Float32Array -> Float32Array -> Float32Array)
  | MApply
  | MResetLog
  | MLogged (b : bool)
  | MInherited
  | MUndefined.

(** The property names [FFTOperations] inherits from [Object.prototype]. *)
Definition object_prototype_keys : list string :=
  [ "constructor"; "hasOwnProperty"; "isPrototypeOf"; "propertyIsEnumerable";
    "toLocaleString"; "toString"; "valueOf"; "__proto__";
    "__defineGetter__"; "__defineSetter__"; "__lookupGetter__"; "__lookupSetter__" ]%string.

Definition operators : list (string * (Float32Array -> Float32Array -> Float32Array)) :=
  [ ("and", and); ("or", or); ("xor", xor); ("multiply", multiply);
    ("average", average); ("notA", notA); ("notB", notB);
    ("aSquared", aSquared); ("bSquared", bSquared); ("subtract", subtract) ]%string.

Fixpoint assoc {A} (key : string) (l : list (string * A)) : option A :=
  match l with
  | [] => None
  | (k, v) :: l' => if String.eqb key k then Some v else assoc key l'
  end.

Definition get_string (key : string) (st : engine_state) : member :=
  match assoc key operators with
  | Some f => MOperator f
  | None =>
      if String.eqb key "apply" then MApply
      else if String.eqb key "resetLog" then MResetLog
      else if String.eqb key "_logged" then
        match _logged st with Some b => MLogged b | None => MUndefined end
      else if existsb (String.eqb key) object_prototype_keys then MInherited
      else MUndefined
  end.

(** A typed array used as a key is first turned into a string, its elements
    joined by commas: never the name of a property of the object. *)
Definition get (key : prop_key) (st : engine_state) : member :=
  match key with
  | KString s => get_string s st
  | KArray _ => MUndefined
  end.

Definition lookup (key : prop_key) : M member := fun st => (Ok (get key st), st).

End Dispatch.

Module Apply.
Import FFTOperations Dispatch.

(** [x[i].toFixed(4)]: a TypeError when [x[i]] is undefined. *)
Definition sample (x : option Float32Array) (i : nat) : M number :=
  match x with
  | None => throw TypeError
  | Some a => match a !! i with Some v => ret v | None => throw TypeError end
  end.

(** The "log first call" block of [apply]; [result] is [None] when the called
    member returned [undefined]. *)
Definition log_first_call (operation : prop_key) (magA : Float32Array)
    (magB result : option Float32Array) : M unit :=
  l ← get_logged;
  match l with
  | Some true => ret tt
  | _ =>
      set_logged true;;
      let sampleIdx := length magA / 4 in
      log (console_log_sample_at operation sampleIdx);;
      a ← sample (Some magA) sampleIdx;
      b ← sample magB sampleIdx;
      r ← sample result sampleIdx;
      log (console_log_sample a b r)
  end.

(** [FFTOperations.average(magA, undefined)]: the first cell already reads
    [undefined[0]]. *)
Definition average_undefined (magA : Float32Array) : M Float32Array :=
  match magA with
  | [] => ret []
  | _ :: _ => throw TypeError
  end.

(** [apply] as reached through [FFTOperations["apply"](magA, magB)]: its
    [operation] is the array [magA], its [magA] is [magB] and its [magB] is
    undefined. *)
Definition apply_nested (operation magA : Float32Array) : M Float32Array :=
  m ← lookup (KArray operation);
  match m with
  | MUndefined | MLogged false =>
      log (console_error_unknown (KArray operation));;
      average_undefined magA
  | _ => unmodelled
  end.

(** [FFTOperations.apply(operation, magA, magB)]; [None] is a result that is
    [undefined]. *)
Definition apply (operation : string) (magA magB : Float32Array)
    : M (option Float32Array) :=
  m ← lookup (KString operation);
  match m with
  | MUndefined | MLogged false =>
      log (console_error_unknown (KString operation));;
      ret (Some (average magA magB))
  | MOperator f =>
      let result := f magA magB in
      log_first_call (KString operation) magA (Some magB) (Some result);;
      ret (Some result)
  | MApply =>
      result ← apply_nested magA magB;
      log_first_call (KString operation) magA (Some magB) (Some result);;
      ret (Some result)
  | MResetLog =>
      set_logged false;;
      log_first_call (KString operation) magA (Some magB) None;;
      ret None
  | MLogged true => throw TypeError
  | MInherited => unmodelled
  end.

(** [FFTOperations.resetLog()]. *)
Definition resetLog : M unit := set_logged false.

End Apply.

(** ** The AudioProcessor class *)

(** The three transcendental functions of [Math] the class calls. *)
Record MathImpl := {
  Math_cos : number -> number;
  Math_sin : number -> number;
  Math_atan2 : number -> number -> number
}.

(** An [AudioBuffer] of one channel: [getChannelData(0)] and [sampleRate]. *)
Record AudioBuffer := {
  channelData : Float32Array;
  sampleRate : number
}.

(** What [performFFT] returns. *)
Record fft_frame := {
  magnitude : Float32Array;
  phase : Float32Array;
  real : Float32Array;
  imag : Float32Array
}.

(** An element of [outputFrames]; [out_magnitude] is what [apply] returned. *)
Record out_frame := {
  out_magnitude : option Float32Array;
  out_phase : Float32Array
}.

(** [a[z]] for an index that may be negative. *)
Definition f32_getZ (a : Float32Array) (z : Z) : number :=
  if (z <? 0)%Z then NaN else f32_get a (Z.to_nat z).

(** [a[z] = v] for an index that may be negative. *)
Definition f32_setZ (a : Float32Array) (z : Z) (v : number) : Float32Array :=
  if (z <? 0)%Z then a else f32_set a (Z.to_nat z) v.

(** [for (let j = 0; j < n && cond(j); j++) body]. *)
Fixpoint for_break {S : Type} (l : list nat) (cond : nat -> bool)
    (body : nat -> S -> S) (s : S) : S :=
  match l with
  | [] => s
  | j :: l' => if cond j then for_break l' cond body (body j s) else s
  end.

(** [for (let i = start; i < stop; i += step) body], at most [fuel] rounds. *)
Fixpoint for_step {S : Type} (fuel : nat) (i stop step : nat)
    (body : nat -> S -> S) (s : S) : S :=
  match fuel with
  | 0 => s
  | S fuel' =>
      if i <? stop then for_step fuel' (i + step) stop step body (body i s) else s
  end.

(** [Math.floor(windowSize * (1 - overlapPercent / 100))]. *)
Definition hopSize (windowSize overlapPercent : Z) : Z :=
  Math_floor (mul (of_Z windowSize) (sub one (div (of_Z overlapPercent) (of_Z 100)))).

(** *** Frame alignment (the head of the loop of [process]) *)

(** [targetFrames].  The frame counts, their sum and the products
    [i * len] below are integers under 2^53: the binary64 quotients have the
    floor and the ceiling of the exact ones. *)
Definition targetFrames (timeMatch : bool) (lenA lenB : nat) : nat :=
  if timeMatch then (lenA + lenB + 1) / 2   (* Math.ceil((lenA + lenB) / 2) *)
  else Nat.min lenA lenB.

(** [indexA] and [indexB] for the output frame [i]. *)
Definition frameIndex (timeMatch : bool) (i len target : nat) : Z :=
  if timeMatch then Z.min (Z.of_nat (i * len / target)) (Z.of_nat len - 1)
  else Z.of_nat i.

(** [frames[z]], [None] for [undefined]. *)
Definition frame_at {A} (frames : list A) (z : Z) : option A :=
  if (z <? 0)%Z then None else frames !! Z.to_nat z.

(** *** combinePhases *)

Definition combinePhases (phaseA phaseB magA magB : Float32Array) (mode : string)
    : Float32Array :=
  let result := f32_new (length phaseA) in
  if String.eqb mode "a" then phaseA
  else if String.eqb mode "b" then phaseB
  else if String.eqb mode "average" then
    for_range (length phaseA) (fun i result =>
      let totalMag := add (f32_get magA i) (f32_get magB i) in
      if gt totalMag pzero then
        let weightA := div (f32_get magA i) totalMag in
        let weightB := div (f32_get magB i) totalMag in
        f32_set result i
          (add (mul (f32_get phaseA i) weightA) (mul (f32_get phaseB i) weightB))
      else
        f32_set result i (div (add (f32_get phaseA i) (f32_get phaseB i)) two))
      result
  else phaseA.

(** *** The final step of [resynthesize]: "normalize to prevent clipping" *)

Definition maxAmplitude (outputData : Float32Array) : number :=
  for_range (length outputData) (fun i maxAmplitude =>
    let abs := Math_abs (f32_get outputData i) in
    if gt abs maxAmplitude then abs else maxAmplitude) pzero.

Definition clipSafe (outputData : Float32Array) : Float32Array :=
  let maxAmplitude := maxAmplitude outputData in
  if gt maxAmplitude pzero then
    let scale := div c0_95 maxAmplitude in
    for_range (length outputData) (fun i outputData =>
      f32_set outputData i (mul (f32_get outputData i) scale)) outputData
  else outputData.

Section AudioProcessor.

Variable Math : MathImpl.

(** [getHannWindow(size)]. *)
Definition getHannWindow (size : nat) : Float32Array :=
  for_range size (fun i window =>
    f32_set window i
      (mul half (sub one (Math_cos Math (div (mul (mul two Math_PI) (of_nat i)) (of_nat size))))))
    (f32_new size).

(** *** fft *)

(** [while (k > 0 && k <= j) { j -= k; k >>= 1; }]. *)
Fixpoint reverse_carry (fuel : nat) (j k : nat) : nat * nat :=
  match fuel with
  | 0 => (j, k)
  | S fuel' =>
      if (0 <? k) && (k <=? j) then reverse_carry fuel' (j - k) (Nat.div2 k)
      else (j, k)
  end.

(** [[a[i], a[j]] = [a[j], a[i]]]. *)
Definition swap (a : Float32Array) (i j : nat) : Float32Array :=
  let x := f32_get a j in
  let y := f32_get a i in
  f32_set (f32_set a i x) j y.

(** The bit-reversal permutation; the state is [(real, imag, j)]. *)
Definition bitReverse (n : nat) (real imag : Float32Array)
    : Float32Array * Float32Array :=
  let '(real, imag, _) :=
    for_range n (fun i '(real, imag, j) =>
      let '(real, imag) :=
        if i <? j then (swap real i j, swap imag i j) else (real, imag) in
      let '(j, k) := reverse_carry (S n) j (Nat.div2 n) in
      (real, imag, j + k))
      (real, imag, 0) in
  (real, imag).

(** The body of the innermost loop: one butterfly and one step of the
    twiddle recurrence; the state is [(real, imag, wReal, wImag)]. *)
Definition butterfly (len i : nat) (wlenReal wlenImag : number) (j : nat)
    (st : Float32Array * Float32Array * number * number)
    : Float32Array * Float32Array * number * number :=
  let '(real, imag, wReal, wImag) := st in
  let u := i + j in
  let v := u + len / 2 in
  let tReal := sub (mul (f32_get real v) wReal) (mul (f32_get imag v) wImag) in
  let tImag := add (mul (f32_get real v) wImag) (mul (f32_get imag v) wReal) in
  let real := f32_set real v (sub (f32_get real u) tReal) in
  let imag := f32_set imag v (sub (f32_get imag u) tImag) in
  let real := f32_set real u (add (f32_get real u) tReal) in
  let imag := f32_set imag u (add (f32_get imag u) tImag) in
  let tempReal := sub (mul wReal wlenReal) (mul wImag wlenImag) in
  let wImag := add (mul wReal wlenImag) (mul wImag wlenReal) in
  let wReal := tempReal in
  (real, imag, wReal, wImag).

(** One pass of the outer loop, for a given [len]. *)
Definition stage (n len : nat) (ri : Float32Array * Float32Array)
    : Float32Array * Float32Array :=
  let angle := div (mul (of_Z (-2)) Math_PI) (of_nat len) in
  let wlenReal := Math_cos Math angle in
  let wlenImag := Math_sin Math angle in
  for_step n 0 n len (fun i '(real, imag) =>
    let '(real, imag, _, _) :=
      for_range (len / 2) (butterfly len i wlenReal wlenImag) (real, imag, one, pzero) in
    (real, imag)) ri.

(** [for (let len = 2; len <= n; len <<= 1)], at most [fuel] rounds.  The
    shifts [n >> 1] and [len <<= 1] work on 32-bit integers; array lengths
    are below 2^30, where they halve and double. *)
Fixpoint stages (fuel : nat) (n len : nat) (ri : Float32Array * Float32Array)
    : Float32Array * Float32Array :=
  match fuel with
  | 0 => ri
  | S fuel' => if len <=? n then stages fuel' n (2 * len) (stage n len ri) else ri
  end.

Definition fft (real imag : Float32Array) : Float32Array * Float32Array :=
  let n := length real in
  if n <=? 1 then (real, imag)
  else stages n n 2 (bitReverse n real imag).

(** *** ifft *)

Definition ifft (real imag : Float32Array) : Float32Array * Float32Array :=
  let n := length real in
  let imag := for_range n (fun i imag => f32_set imag i (neg (f32_get imag i))) imag in
  let '(real, imag) := fft real imag in
  for_range n (fun i '(real, imag) =>
    let real := f32_set real i (div (f32_get real i) (of_nat n)) in
    let imag := f32_set imag i (div (neg (f32_get imag i)) (of_nat n)) in
    (real, imag)) (real, imag).

(** *** performFFT and performIFFT *)

(** [new Float32Array(signal)]. *)
Definition f32_copy (signal : list number) : Float32Array := map fround signal.

Definition performFFT (signal : Float32Array) : fft_frame :=
  let size := length signal in
  let real := f32_copy signal in
  let imag := f32_new size in
  let '(real, imag) := fft real imag in
  (* halfSize = size / 2 is fractional for an odd size: the arrays get
     floor(halfSize) cells, the loop makes ceil(halfSize) rounds *)
  let magnitude := f32_new (size / 2) in
  let phase := f32_new (size / 2) in
  let '(magnitude, phase) :=
    for_range ((size + 1) / 2) (fun i '(magnitude, phase) =>
      let magnitude :=
        f32_set magnitude i
          (Math_sqrt (add (mul (f32_get real i) (f32_get real i))
                          (mul (f32_get imag i) (f32_get imag i)))) in
      let phase := f32_set phase i (Math_atan2 Math (f32_get imag i) (f32_get real i)) in
      (magnitude, phase)) (magnitude, phase) in
  {| magnitude := magnitude; phase := phase; real := real; imag := imag |}.

Definition performIFFT (magnitude phase : Float32Array) : Float32Array :=
  let size := length magnitude * 2 in
  let real := f32_new size in
  let imag := f32_new size in
  let '(real, imag) :=
    for_range (length magnitude) (fun i '(real, imag) =>
      let real := f32_set real i (mul (f32_get magnitude i) (Math_cos Math (f32_get phase i))) in
      let imag := f32_set imag i (mul (f32_get magnitude i) (Math_sin Math (f32_get phase i))) in
      (real, imag)) (real, imag) in
  let '(real, imag) :=
    for_range (length magnitude - 1) (fun k '(real, imag) =>
      let i := S k in
      let real := f32_set real (size - i) (f32_get real i) in
      let imag := f32_set imag (size - i) (neg (f32_get imag i)) in
      (real, imag)) (real, imag) in
  let '(real, imag) := ifft real imag in
  for_range size (fun i real => f32_set real i (mul (f32_get real i) two)) real.

(** *** performSTFT *)

(** "Extract and window the frame" that starts at sample [i]. *)
Definition analysisFrame (channelData window : Float32Array) (windowSize i : Z)
    : Float32Array :=
  let n := Z.to_nat windowSize in
  for_range n (fun j frame =>
    f32_set frame j (mul (f32_getZ channelData (i + Z.of_nat j)) (f32_get window j)))
    (f32_new n).

(** The frame loop, [i] being its counter; one unit of fuel per frame. *)
Fixpoint stft_loop (fuel : nat) (channelData window : Float32Array)
    (windowSize hopSize : Z) (i : Z) (frames : list fft_frame)
    : outcome (list fft_frame) :=
  if (i + windowSize <=? Z.of_nat (length channelData))%Z then
    match fuel with
    | 0 => OutOfFuel
    | S fuel' =>
        let frame := analysisFrame channelData window windowSize i in
        let fftResult := performFFT frame in
        stft_loop fuel' channelData window windowSize hopSize (i + hopSize)
          (frames ++ [fftResult])
    end
  else Ok frames.

Definition performSTFT (fuel : nat) (buffer : AudioBuffer)
    (windowSize overlapPercent : Z) : outcome (list fft_frame) :=
  let channelData := channelData buffer in
  let hopSize := hopSize windowSize overlapPercent in
  if (windowSize <? 0)%Z then Throw RangeError
  else
    let window := getHannWindow (Z.to_nat windowSize) in
    stft_loop fuel channelData window windowSize hopSize 0 [].

(** *** getSingleFFT *)

(** [Math.min(startIndex + i, channelData.length - 1)] as an index;
    [startIndex] is the [Math.floor] of [p].  [None] is an index that names no
    element whatever the array: NaN (from a NaN [startIndex]) or
    [-Infinity]. *)
Definition singleFrameIndex (p : number) (i : nat) (len : nat) : option Z :=
  match p with
  | S754_nan | S754_infinity true => None
  | S754_infinity false => Some (Z.of_nat len - 1)%Z
  | _ => Some (Z.min (Math_floor p + Z.of_nat i) (Z.of_nat len - 1))
  end.

(** [getSingleFFT(buffer, windowSize, position)]; the defaults of the source
    are [windowSize = 4096] and [position = 0.5]. *)
Definition getSingleFFT (buffer : AudioBuffer) (windowSize : Z) (position : number)
    : outcome fft_frame :=
  let channelData := channelData buffer in
  let p := mul (of_Z (Z.of_nat (length channelData) - windowSize)) position in
  if (windowSize <? 0)%Z then Throw RangeError
  else
    let n := Z.to_nat windowSize in
    let window := getHannWindow n in
    let frame :=
      for_range n (fun i frame =>
        let sample :=
          match singleFrameIndex p i (length channelData) with
          | Some index => f32_getZ channelData index
          | None => NaN
          end in
        f32_set frame i (mul sample (f32_get window i)))
        (f32_new n) in
    Ok (performFFT frame).

End AudioProcessor.

Section Pipeline.

Variable Math : MathImpl.

(** *** resynthesize *)

(** The overlap-add of one frame at [offset]; the state is
    [(outputData, windowSum)]. *)
Definition overlapAdd (windowSize outputLength offset : Z)
    (timeSignal window : Float32Array) (acc : Float32Array * Float32Array)
    : Float32Array * Float32Array :=
  for_break (seq 0 (Z.to_nat windowSize))
    (fun j => (offset + Z.of_nat j <? outputLength)%Z)
    (fun j '(outputData, windowSum) =>
       let z := (offset + Z.of_nat j)%Z in
       let outputData :=
         f32_setZ outputData z
           (add (f32_getZ outputData z) (mul (f32_get timeSignal j) (f32_get window j))) in
       let windowSum :=
         f32_setZ windowSum z (add (f32_getZ windowSum z) (f32_get window j)) in
       (outputData, windowSum))
    acc.

(** "Normalize by window sum". *)
Definition normalizeByWindowSum (outputData windowSum : Float32Array) : Float32Array :=
  for_range (length outputData) (fun i outputData =>
    if gt (f32_get windowSum i) c0_001
    then f32_set outputData i (div (f32_get outputData i) (f32_get windowSum i))
    else outputData) outputData.

(** [this.audioContext.createBuffer(1, outputLength, sampleRate)] followed by
    [copyToChannel(outputData, 0)].  The buffer is an object of the Web Audio
    API; the checks that API makes on its own arguments are not modelled. *)
Definition createBuffer (outputData : Float32Array) (sampleRate : number) : AudioBuffer :=
  {| channelData := outputData; sampleRate := sampleRate |}.

(** [resynthesize] up to the comment "Normalize to prevent clipping": the
    overlap-add of every frame and the division by the window sum.  It
    returns [outputData] as it stands before the final scaling. *)
Definition resynthesize_unscaled (outputFrames : list out_frame)
    (windowSize overlapPercent : Z) : M Float32Array :=
  let hopSize := hopSize windowSize overlapPercent in
  if (windowSize <? 0)%Z then throw RangeError
  else
    let window := getHannWindow Math (Z.to_nat windowSize) in
    let outputLength := ((Z.of_nat (length outputFrames) - 1) * hopSize + windowSize)%Z in
    if (outputLength <? 0)%Z then throw RangeError
    else
      let outputData := f32_new (Z.to_nat outputLength) in
      let windowSum := f32_new (Z.to_nat outputLength) in
      '(outputData, windowSum) ←
        forM (seq 0 (length outputFrames)) (fun i acc =>
          match outputFrames !! i with
          | Some {| out_magnitude := Some magnitude; out_phase := phase |} =>
              let timeSignal := performIFFT Math magnitude phase in
              let offset := (Z.of_nat i * hopSize)%Z in
              ret (overlapAdd windowSize outputLength offset timeSignal window acc)
          | _ => throw TypeError
          end) (outputData, windowSum);
      ret (normalizeByWindowSum outputData windowSum).

Definition resynthesize (outputFrames : list out_frame) (audioBufferA : AudioBuffer)
    (windowSize overlapPercent : Z) : M AudioBuffer :=
  outputData ← resynthesize_unscaled outputFrames windowSize overlapPercent;
  let outputData := clipSafe outputData in
  ret (createBuffer outputData (sampleRate audioBufferA)).

(** *** process *)

(** The fields of [this] that [process] reads. *)
Record processor := {
  audioBufferA : option AudioBuffer;
  audioBufferB : option AudioBuffer
}.

(** The "mid-frame stats" debug block. *)
Definition logMidFrame (operation : string) (outputFrames : list out_frame) : M unit :=
  match outputFrames with
  | [] => ret tt
  | _ :: _ =>
      let midFrame := length outputFrames / 2 in
      match outputFrames !! midFrame with
      | Some {| out_magnitude := Some sampleMag |} =>
          let '(sum, max) :=
            for_range (length sampleMag) (fun i '(sum, max) =>
              let sum := add sum (f32_get sampleMag i) in
              let max := if gt (f32_get sampleMag i) max then f32_get sampleMag i else max in
              (sum, max)) (pzero, pzero) in
          log (console_log_mid_frame operation sum max
                 (div sum (of_nat (length sampleMag))))
      | _ => throw TypeError
      end
  end.

(** [process(operation, phaseMode, windowSize, overlapPercent, timeMatch)]
    with no progress callback.  [windowSize] and [overlapPercent] are
    integers, as the caller obtains them with [parseInt].  The instance
    fields [framesA], [framesB] and [outputFrames] it assigns are the local
    bindings of the same names. *)
Definition process (fuel : nat) (this : processor) (operation phaseMode : string)
    (windowSize overlapPercent : Z) (timeMatch : bool) : M AudioBuffer :=
  match audioBufferA this, audioBufferB this with
  | Some bufferA, Some bufferB =>
      framesA ← lift (performSTFT Math fuel bufferA windowSize overlapPercent);
      framesB ← lift (performSTFT Math fuel bufferB windowSize overlapPercent);
      let target := targetFrames timeMatch (length framesA) (length framesB) in
      log (console_log_processing operation phaseMode);;
      log (console_log_frames (length framesA) (length framesB) (Z.of_nat target));;
      Apply.resetLog;;
      outputFrames ←
        forM (seq 0 target) (fun i outputFrames =>
          let indexA := frameIndex timeMatch i (length framesA) target in
          let indexB := frameIndex timeMatch i (length framesB) target in
          match frame_at framesA indexA, frame_at framesB indexB with
          | Some frameA, Some frameB =>
              processedMagnitude ←
                Apply.apply operation (magnitude frameA) (magnitude frameB);
              let processedPhase :=
                combinePhases (phase frameA) (phase frameB)
                  (magnitude frameA) (magnitude frameB) phaseMode in
              ret (outputFrames ++
                     [{| out_magnitude := processedMagnitude;
                         out_phase := processedPhase |}])
          | _, _ => throw TypeError
          end) [];
      logMidFrame operation outputFrames;;
      resynthesize outputFrames bufferA windowSize overlapPercent
  | _, _ => throw (Error "Both audio files must be loaded")
  end.

End Pipeline.

(** ** exportToWAV *)

(** An [AudioBuffer] with any number of channels: [getChannelData(c)] is
    [channels !! c], [length] is [frames]. *)
Record AudioBufferN := {
  channels : list Float32Array;
  frames : nat;
  rate : number
}.

Definition numberOfChannels (buffer : AudioBufferN) : nat := length (channels buffer).


(** The integer part of a number, towards zero; 0 for NaN, the zeros and the
    infinities (the first step of [ToUint32], [ToUint16] and [ToInt16]). *)
Definition truncate (x : number) : Z :=
  match x with
  | S754_finite s m e =>
      cond_Zopp s (if (0 <=? e)%Z then Z.shiftl (Zpos m) e else Z.shiftr (Zpos m) (- e))
  | _ => 0%Z
  end.

(** An [ArrayBuffer]: its bytes, each between 0 and 255. *)
Abbreviation ArrayBuffer := (list Z).

#[global] Instance outcome_ret : MRet outcome := @Ok.
#[global] Instance outcome_bind : MBind outcome := fun A B k m =>
  match m with
  | Ok a => k a
  | Throw e => Throw e
  | OutOfFuel => OutOfFuel
  | Unmodelled => Unmodelled
  end.

Module DataView.

(** The [size] bytes of [value], the least significant first. *)
Fixpoint le_bytes (size : nat) (value : Z) : list Z :=
  match size with
  | 0 => []
  | S size' => (value mod 256)%Z :: le_bytes size' (value / 256)
  end.

(** [view.setUintN(byteOffset, value, true)] and [view.setInt16(byteOffset,
    value, true)] for an integer [value]: a RangeError when the [size] bytes
    do not lie within the buffer; [value] is taken modulo [2^(8 * size)]. *)
Definition set (size : nat) (view : ArrayBuffer) (byteOffset : nat) (value : Z)
    : outcome ArrayBuffer :=
  if byteOffset + size <=? length view then
    Ok (take byteOffset view ++ le_bytes size value ++ drop (byteOffset + size) view)
  else Throw RangeError.

Definition setUint8 := set 1.
Definition setUint16 := set 2.
Definition setUint32 := set 4.
Definition setInt16 := set 2.

End DataView.

(** [writeString(offset, string)]. *)
Fixpoint writeString (view : ArrayBuffer) (offset : nat) (string : list Z)
    : outcome ArrayBuffer :=
  match string with
  | [] => Ok view
  | c :: string' =>
      view ← DataView.setUint8 view offset c;
      writeString view (S offset) string'
  end.

(** [string.charCodeAt(i)] for the four tags of the header. *)
Definition charCodes (s : string) : list Z :=
  map (fun c => Z.of_N (Ascii.N_of_ascii c)) (String.list_ascii_of_string s).

(** The 16-bit word written for one sample:
    [Math.max(-1, Math.min(1, sample)) * 0x7FFF]. *)
Definition int16 (sample : number) : number :=
  mul (Math_max (of_Z (-1)) (Math_min one sample)) (of_Z 32767).

Record Blob := {
  blob_bytes : ArrayBuffer;
  blob_type : string
}.

(** ["Write audio data"]: the state is [(view, offset)]. *)
Definition writeSamples (buffer : AudioBufferN) (view : ArrayBuffer)
    : outcome (ArrayBuffer * nat) :=
  for_range (frames buffer) (fun i acc =>
    for_range (numberOfChannels buffer) (fun channel acc =>
      '(view, offset) ← acc;
      let sample :=
        match channels buffer !! channel with
        | Some data => f32_get data i
        | None => NaN
        end in
      view ← DataView.setInt16 view offset (truncate (int16 sample));
      Ok (view, offset + 2)) acc)
    (Ok (view, 44)).

Definition exportToWAV (buffer : AudioBufferN) : outcome Blob :=
  let numberOfChannels := numberOfChannels buffer in
  let sampleRate := rate buffer in
  let length := frames buffer * numberOfChannels * 2 in
  let view : ArrayBuffer := replicate (44 + length) 0%Z in
  view ← writeString view 0 (charCodes "RIFF");
  view ← DataView.setUint32 view 4 (Z.of_nat (36 + length));
  view ← writeString view 8 (charCodes "WAVE");
  view ← writeString view 12 (charCodes "fmt ");
  view ← DataView.setUint32 view 16 16;
  view ← DataView.setUint16 view 20 1;
  view ← DataView.setUint16 view 22 (Z.of_nat numberOfChannels);
  view ← DataView.setUint32 view 24 (truncate sampleRate);
  view ← DataView.setUint32 view 28
           (truncate (mul (mul sampleRate (of_nat numberOfChannels)) two));
  view ← DataView.setUint16 view 32 (Z.of_nat (numberOfChannels * 2));
  view ← DataView.setUint16 view 34 16;
  view ← writeString view 36 (charCodes "data");
  view ← DataView.setUint32 view 40 (Z.of_nat length);
  '(view, _) ← writeSamples buffer view;
  Ok {| blob_bytes := view; blob_type := "audio/wav" |}.

(** * Part II: specification vocabulary *)

(** [x] is not NaN and carries the sign bit [s]. *)
Definition has_sign (s : bool) (x : number) : Prop :=
  match x with
  | S754_zero s' | S754_infinity s' | S754_finite s' _ _ => s' = s
  | S754_nan => False
  end.

(** A value as a Float32Array holds it: storing it again changes nothing. *)
Definition is_float32 (x : number) : Prop := fround x = x.

(** A magnitude: a finite, non-negative binary32 value. *)
Definition is_magnitude (x : number) : Prop :=
  is_finite x = true /\ le pzero x = true /\ is_float32 x.

(** A sample: a finite binary32 value. *)
Definition is_sample (x : number) : Prop :=
  is_finite x = true /\ is_float32 x.

Definition bpow (e : Z) : R := powerRZ 2 e.
Arguments bpow : simpl never.

(** The real number a finite [number] stands for (0 for the others). *)
Definition B2R (x : number) : R :=
  match x with
  | S754_finite s m e => (IZR (cond_Zopp s (Zpos m)) * bpow e)%R
  | _ => 0%R
  end.

(** [rep mrs v u]: the mantissa of the shift record [mrs] is an integer
    [m >= 0] at most [u], and [v] is at least [m], and at least [m + 1/2] when
    the round bit is set. *)
Definition rep (mrs : shr_record) (v u : R) : Prop :=
  (0 <= shr_m mrs)%Z /\
  (IZR (shr_m mrs) + (if shr_r mrs then / 2 else 0) <= v)%R /\
  (IZR (shr_m mrs) <= u)%R.

(** The number with mantissa [m >= 0] at exponent [e]. *)
Definition of_mantissa (s : bool) (m e : Z) : number :=
  match m with
  | Z0 => S754_zero s
  | Zpos p => S754_finite s p e
  | Zneg _ => S754_nan
  end.

(** The last step of [binary_round_aux]: the overflow test. *)
Definition round_result (prec emax : Z) (s : bool) (m e : Z) : number :=
  match m with
  | Z0 => S754_zero s
  | Zpos p => if (e <=? emax - prec)%Z then S754_finite s p e else S754_infinity s
  | Zneg _ => S754_nan
  end.

(** A binary64 mantissa and exponent in canonical form. *)
Definition canonical64 (m : positive) (e : Z) : Prop :=
  fexp 53 1024 (Z.pos (digits2_pos m) + e) = e.

(** A non-negative number in canonical form: [+0] or a positive finite. *)
Definition canonical_nonneg (x : number) : Prop :=
  match x with
  | S754_zero false => True
  | S754_finite false m e => canonical64 m e
  | _ => False
  end.

(** The frames the STFT loop pushes when it makes [k] more rounds from
    sample [i]. *)
Definition framesFrom (Math : MathImpl) (channelData window : Float32Array)
    (windowSize hopSize : Z) (i : Z) (k : nat) : list fft_frame :=
  map (fun r => performFFT Math
                  (analysisFrame channelData window windowSize (i + Z.of_nat r * hopSize)))
      (seq 0 k).

(** How many frames fit from sample [i] on. *)
Definition roundsFrom (L windowSize hopSize i : Z) : nat :=
  if (i + windowSize <=? L)%Z then Z.to_nat ((L - windowSize - i) / hopSize + 1) else 0.


(** The outcome is a thrown [Error] object. *)
Definition is_Error {A} (o : outcome A) : Prop := exists msg, o = Throw (Error msg).

(** [m] never throws an [Error] object. *)
Definition no_Error {A} (m : M A) : Prop := forall st, ~ is_Error (fst (m st)).

(** The ten operator names. *)
Definition is_operator (operation : string) : Prop :=
  In operation (map fst Dispatch.operators).

(** The keys under which [FFTOperations[key]] finds nothing. *)
Definition not_a_property (operation : string) (st : engine_state) : Prop :=
  Dispatch.get_string operation st = Dispatch.MUndefined.

(** [Math.atan2] answers NaN or a finite angle between [-Math.PI] and
    [Math.PI], the range ECMA-262 gives it. *)
Definition atan2_in_range (Math : MathImpl) : Prop :=
  forall y x,
    isNaN (Math_atan2 Math y x) = true \/
    (is_finite (Math_atan2 Math y x) = true /\
     (Rabs (B2R (Math_atan2 Math y x)) <= B2R Math_PI)%R).

(** The invariant of a half-spectrum frame as the code keeps it: a magnitude
    is NaN or at least 0; a phase is NaN or a finite angle whose absolute
    value is at most the binary32 rounding of [Math.PI]. *)
Definition magnitude_ok (m : number) : Prop := isNaN m = true \/ le pzero m = true.

Definition phase_ok (p : number) : Prop :=
  isNaN p = true \/
  (is_finite p = true /\ (Rabs (B2R p) <= B2R (fround Math_PI))%R).

Definition frame_ok (frame : fft_frame) : Prop :=
  Forall magnitude_ok (magnitude frame) /\ Forall phase_ok (phase frame).

(** ** A partial [Math] for the examples

    The values of [Math.cos], [Math.sin] and [Math.atan2] at the arguments the
    examples below reach.  ECMA-262 fixes [cos(0) = 1], [sin(0) = 0] and the
    sign cases of [atan2] on the real axis; at [Math.PI] and [-Math.PI] the
    table holds the correctly rounded values, which every engine returns:
    [cos = -1] and [sin = 1.2246467991473532e-16] with the sign of the
    argument.  Every other call is left as NaN. *)

Definition is_Math_PI (m : positive) (e : Z) : bool :=
  (m =? 7074237752028440)%positive && (e =? -51)%Z.

Definition cos_table (x : number) : number :=
  match x with
  | S754_zero _ => one
  | S754_finite _ m e => if is_Math_PI m e then of_Z (-1) else NaN
  | _ => NaN
  end.

Definition sin_table (x : number) : number :=
  match x with
  | S754_zero _ => x
  | S754_finite s m e =>
      if is_Math_PI m e then S754_finite s 4967757600021511 (-105) else NaN
  | _ => NaN
  end.

(** For [y = +0], [atan2(y, x)] is [+0] when [x] is positive or [+0] and pi
    when [x] is negative or [-0]; for [y = -0] it is [-0] and minus pi. *)
Definition atan2_table (y x : number) : number :=
  match y with
  | S754_zero sy =>
      match x with
      | S754_nan => NaN
      | S754_zero sx | S754_infinity sx | S754_finite sx _ _ =>
          if sx then (if sy then neg Math_PI else Math_PI) else y
      end
  | _ => NaN
  end.

Definition Math_table : MathImpl :=
  {| Math_cos := cos_table; Math_sin := sin_table; Math_atan2 := atan2_table |}.

(** ** Concrete inputs used by the examples below *)

Definition mags1 : Float32Array := [of_Z 3; pzero; of_Z 5].
Definition mags2 : Float32Array := [of_Z 4; of_Z 2; of_Z 5].

Definition zeros4 : Float32Array := [pzero; pzero; pzero; pzero].

Definition samples1 : Float32Array := [of_Z 1; of_Z (-2); pzero; half].

(** A buffer of eight samples and a processor holding it twice. *)
Definition buffer8 : AudioBuffer :=
  {| channelData := map of_Z [1; 2; 3; 4; 5; 6; 7; 8]%Z; sampleRate := of_Z 44100 |}.

Definition loaded8 : processor :=
  {| audioBufferA := Some buffer8; audioBufferB := Some buffer8 |}.

Definition is_Ok {A} (o : outcome A) : bool :=
  match o with Ok _ => true | _ => false end.


(** The largest finite binary32 value, [(2^24 - 1) * 2^104], and a signal
    that alternates between it and its opposite. *)
Definition f32_max : number := of_Z ((2 ^ 24 - 1) * 2 ^ 104).

Definition loud4 : Float32Array := [f32_max; neg f32_max; f32_max; neg f32_max].

(** ** Vocabulary for the order of numbers *)

(** A number that is not NaN, as a point of [Z * Z * Z] in lexicographic
    order: the class (infinities, finite negatives, zeros, finite positives),
    then the exponent, then the mantissa, both negated for a negative
    number.  [SFcompare] is this order. *)
Definition key (x : number) : Z * Z * Z :=
  match x with
  | S754_infinity true => (-2, 0, 0)%Z
  | S754_finite true m e => (-1, - e, Z.neg m)%Z
  | S754_zero _ | S754_nan => (0, 0, 0)%Z
  | S754_finite false m e => (1, e, Z.pos m)%Z
  | S754_infinity false => (2, 0, 0)%Z
  end.

Definition key_compare (a b : Z * Z * Z) : comparison :=
  let '(a1, a2, a3) := a in
  let '(b1, b2, b3) := b in
  match (a1 ?= b1)%Z with
  | Eq => match (a2 ?= b2)%Z with Eq => (a3 ?= b3)%Z | c => c end
  | c => c
  end.

(** Either zero or a positive number in canonical form. *)
Definition canonical_nonneg_or_zero (x : number) : Prop :=
  match x with
  | S754_zero _ => True
  | S754_finite false m e => canonical64 m e
  | _ => False
  end.

(** A finite number in canonical form, of either sign. *)
Definition valid64 (x : number) : Prop :=
  match x with
  | S754_zero _ => True
  | S754_finite _ m e => canonical64 m e
  | _ => False
  end.

(** ** Vocabulary for the WAV file *)

(** [view.getUintN(byteOffset, true)]: the [size] bytes from [byteOffset] on
    as a number, the least significant first (0 for the bytes past the end). *)
Definition getUint (size : nat) (view : ArrayBuffer) (byteOffset : nat) : Z :=
  fold_right (fun byte acc => (byte + 256 * acc)%Z) 0%Z (take size (drop byteOffset view)).

(** [view.getInt16(byteOffset, true)]. *)
Definition getInt16 (view : ArrayBuffer) (byteOffset : nat) : Z :=
  let u := getUint 2 view byteOffset in
  if (u <? 32768)%Z then u else (u - 65536)%Z.

(** The sample of frame [i] in channel [channel]. *)
Definition sampleAt (buffer : AudioBufferN) (i channel : nat) : number :=
  match channels buffer !! channel with
  | Some data => f32_get data i
  | None => NaN
  end.

(** The 44 bytes of the header, field after field. *)
Definition wav_header (buffer : AudioBufferN) : list Z :=
  let nc := numberOfChannels buffer in
  let len := frames buffer * nc * 2 in
  charCodes "RIFF" ++ DataView.le_bytes 4 (Z.of_nat (36 + len)) ++
  charCodes "WAVE" ++ charCodes "fmt " ++
  DataView.le_bytes 4 16 ++ DataView.le_bytes 2 1 ++
  DataView.le_bytes 2 (Z.of_nat nc) ++
  DataView.le_bytes 4 (truncate (rate buffer)) ++
  DataView.le_bytes 4 (truncate (mul (mul (rate buffer) (of_nat nc)) two)) ++
  DataView.le_bytes 2 (Z.of_nat (nc * 2)) ++ DataView.le_bytes 2 16 ++
  charCodes "data" ++ DataView.le_bytes 4 (Z.of_nat len).

(** The samples, frame after frame, the channels interleaved, two bytes
    each. *)
Definition wav_data (buffer : AudioBufferN) : list Z :=
  flat_map (fun i =>
    flat_map (fun channel =>
      DataView.le_bytes 2 (truncate (int16 (sampleAt buffer i channel))))
      (seq 0 (numberOfChannels buffer)))
    (seq 0 (frames buffer)).

(** ** Vocabulary for the shapes of arrays and frames *)

(** A pair of arrays of given lengths. *)
Definition lengths (n m : nat) (ri : Float32Array * Float32Array) : Prop :=
  length (fst ri) = n /\ length (snd ri) = m.

(** An output frame that has a magnitude. *)
Definition has_magnitude (frame : out_frame) : Prop := out_magnitude frame <> None.

(** Frames of [bins] magnitudes. *)
Definition frames_of (bins : nat) (frames : list fft_frame) : Prop :=
  Forall (fun frame => length (magnitude frame) = bins) frames.

(** The frame loop of [resynthesize], round [i]. *)
Definition synthesisRound (Math : MathImpl) (outputFrames : list out_frame) (windowSize hopSize outputLength : Z)
    (i : nat) (acc : Float32Array * Float32Array) : Float32Array * Float32Array :=
  match outputFrames !! i with
  | Some {| out_magnitude := Some magnitude; out_phase := phase |} =>
      overlapAdd windowSize outputLength (Z.of_nat i * hopSize)
        (performIFFT Math magnitude phase)
        (getHannWindow Math (Z.to_nat windowSize)) acc
  | _ => acc
  end.

(** ** More concrete inputs *)

(** A spectrum of one bin. *)
Definition mags_short : Float32Array := [of_Z 4].

(** The state once [apply] has logged its first call. *)
Definition logged_state : engine_state := {| _logged := Some true; console := [] |}.

(** Two frames of two channels: 0.5 and 1 in the first frame, -0.5 and NaN
    in the second. *)
Definition stereo2 : AudioBufferN :=
  {| channels := [[half; neg half]; [one; NaN]]; frames := 2; rate := of_Z 44100 |}.

Definition stereo2_wav : Blob :=
  {| blob_bytes := wav_header stereo2 ++ wav_data stereo2; blob_type := "audio/wav" |}.

(** * Part III: proofs *)

(** ** Loops over arrays *)

Lemma for_range_S {S : Type} (n : nat) (body : nat -> S -> S) (s : S) :
  for_range (Datatypes.S n) body s = body n (for_range n body s).
Proof.
  unfold for_range. rewrite seq_S, fold_left_app. reflexivity.
Qed.

Lemma for_range_0 {S : Type} (body : nat -> S -> S) (s : S) :
  for_range 0 body s = s.
Proof. reflexivity. Qed.

Lemma f32_set_length (a : Float32Array) (i : nat) (v : number) :
  length (f32_set a i v) = length a.
Proof. apply length_insert. Qed.

Lemma for_range_store_length (g : nat -> number) (n : nat) (init : Float32Array) :
  length (for_range n (fun i result => f32_set result i (g i)) init) = length init.
Proof.
  induction n as [|n IHn]; [done|]. rewrite for_range_S.
  by rewrite f32_set_length.
Qed.

(** A loop of stores [result[i] = g i] over a prefix. *)
Lemma for_range_store_lookup (g : nat -> number) (n : nat) (init : Float32Array) (j : nat) :
  for_range n (fun i result => f32_set result i (g i)) init !! j =
  if decide (j < n /\ j < length init) then Some (fround (g j)) else init !! j.
Proof.
  induction n as [|n IH].
  - rewrite for_range_0. case_decide; [lia | done].
  - rewrite for_range_S. cbv beta. unfold f32_set at 1.
    pose proof (for_range_store_length g n init) as Hlen.
    destruct (decide (j = n)) as [->|Hne].
    + destruct (decide (n < length init)) as [Hlt|Hge].
      * rewrite list_lookup_insert_eq by (rewrite Hlen; lia).
        clear IH. case_decide; [done | lia].
      * rewrite list_insert_ge by (rewrite Hlen; lia).
        rewrite IH. repeat case_decide; try lia; done.
    + rewrite list_lookup_insert_ne by done. rewrite IH.
      repeat case_decide; try lia; done.
Qed.

Import FFTOperations.

Lemma fill_length (magA : Float32Array) (f : nat -> number) :
  length (fill magA f) = length magA.
Proof. unfold fill. rewrite for_range_store_length. apply length_replicate. Qed.

Lemma fill_lookup (magA : Float32Array) (f : nat -> number) (i : nat) :
  fill magA f !! i = if decide (i < length magA) then Some (fround (f i)) else None.
Proof.
  unfold fill. rewrite for_range_store_lookup. unfold f32_new. rewrite length_replicate.
  repeat case_decide; try lia; try done.
  apply lookup_replicate_None. lia.
Qed.

Lemma fill_ext (magA magB : Float32Array) (f g : nat -> number) :
  length magA = length magB ->
  (forall i, i < length magA -> f i = g i) ->
  fill magA f = fill magB g.
Proof.
  intros Hlen Hfg. apply list_eq. intros i. rewrite !fill_lookup, <- Hlen.
  case_decide; [|done]. by rewrite Hfg.
Qed.

(** ** Comparison of numbers *)

Lemma SFcompare_antisym (a b : number) (c : comparison) :
  SFcompare a b = Some c -> SFcompare b a = Some (CompOpp c).
Proof.
  destruct a as [sa|sa| |sa ma ea], b as [sb|sb| |sb mb eb]; simpl;
    try discriminate; try (intros [= <-]; try destruct sa; try destruct sb; reflexivity).
  intros [= <-]. f_equal.
  assert (Hm : Pos.compare_cont Eq mb ma = CompOpp (Pos.compare_cont Eq ma mb))
    by (symmetry; apply (Pos.compare_cont_antisym ma mb Eq)).
  rewrite (Z.compare_antisym ea eb), Hm.
  destruct sa, sb, (ea ?= eb)%Z; simpl; try reflexivity.
Qed.

Lemma SFcompare_refl (a : number) :
  isNaN a = false -> SFcompare a a = Some Eq.
Proof.
  destruct a as [s|s| |s m e]; simpl; try discriminate; intros _;
    try (destruct s; reflexivity).
  rewrite Z.compare_refl.
  change (Pos.compare_cont Eq m m) with (m ?= m)%positive.
  rewrite Pos.compare_refl. destruct s; reflexivity.
Qed.

Lemma SFcompare_None (a b : number) :
  SFcompare a b = None <-> isNaN a = true \/ isNaN b = true.
Proof.
  destruct a as [sa|sa| |sa ma ea], b as [sb|sb| |sb mb eb]; simpl;
    split; try discriminate; try tauto; try (intros [|]; discriminate); auto.
Qed.


Lemma Math_min_cases (a b : number) :
  Math_min a b = a \/ Math_min a b = b \/ Math_min a b = NaN.
Proof. unfold Math_min. destruct (SFcompare a b) as [[]|]; auto. destruct a as [[]| | |]; auto. Qed.

Lemma Math_max_cases (a b : number) :
  Math_max a b = a \/ Math_max a b = b \/ Math_max a b = NaN.
Proof. unfold Math_max. destruct (SFcompare a b) as [[]|]; auto. destruct a as [[]| | |]; auto. Qed.

Lemma Math_min_not_NaN (a b : number) :
  isNaN a = false -> isNaN b = false -> isNaN (Math_min a b) = false.
Proof.
  intros Ha Hb. unfold Math_min.
  destruct (SFcompare a b) as [[]|] eqn:Hab; try done.
  - by destruct a as [[]| | |].
  - apply SFcompare_None in Hab. destruct Hab; congruence.
Qed.

Lemma Math_max_not_NaN (a b : number) :
  isNaN a = false -> isNaN b = false -> isNaN (Math_max a b) = false.
Proof.
  intros Ha Hb. unfold Math_max.
  destruct (SFcompare a b) as [[]|] eqn:Hab; try done.
  - by destruct a as [[]| | |].
  - apply SFcompare_None in Hab. destruct Hab; congruence.
Qed.

(** ** Commutativity of the binary64 sum and product *)

Lemma add_comm (x y : number) : add x y = add y x.
Proof.
  unfold add. destruct x as [sx|sx| |sx mx ex], y as [sy|sy| |sy my ey]; simpl;
    try reflexivity; try (destruct sx, sy; reflexivity).
  rewrite (Z.min_comm ey ex). f_equal. apply Z.add_comm.
Qed.


(** ** Rounding never loses the sign *)

Lemma iter_pos_inv {A : Type} (P : A -> Prop) (f : A -> A) :
  (forall x, P x -> P (f x)) -> forall n x, P x -> P (SpecFloat.iter_pos f n x).
Proof.
  intros Hf. induction n as [n IH|n IH|]; intros x Hx; simpl; auto.
Qed.

Lemma shr_1_nonneg (mrs : shr_record) :
  (0 <= shr_m mrs)%Z -> (0 <= shr_m (shr_1 mrs))%Z.
Proof.
  destruct mrs as [m r s]. simpl. destruct m as [|[p|p|]|p]; simpl; lia.
Qed.

Lemma shr_nonneg (mrs : shr_record) (e n : Z) :
  (0 <= shr_m mrs)%Z -> (0 <= shr_m (fst (shr mrs e n)))%Z.
Proof.
  intros H. destruct n as [|p|p]; simpl; auto.
  apply (iter_pos_inv (fun mrs => (0 <= shr_m mrs)%Z)); auto using shr_1_nonneg.
Qed.

Lemma shr_record_of_loc_m (m : Z) (l : location) :
  shr_m (shr_record_of_loc m l) = m.
Proof. destruct l as [|[]]; reflexivity. Qed.

Lemma shr_fexp_nonneg (prec emax m e : Z) (l : location) :
  (0 <= m)%Z -> (0 <= shr_m (fst (shr_fexp prec emax m e l)))%Z.
Proof.
  intros H. unfold shr_fexp. apply shr_nonneg. by rewrite shr_record_of_loc_m.
Qed.

Lemma round_nearest_even_nonneg (m : Z) (l : location) :
  (0 <= m)%Z -> (0 <= round_nearest_even m l)%Z.
Proof.
  intros H. destruct l as [|[]]; simpl; try lia. destruct (Z.even m); lia.
Qed.

Lemma binary_round_aux_sign (prec emax : Z) (s : bool) (mx ex : Z) (lx : location) :
  (0 <= mx)%Z -> has_sign s (binary_round_aux prec emax s mx ex lx).
Proof.
  intros H. unfold binary_round_aux.
  pose proof (shr_fexp_nonneg prec emax mx ex lx H) as H1.
  destruct (shr_fexp prec emax mx ex lx) as [mrs' e']. simpl in H1.
  pose proof (shr_fexp_nonneg prec emax _ e' loc_Exact
                (round_nearest_even_nonneg _ (loc_of_shr_record mrs') H1)) as H2.
  destruct (shr_fexp prec emax _ e' loc_Exact) as [mrs'' e'']. simpl in H2.
  destruct (shr_m mrs'') as [|p|p]; simpl; try done; try lia.
  by destruct (e'' <=? emax - prec)%Z.
Qed.

Lemma binary_round_sign (prec emax : Z) (s : bool) (m : positive) (e : Z) :
  has_sign s (binary_round prec emax s m e).
Proof.
  unfold binary_round. destruct (shl_align _ _ _) as [mz ez].
  apply binary_round_aux_sign. lia.
Qed.

Lemma fround_sign (s : bool) (x : number) : has_sign s x -> has_sign s (fround x).
Proof.
  destruct x as [s'|s'| |s' m e]; simpl; try done. intros ->.
  pose proof (binary_round_sign 24 128 s m e) as H.
  destruct (binary_round 24 128 s m e) as [s1|s1| |s1 m1 e1]; simpl in *; try done.
  subst s1. apply binary_round_sign.
Qed.

Lemma fround_NaN (x : number) : isNaN x = true -> fround x = NaN.
Proof. destruct x; try discriminate. reflexivity. Qed.

Lemma has_sign_not_NaN (s : bool) (x : number) : has_sign s x -> isNaN x = false.
Proof. by destruct x. Qed.

Lemma has_sign_false_nonneg (x : number) : has_sign false x -> le pzero x = true.
Proof. destruct x as [s|s| |s m e]; simpl; try done; by intros ->. Qed.

Lemma nonneg_cases (x : number) :
  le pzero x = true -> is_zero x = true \/ has_sign false x.
Proof.
  destruct x as [s|s| |s m e]; simpl; auto; try discriminate; destruct s; auto; discriminate.
Qed.

Lemma binary_normalize_not_NaN (prec emax m e : Z) (sz : bool) :
  isNaN (binary_normalize prec emax m e sz) = false.
Proof.
  destruct m as [|p|p]; simpl; [done| |];
    eapply has_sign_not_NaN, binary_round_sign.
Qed.

Lemma sub_finite_not_NaN (x y : number) :
  is_finite x = true -> is_finite y = true -> isNaN (sub x y) = false.
Proof.
  unfold sub.
  destruct x as [sx|sx| |sx mx ex], y as [sy|sy| |sy my ey]; simpl; try done;
    intros _ _; try (by destruct sx, sy).
  apply binary_normalize_not_NaN.
Qed.

(** [Math.max(0, d)] is [+0] or a positive [d]. *)
Lemma Math_max_zero (d : number) :
  isNaN d = false -> has_sign false (Math_max pzero d).
Proof.
  destruct d as [s|s| |s m e]; try done; intros _; destruct s; done.
Qed.

Lemma is_magnitude_not_NaN (x : number) : is_magnitude x -> isNaN x = false.
Proof. intros [H _]. by destruct x. Qed.

Lemma f32_get_Some (a : Float32Array) (i : nat) (x : number) :
  a !! i = Some x -> f32_get a i = x.
Proof. unfold f32_get. by intros ->. Qed.



(** ** The operators, bin by bin *)

Section OperatorAlgebra.

Variables a b : Float32Array.
Hypothesis same_length : length a = length b.
Hypothesis mag_a : Forall is_magnitude a.
Hypothesis mag_b : Forall is_magnitude b.



Lemma subtract_nonneg (i : nat) :
  i < length a -> exists z, subtract a b !! i = Some z /\ le pzero z = true.
Proof using same_length mag_a mag_b.
  intros Hi.
  destruct (lookup_lt_is_Some_2 a i Hi) as [x Hx].
  destruct (lookup_lt_is_Some_2 b i ltac:(lia)) as [y Hy].
  pose proof (proj1 (Forall_lookup _ _) mag_a i x Hx) as Mx.
  pose proof (proj1 (Forall_lookup _ _) mag_b i y Hy) as My.
  unfold subtract. rewrite fill_lookup, decide_True by done.
  rewrite (f32_get_Some a i x Hx), (f32_get_Some b i y Hy).
  eexists. split; [done|].
  apply has_sign_false_nonneg, fround_sign, Math_max_zero.
  apply sub_finite_not_NaN; [apply Mx | apply My].
Qed.



End OperatorAlgebra.


(** ** findMax on magnitudes *)

Lemma for_range_ext {S : Type} (n : nat) (body1 body2 : nat -> S -> S) (s : S) :
  (forall k s, k < n -> body1 k s = body2 k s) ->
  for_range n body1 s = for_range n body2 s.
Proof.
  induction n as [|n IH]; intros H; [done|].
  rewrite !for_range_S, IH by (intros; apply H; lia). apply H. lia.
Qed.

(** A loop that only reads [arr[off + k]] is a fold over the elements. *)
Lemma for_range_fold_elems {S : Type} (l arr : Float32Array) (off : nat)
    (h : number -> S -> S) (s : S) :
  (forall k x, l !! k = Some x -> arr !! (off + k) = Some x) ->
  for_range (length l) (fun k s => h (f32_get arr (off + k)) s) s =
  fold_left (fun s x => h x s) l s.
Proof.
  revert s. induction l as [|y l IH] using rev_ind; intros s H; [done|].
  rewrite length_app, Nat.add_1_r, for_range_S, fold_left_app. simpl.
  rewrite IH.
  - f_equal. apply f32_get_Some, H. apply list_lookup_middle. done.
  - intros k x Hk. apply H. by apply lookup_app_l_Some.
Qed.

Lemma findMax_cons (x : number) (l : Float32Array) :
  findMax (x :: l) =
  fold_left (fun max y => if gt y max then y else max) l (or_else (Some x) pzero).
Proof.
  unfold findMax. cbn [length]. rewrite Nat.sub_succ, Nat.sub_0_r.
  change ((x :: l) !! 0) with (Some x).
  apply (for_range_fold_elems l (x :: l) 1 (fun v max => if gt v max then v else max)).
  intros k y Hk. exact Hk.
Qed.

Lemma findMax_nil : findMax [] = pzero.
Proof. reflexivity. Qed.

(** The running maximum of non-negative numbers is never NaN nor negative,
    and it is a zero only if every number seen is a zero. *)
Lemma running_max_zero (l : Float32Array) (init : number) :
  le pzero init = true ->
  Forall (fun x => le pzero x = true) l ->
  is_zero (fold_left (fun max y => if gt y max then y else max) l init) = true ->
  is_zero init = true /\ Forall (fun x => is_zero x = true) l.
Proof.
  revert init. induction l as [|y l IH]; intros init Hinit Hl Hz; simpl in *.
  - auto.
  - inversion_clear Hl as [|? ? Hy Hl'].
    destruct (gt y init) eqn:Hgt.
    + destruct (IH y Hy Hl' Hz) as [Hy0 _]. exfalso.
      destruct y as [sy|sy| |sy my ey]; try discriminate.
      destruct init as [si|si| |si mi ei]; try discriminate;
        destruct si; discriminate.
    + destruct (IH init Hinit Hl' Hz) as [Hi0 Hl0]. split; [done|].
      constructor; [|done].
      destruct init as [si|si| |si mi ei]; try discriminate.
      destruct y as [sy|sy| |sy my ey]; try done; destruct sy; discriminate.
Qed.

Lemma findMax_zero (a : Float32Array) :
  Forall is_magnitude a -> is_zero (findMax a) = true ->
  findMax a = pzero /\ Forall (fun x => is_zero x = true) a.
Proof.
  intros Ha Hz. destruct a as [|x l]; [done|].
  rewrite findMax_cons in *.
  inversion_clear Ha as [|? ? Hx Hl].
  assert (Hl' : Forall (fun x => le pzero x = true) l).
  { eapply Forall_impl; [exact Hl|]. intros ? H. apply H. }
  assert (Hinit : le pzero (or_else (Some x) pzero) = true).
  { destruct Hx as (_ & Hx & _). simpl. by destruct (truthy x). }
  destruct (running_max_zero _ _ Hinit Hl' Hz) as [Hi Hall].
  assert (Hx0 : is_zero x = true).
  { destruct Hx as (Hf & _). destruct x; try done. }
  split; [|by constructor].
  assert (Hinit0 : or_else (Some x) pzero = pzero) by (by destruct x).
  rewrite Hinit0. clear -Hall.
  induction l as [|y l IH]; [done|]. inversion_clear Hall as [|? ? Hy Hl].
  simpl. destruct y as [sy| | |]; try done. simpl. by apply IH.
Qed.

Lemma squared_zero (x : number) :
  is_zero x = true -> mul (mul (div x one) (div x one)) pzero = pzero.
Proof. destruct x as [[]| | |]; try discriminate; reflexivity. Qed.

Lemma fill_const (magA : Float32Array) (f : nat -> number) (c : number) :
  (forall i, i < length magA -> fround (f i) = c) ->
  fill magA f = replicate (length magA) c.
Proof.
  intros H. apply list_eq. intros i. rewrite fill_lookup.
  case_decide.
  - rewrite H by done. symmetry. by apply lookup_replicate_2.
  - symmetry. apply lookup_replicate_None. lia.
Qed.

(** C9.  When the maximum of a magnitude array is 0, [aSquared] (and
    [bSquared], for [magB]) divides by the guard [1] and not by the maximum,
    and returns an array of [+0] only: no NaN and no infinity. *)
Theorem squared_zero_max (magA magB : Float32Array) :
  length magA = length magB ->
  Forall is_magnitude magA -> Forall is_magnitude magB ->
  (is_zero (findMax magA) = true ->
     or_else (Some (findMax magA)) one = one /\
     aSquared magA magB = replicate (length magA) pzero) /\
  (is_zero (findMax magB) = true ->
     or_else (Some (findMax magB)) one = one /\
     bSquared magA magB = replicate (length magA) pzero).
Proof.
  intros Hlen Ha Hb. split; intros Hz.
  - destruct (findMax_zero magA Ha Hz) as [Hmax Hall].
    unfold aSquared. rewrite Hmax. split; [done|].
    apply fill_const. intros i Hi. cbn zeta.
    destruct (lookup_lt_is_Some_2 magA i Hi) as [x Hx].
    rewrite (f32_get_Some _ _ _ Hx).
    change (or_else (Some pzero) one) with one.
    rewrite squared_zero; [done|].
    by apply (proj1 (Forall_lookup _ _) Hall i x).
  - destruct (findMax_zero magB Hb Hz) as [Hmax Hall].
    unfold bSquared. rewrite Hmax. split; [done|].
    apply fill_const. intros i Hi. cbn zeta.
    destruct (lookup_lt_is_Some_2 magB i ltac:(lia)) as [x Hx].
    rewrite (f32_get_Some _ _ _ Hx).
    change (or_else (Some pzero) one) with one.
    rewrite squared_zero; [done|].
    by apply (proj1 (Forall_lookup _ _) Hall i x).
Qed.

(** ** The loops of [fft] run to completion

    [reverse_carry], [for_step] and [stages] take fuel; [fft] gives them
    [n + 1], [n] and [n] units.  That is enough: each loop has left through
    its exit test by then, and more fuel changes nothing. *)

Lemma div2_lt (k : nat) : 0 < k -> Nat.div2 k < k.
Proof. intros H. apply Nat.lt_div2. exact H. Qed.

Lemma reverse_carry_exit (fuel j k : nat) :
  k < fuel ->
  let '(j', k') := reverse_carry fuel j k in (0 <? k') && (k' <=? j') = false.
Proof.
  revert j k. induction fuel as [|fuel IH]; intros j k Hk; [lia|].
  simpl. destruct ((0 <? k) && (k <=? j)) eqn:Hc; [|exact Hc].
  apply IH. apply andb_true_iff in Hc as [Hpos _]. apply Nat.ltb_lt in Hpos.
  pose proof (div2_lt k Hpos). lia.
Qed.

Lemma reverse_carry_fuel (fuel fuel' j k : nat) :
  k < fuel -> k < fuel' -> reverse_carry fuel j k = reverse_carry fuel' j k.
Proof.
  revert fuel' j k. induction fuel as [|fuel IH]; intros fuel' j k Hk Hk'; [lia|].
  destruct fuel' as [|fuel']; [lia|]. simpl.
  destruct ((0 <? k) && (k <=? j)) eqn:Hc; [|reflexivity].
  apply andb_true_iff in Hc as [Hpos _]. apply Nat.ltb_lt in Hpos.
  pose proof (div2_lt k Hpos). apply IH; lia.
Qed.

Lemma for_step_fuel {S : Type} (fuel fuel' i stop step : nat) (body : nat -> S -> S) (s : S) :
  1 <= step -> stop - i <= fuel -> stop - i <= fuel' ->
  for_step fuel i stop step body s = for_step fuel' i stop step body s.
Proof.
  intros Hstep. revert fuel' i s.
  induction fuel as [|fuel IH]; intros fuel' i s Hf Hf'.
  - destruct fuel' as [|fuel']; [reflexivity|]. simpl.
    destruct (i <? stop) eqn:Hc; [|reflexivity]. apply Nat.ltb_lt in Hc. lia.
  - simpl. destruct (i <? stop) eqn:Hc.
    + apply Nat.ltb_lt in Hc. destruct fuel' as [|fuel']; [lia|]. simpl.
      apply Nat.ltb_lt in Hc. rewrite Hc. apply IH; lia.
    + destruct fuel' as [|fuel']; [reflexivity|]. simpl. by rewrite Hc.
Qed.

Section Fuel.
Variable Math : MathImpl.

Lemma stages_fuel (fuel fuel' n len : nat) (ri : Float32Array * Float32Array) :
  1 <= len -> S n - len <= fuel -> S n - len <= fuel' ->
  stages Math fuel n len ri = stages Math fuel' n len ri.
Proof.
  revert fuel' len ri.
  induction fuel as [|fuel IH]; intros fuel' len ri Hlen Hf Hf'.
  - destruct fuel' as [|fuel']; [reflexivity|]. simpl.
    destruct (len <=? n) eqn:Hc; [|reflexivity]. apply Nat.leb_le in Hc. lia.
  - simpl. destruct (len <=? n) eqn:Hc.
    + apply Nat.leb_le in Hc. destruct fuel' as [|fuel']; [lia|]. simpl.
      apply Nat.leb_le in Hc. rewrite Hc. apply IH; lia.
    + destruct fuel' as [|fuel']; [reflexivity|]. simpl. by rewrite Hc.
Qed.

(** [fft] with any larger fuel for its outer loop is [fft]. *)
Lemma fft_fuel (fuel : nat) (real imag : Float32Array) :
  let n := length real in
  n <= fuel -> 2 <= n ->
  fft Math real imag = stages Math fuel n 2 (bitReverse n real imag).
Proof.
  intros n Hf Hn. unfold fft. fold n.
  destruct (n <=? 1) eqn:Hc; [apply Nat.leb_le in Hc; lia|].
  apply stages_fuel; lia.
Qed.

End Fuel.

(** ** Phase combination and frame alignment *)

(** C10.  For a phase mode that is none of ['a'], ['b'] and ['average'],
    [combinePhases] returns [phaseA] itself, as mode ['a'] does. *)
Theorem combinePhases_default (phaseA phaseB magA magB : Float32Array) (mode : string) :
  mode <> "a"%string -> mode <> "b"%string -> mode <> "average"%string ->
  combinePhases phaseA phaseB magA magB mode = phaseA /\
  combinePhases phaseA phaseB magA magB mode = combinePhases phaseA phaseB magA magB "a".
Proof.
  intros Ha Hb Hc. unfold combinePhases.
  apply String.eqb_neq in Ha, Hb, Hc. rewrite Ha, Hb, Hc. done.
Qed.

Lemma targetFrames_ceil (lenA lenB : nat) :
  let T := targetFrames true lenA lenB in
  lenA + lenB <= 2 * T /\ 2 * T <= lenA + lenB + 1.
Proof.
  unfold targetFrames. cbv zeta.
  pose proof (Nat.div_mod_eq (lenA + lenB + 1) 2) as H.
  pose proof (Nat.mod_upper_bound (lenA + lenB + 1) 2 ltac:(lia)). lia.
Qed.

Lemma frameIndex_true_bounds (i len T : nat) :
  1 <= len -> (0 <= frameIndex true i len T <= Z.of_nat len - 1)%Z.
Proof. unfold frameIndex. lia. Qed.

Lemma frameIndex_true_mono (i j len T : nat) :
  i <= j -> (frameIndex true i len T <= frameIndex true j len T)%Z.
Proof.
  intros Hij. unfold frameIndex.
  assert (i * len / T <= j * len / T).
  { destruct T as [|T]; [done|]. apply Nat.Div0.div_le_mono. nia. }
  lia.
Qed.

(** C4.  Frame alignment, for frame counts [lenA, lenB >= 1].  Without
    [timeMatch] the target is [min lenA lenB] and both indices are [i].  With
    [timeMatch] the target [T] is [ceil((lenA + lenB) / 2)], the indices are
    [min(floor(i * len / T), len - 1)], they lie within their sequences
    and they never decrease with [i].  For 100 and 80 frames the targets
    are 90 and 80. *)
Theorem frame_alignment (lenA lenB : nat) :
  1 <= lenA -> 1 <= lenB ->
  (* timeAlign false *)
  (let T := targetFrames false lenA lenB in
   T = Nat.min lenA lenB /\
   forall i, i < T ->
     frameIndex false i lenA T = Z.of_nat i /\ frameIndex false i lenB T = Z.of_nat i /\
     i < lenA /\ i < lenB) /\
  (* timeAlign true *)
  (let T := targetFrames true lenA lenB in
   (lenA + lenB <= 2 * T /\ 2 * T <= lenA + lenB + 1) /\
   forall i, i < T ->
     frameIndex true i lenA T = Z.min (Z.of_nat (i * lenA / T)) (Z.of_nat lenA - 1) /\
     frameIndex true i lenB T = Z.min (Z.of_nat (i * lenB / T)) (Z.of_nat lenB - 1) /\
     (0 <= frameIndex true i lenA T < Z.of_nat lenA)%Z /\
     (0 <= frameIndex true i lenB T < Z.of_nat lenB)%Z /\
     forall j, i <= j -> j < T ->
       (frameIndex true i lenA T <= frameIndex true j lenA T)%Z /\
       (frameIndex true i lenB T <= frameIndex true j lenB T)%Z) /\
  targetFrames true 100 80 = 90 /\ targetFrames false 100 80 = 80.
Proof.
  intros HA HB. split; [|split; [|split; reflexivity]].
  - cbv zeta. split; [reflexivity|]. intros i Hi. unfold targetFrames in Hi.
    unfold frameIndex. repeat split; lia.
  - cbv zeta. split; [apply targetFrames_ceil|]. intros i Hi.
    pose proof (frameIndex_true_bounds i lenA (targetFrames true lenA lenB) HA).
    pose proof (frameIndex_true_bounds i lenB (targetFrames true lenA lenB) HB).
    repeat split; try reflexivity; try lia; by apply frameIndex_true_mono.
Qed.

(** ** The dispatch of [apply] *)

Import FFTOperations Dispatch Apply.

Example resetLog_aborts_eval :
  apply "resetLog" [one; two; one; two] [two; one; two; one] initial_state =
  (Throw TypeError,
   {| _logged := Some true;
      console := [console_log_sample_at (KString "resetLog") 1] |}).
Proof. reflexivity. Qed.

(** C6, at the failing input.  ["resetLog"] is not one of the ten operators,
    yet [apply] does not fall back to [average]: it calls the function
    stored under that name, gets [undefined], and the logging block throws a
    TypeError, whatever the arrays and the state. *)
Theorem apply_resetLog_aborts (magA magB : Float32Array) (st : engine_state) :
  ~ is_operator "resetLog" /\
  fst (apply "resetLog" magA magB st) = Throw TypeError.
Proof.
  split.
  - unfold is_operator. simpl. intros H. repeat destruct H as [H|H]; try discriminate; done.
  - unfold apply, lookup, log_first_call, sample, set_logged, get_logged, log, throw,
      mbind, M_bind, bind, ret. cbn -[Nat.div].
    destruct (magA !! (length magA / 4)) as [a|]; cbn -[Nat.div]; [|done].
    destruct (magB !! (length magA / 4)) as [b|]; cbn -[Nat.div]; done.
Qed.

(** What holds of the fallback: for a selector that names no property of
    [FFTOperations], own or inherited, [apply] returns [average magA magB],
    writes one [console.error] line and leaves [_logged] as it was. *)
Theorem apply_unknown_falls_back (operation : string) (magA magB : Float32Array)
    (st : engine_state) :
  not_a_property operation st ->
  apply operation magA magB st =
  (Ok (Some (average magA magB)),
   {| _logged := _logged st;
      console := console st ++ [console_error_unknown (KString operation)] |}).
Proof.
  unfold not_a_property, apply, lookup, log, mbind, M_bind, bind. simpl.
  intros ->. reflexivity.
Qed.

(** ** The hop size *)


Example hopSize_5_80 : hopSize 5 80 = 0%Z /\ (5 * (100 - 80) / 100 = 1)%Z.
Proof. split; reflexivity. Qed.

(** ** The frame loop of [performSTFT] *)

Section STFT.
Variable Math : MathImpl.

Lemma framesFrom_S cd w N H i k :
  framesFrom Math cd w N H i (S k) =
  performFFT Math (analysisFrame cd w N i) :: framesFrom Math cd w N H (i + H) k.
Proof.
  unfold framesFrom. rewrite <- cons_seq. simpl. rewrite Z.add_0_r. f_equal.
  rewrite <- seq_shift, map_map. apply map_ext. intros r. do 2 f_equal. lia.
Qed.

Lemma roundsFrom_step (L N H i : Z) :
  (1 <= H)%Z -> (i + N <= L)%Z ->
  roundsFrom L N H i = S (roundsFrom L N H (i + H)).
Proof.
  intros HH Hi. unfold roundsFrom.
  rewrite (proj2 (Z.leb_le _ _) Hi).
  replace (L - N - i)%Z with ((L - N - (i + H)) + 1 * H)%Z by lia.
  rewrite Z.div_add by lia.
  destruct (i + H + N <=? L)%Z eqn:E.
  - apply Z.leb_le in E.
    assert (0 <= (L - N - (i + H)) / H)%Z by (apply Z.div_pos; lia). lia.
  - apply Z.leb_gt in E.
    assert ((L - N - (i + H)) / H = -1)%Z.
    { symmetry. apply (Z.div_unique _ _ _ (L - N - i)%Z); lia. }
    lia.
Qed.

Lemma stft_loop_spec (cd w : Float32Array) (N H : Z) :
  (1 <= H)%Z ->
  forall (k : nat) (i : Z) (frames : list fft_frame) (fuel : nat),
    roundsFrom (Z.of_nat (length cd)) N H i = k -> k <= fuel ->
    stft_loop Math fuel cd w N H i frames = Ok (frames ++ framesFrom Math cd w N H i k).
Proof.
  intros HH. induction k as [|k IH]; intros i frames fuel Hk Hfuel.
  - assert (E : (i + N <=? Z.of_nat (length cd))%Z = false).
    { unfold roundsFrom in Hk. destruct (i + N <=? Z.of_nat (length cd))%Z eqn:E; [|done].
      apply Z.leb_le in E.
      assert (0 <= (Z.of_nat (length cd) - N - i) / H)%Z by (apply Z.div_pos; lia). lia. }
    destruct fuel; simpl; rewrite E; by rewrite app_nil_r.
  - assert (E : (i + N <= Z.of_nat (length cd))%Z).
    { unfold roundsFrom in Hk. destruct (i + N <=? Z.of_nat (length cd))%Z eqn:E; [|done].
      by apply Z.leb_le. }
    destruct fuel as [|fuel]; [lia|]. simpl.
    rewrite (proj2 (Z.leb_le _ _) E).
    rewrite roundsFrom_step in Hk by done.
    rewrite (IH (i + H)%Z _ fuel) by lia.
    rewrite framesFrom_S. by rewrite <- app_assoc.
Qed.

(** With a hop of 0 or less and one frame that fits, the loop never ends. *)
Lemma stft_loop_diverges (cd w : Float32Array) (N H : Z) :
  (H <= 0)%Z ->
  forall (fuel : nat) (i : Z) (frames : list fft_frame),
    (i + N <= Z.of_nat (length cd))%Z ->
    stft_loop Math fuel cd w N H i frames = OutOfFuel.
Proof.
  intros HH. induction fuel as [|fuel IH]; intros i frames Hi; simpl;
    rewrite (proj2 (Z.leb_le _ _) Hi); [done|].
  apply IH. lia.
Qed.


End STFT.

(** ** The errors [process] can throw *)

Lemma no_Error_ret {A} (a : A) : no_Error (ret a).
Proof. intros st [msg H]. discriminate. Qed.

Lemma no_Error_mret {A} (a : A) : no_Error (mret a : M A).
Proof. apply no_Error_ret. Qed.

Lemma no_Error_bind {A B} (m : M A) (k : A -> M B) :
  no_Error m -> (forall a, no_Error (k a)) -> no_Error (m ≫= k).
Proof.
  intros Hm Hk st. unfold mbind, M_bind, bind.
  specialize (Hm st). destruct (m st) as [[a|e| |] st']; simpl in *.
  - apply Hk.
  - intros [msg [= ->]]. apply Hm. by exists msg.
  - intros [msg H]. discriminate.
  - intros [msg H]. discriminate.
Qed.

Lemma no_Error_TypeError {A} : no_Error (throw TypeError : M A).
Proof. intros st [msg H]. discriminate. Qed.

Lemma no_Error_RangeError {A} : no_Error (throw RangeError : M A).
Proof. intros st [msg H]. discriminate. Qed.

Lemma no_Error_unmodelled {A} : no_Error (unmodelled : M A).
Proof. intros st [msg H]. discriminate. Qed.

Lemma no_Error_log (e : log_entry) : no_Error (log e).
Proof. intros st [msg H]. discriminate. Qed.

Lemma no_Error_set_logged (b : bool) : no_Error (set_logged b).
Proof. intros st [msg H]. discriminate. Qed.

Lemma no_Error_get_logged : no_Error get_logged.
Proof. intros st [msg H]. discriminate. Qed.

Lemma no_Error_lookup (k : prop_key) : no_Error (Dispatch.lookup k).
Proof. intros st [msg H]. discriminate. Qed.

Lemma no_Error_lift {A} (o : outcome A) : ~ is_Error o -> no_Error (lift o).
Proof. intros H st. exact H. Qed.

Lemma no_Error_forM {S} (l : list nat) (body : nat -> S -> M S) (s : S) :
  (forall i s, no_Error (body i s)) -> no_Error (forM l body s).
Proof.
  intros Hb. revert s. induction l as [|i l IH]; intros s; simpl.
  - apply no_Error_ret.
  - apply no_Error_bind; [apply Hb | intros; apply IH].
Qed.

Create HintDb no_error.
#[local] Hint Resolve @no_Error_ret @no_Error_mret @no_Error_TypeError @no_Error_RangeError
  @no_Error_unmodelled no_Error_log no_Error_set_logged no_Error_get_logged
  no_Error_lookup : no_error.

Ltac no_error_step :=
  lazymatch goal with
  | |- no_Error (mbind _ _) => apply no_Error_bind; [|intros ?]
  | |- no_Error (forM _ _ _) => apply no_Error_forM; intros ? ?
  | |- no_Error (lift _) => apply no_Error_lift
  | |- no_Error (match ?x with _ => _ end) => destruct x
  | |- no_Error (if ?x then _ else _) => destruct x
  end.

Ltac no_error := repeat first [ solve [auto with no_error] | no_error_step ].

Lemma no_Error_sample (x : option Float32Array) (i : nat) : no_Error (Apply.sample x i).
Proof. unfold Apply.sample. no_error. Qed.

Lemma no_Error_log_first_call k magA magB result :
  no_Error (Apply.log_first_call k magA magB result).
Proof. unfold Apply.log_first_call. pose proof no_Error_sample. no_error. Qed.

Lemma no_Error_apply (operation : string) (magA magB : Float32Array) :
  no_Error (Apply.apply operation magA magB).
Proof.
  unfold Apply.apply, Apply.apply_nested, Apply.average_undefined.
  pose proof no_Error_log_first_call. no_error.
Qed.

Section NoError.
Variable Math : MathImpl.

Lemma stft_loop_no_Error fuel cd w N H i frames :
  ~ is_Error (stft_loop Math fuel cd w N H i frames).
Proof.
  revert i frames. induction fuel as [|fuel IH]; intros i frames; simpl;
    destruct (i + N <=? Z.of_nat (length cd))%Z; try apply IH; intros [msg H']; discriminate.
Qed.

Lemma performSTFT_no_Error fuel buffer N O :
  ~ is_Error (performSTFT Math fuel buffer N O).
Proof.
  unfold performSTFT. destruct (N <? 0)%Z.
  - intros [msg H]. discriminate.
  - apply stft_loop_no_Error.
Qed.

Lemma no_Error_resynthesize outputFrames bufferA N O :
  no_Error (resynthesize Math outputFrames bufferA N O).
Proof. unfold resynthesize, resynthesize_unscaled. no_error. Qed.

Lemma no_Error_logMidFrame operation outputFrames :
  no_Error (logMidFrame operation outputFrames).
Proof. unfold logMidFrame. no_error. Qed.

(** C2, as amended.  A missing input signal makes [process] fail at once,
    with the error "Both audio files must be loaded" and before any state
    changes; and this is the only [Error] it ever throws: with both signals
    present, no window size and no overlap percentage is rejected. *)
Theorem process_precondition (fuel : nat) (this : processor)
    (operation phaseMode : string) (windowSize overlapPercent : Z) (timeMatch : bool)
    (st : engine_state) :
  let run := process Math fuel this operation phaseMode windowSize overlapPercent timeMatch st in
  (audioBufferA this = None \/ audioBufferB this = None ->
     run = (Throw (Error "Both audio files must be loaded"), st)) /\
  (is_Error (fst run) -> audioBufferA this = None \/ audioBufferB this = None).
Proof.
  cbv zeta. unfold process. split.
  - intros [H|H]; rewrite H; [done|]. by destruct (audioBufferA this).
  - destruct (audioBufferA this) as [bufferA|]; [|auto].
    destruct (audioBufferB this) as [bufferB|]; [|auto].
    intros H. exfalso. revert H.
    pose proof performSTFT_no_Error. pose proof no_Error_resynthesize.
    pose proof no_Error_logMidFrame. pose proof no_Error_apply.
    pose proof (@no_Error_lift). pose proof (@no_Error_forM).
    assert (Hgoal : no_Error (process Math fuel {| audioBufferA := Some bufferA; audioBufferB := Some bufferB |}
                       operation phaseMode windowSize overlapPercent timeMatch)).
    { unfold process, Apply.resetLog. simpl. no_error. }
    apply Hgoal.
Qed.

End NoError.

(** ** Rounding, in real numbers

    The operations of [SpecFloat] round through [binary_round_aux]: a right
    shift that keeps a round and a sticky bit, then a rounding to nearest
    even.  This module relates the result to the real number it stands for,
    far enough for the bounds below. *)

Module Rounding.

Local Open Scope R_scope.

Lemma bpow_pos (e : Z) : 0 < bpow e.
Proof. apply powerRZ_lt. lra. Qed.

Lemma bpow_add (a b : Z) : bpow (a + b) = bpow a * bpow b.
Proof. apply powerRZ_add. lra. Qed.

Lemma bpow_0 : bpow 0 = 1.
Proof. reflexivity. Qed.

Lemma bpow_1 : bpow 1 = 2.
Proof. unfold bpow. simpl. lra. Qed.

Lemma bpow_IZR (z : Z) : (0 <= z)%Z -> bpow z = IZR (2 ^ z).
Proof.
  intros Hz. destruct z as [|p|p]; [reflexivity| |lia].
  unfold bpow. change (2 ^ Z.pos p)%Z with (Z.pow_pos 2 p).
  by rewrite Zpower_pos_powerRZ.
Qed.

Lemma bpow_ge_1 (z : Z) : (0 <= z)%Z -> 1 <= bpow z.
Proof.
  intros Hz. rewrite bpow_IZR by done. apply IZR_le.
  pose proof (Z.pow_pos_nonneg 2 z). lia.
Qed.

Lemma bpow_le (a b : Z) : (a <= b)%Z -> bpow a <= bpow b.
Proof.
  intros H. replace b with (a + (b - a))%Z by lia. rewrite bpow_add.
  pose proof (bpow_pos a). pose proof (bpow_ge_1 (b - a) ltac:(lia)). nra.
Qed.

Lemma bpow_lt (a b : Z) : (a < b)%Z -> bpow a < bpow b.
Proof.
  intros H. replace b with (a + 1 + (b - a - 1))%Z by lia. rewrite !bpow_add, bpow_1.
  pose proof (bpow_pos a). pose proof (bpow_ge_1 (b - a - 1) ltac:(lia)). nra.
Qed.

Lemma bpow_lt_inv (a b : Z) : bpow a < bpow b -> (a < b)%Z.
Proof.
  intros H. destruct (Z_lt_le_dec a b) as [|Hle]; [done|].
  apply bpow_le in Hle. lra.
Qed.

Lemma bpow_opp (a : Z) : bpow (- a) = / bpow a.
Proof. apply powerRZ_neg'. Qed.

Lemma bpow_half (a : Z) : bpow (a - 1) = / 2 * bpow a.
Proof.
  replace a with (a - 1 + 1)%Z at 2 by lia.
  rewrite bpow_add, bpow_1. lra.
Qed.

(** *** Digits *)

Lemma digits2_pos_size (p : positive) : digits2_pos p = Pos.size p.
Proof. induction p; simpl; congruence. Qed.

Lemma digits_bounds (p : positive) :
  (2 ^ (Z.pos (digits2_pos p) - 1) <= Z.pos p < 2 ^ Z.pos (digits2_pos p))%Z.
Proof.
  rewrite digits2_pos_size. split.
  - pose proof (Pos.size_le p) as H.
    assert (H' : (2 ^ Z.pos (Pos.size p) <= 2 * Z.pos p)%Z).
    { rewrite <- (Pos2Z.inj_pow 2 (Pos.size p)). lia. }
    replace (Z.pos (Pos.size p)) with (Z.pos (Pos.size p) - 1 + 1)%Z in H' by lia.
    rewrite Z.pow_add_r in H' by lia. lia.
  - pose proof (Pos.size_gt p) as H.
    rewrite <- (Pos2Z.inj_pow 2 (Pos.size p)). lia.
Qed.

Lemma Zdigits2_nonneg (m : Z) : (0 <= Zdigits2 m)%Z.
Proof. destruct m; simpl; lia. Qed.

Lemma Zdigits2_le (m k : Z) :
  (0 <= k)%Z -> (0 <= m < 2 ^ k)%Z -> (Zdigits2 m <= k)%Z.
Proof.
  intros Hk [H0 H]. destruct m as [|p|p]; simpl; [lia| |lia].
  pose proof (digits_bounds p) as [Hp _].
  destruct (Z_lt_le_dec k (Z.pos (digits2_pos p))) as [Hlt|]; [|done].
  exfalso. assert (2 ^ k <= 2 ^ (Z.pos (digits2_pos p) - 1))%Z
    by (apply Z.pow_le_mono_r; lia). lia.
Qed.

Lemma Zdigits2_lt_pow (m : Z) : (0 <= m)%Z -> (m < 2 ^ Zdigits2 m)%Z.
Proof.
  intros H. destruct m as [|p|p]; simpl; [lia| |lia]. apply digits_bounds.
Qed.

Lemma bpow_digits_le (p : positive) (e : Z) :
  bpow (Z.pos (digits2_pos p) - 1 + e) <= IZR (Z.pos p) * bpow e.
Proof.
  rewrite bpow_add. pose proof (bpow_pos e).
  rewrite bpow_IZR by lia. pose proof (digits_bounds p) as [Hp _].
  apply IZR_le in Hp. nra.
Qed.

(** *** The exponent function *)

Lemma fexp_ge_emin (prec emax e : Z) : (emin prec emax <= fexp prec emax e)%Z.
Proof. unfold fexp. lia. Qed.

Lemma fexp_mono (prec emax a b : Z) :
  (a <= b)%Z -> (fexp prec emax a <= fexp prec emax b)%Z.
Proof. unfold fexp. lia. Qed.

Lemma fexp_succ (prec emax a : Z) :
  (fexp prec emax (a + 1) <= fexp prec emax a + 1)%Z.
Proof. unfold fexp. lia. Qed.

Lemma shr_1_rep (mrs : shr_record) (v u : R) :
  rep mrs v u -> rep (shr_1 mrs) (v / 2) (u / 2).
Proof.
  destruct mrs as [m r s]. unfold rep. simpl. intros (Hm & Hv & Hu).
  destruct m as [|[p|p|]|p]; simpl; try lia.
  - repeat split; [lia | destruct r; lra | lra].
  - rewrite (IZR_POS_xI p) in Hv, Hu.
    repeat split; [lia | destruct r; lra | lra].
  - rewrite (IZR_POS_xO p) in Hv, Hu.
    repeat split; [lia | destruct r; lra | lra].
  - repeat split; [lia | destruct r; lra | lra].
Qed.

Lemma bpow_neg_xI (p : positive) :
  bpow (Z.neg p~1) = / 2 * bpow (Z.neg p) * bpow (Z.neg p).
Proof.
  replace (Z.neg p~1) with (Z.neg p + Z.neg p - 1)%Z by lia.
  rewrite bpow_half, bpow_add. lra.
Qed.

Lemma bpow_neg_xO (p : positive) :
  bpow (Z.neg p~0) = bpow (Z.neg p) * bpow (Z.neg p).
Proof.
  replace (Z.neg p~0) with (Z.neg p + Z.neg p)%Z by lia. apply bpow_add.
Qed.

Lemma bpow_neg_xH : bpow (Z.neg 1) = / 2.
Proof. unfold bpow. simpl. lra. Qed.

Lemma iter_shr_1_rep (p : positive) (mrs : shr_record) (v u : R) :
  rep mrs v u ->
  rep (SpecFloat.iter_pos shr_1 p mrs) (v * bpow (Z.neg p)) (u * bpow (Z.neg p)).
Proof.
  revert mrs v u. induction p as [p IH|p IH|]; intros mrs v u H; simpl.
  - apply shr_1_rep, IH, IH in H. rewrite bpow_neg_xI.
    replace (v * (/ 2 * bpow (Z.neg p) * bpow (Z.neg p)))
      with (v / 2 * bpow (Z.neg p) * bpow (Z.neg p)) by lra.
    replace (u * (/ 2 * bpow (Z.neg p) * bpow (Z.neg p)))
      with (u / 2 * bpow (Z.neg p) * bpow (Z.neg p)) by lra.
    done.
  - apply IH, IH in H. rewrite bpow_neg_xO.
    replace (v * (bpow (Z.neg p) * bpow (Z.neg p)))
      with (v * bpow (Z.neg p) * bpow (Z.neg p)) by lra.
    replace (u * (bpow (Z.neg p) * bpow (Z.neg p)))
      with (u * bpow (Z.neg p) * bpow (Z.neg p)) by lra.
    done.
  - apply shr_1_rep in H. rewrite bpow_neg_xH. exact H.
Qed.

(** [shr mrs e n] for [0 <= n]. *)
Lemma shr_rep (mrs : shr_record) (e n : Z) (v u : R) :
  (0 <= n)%Z -> rep mrs v u ->
  snd (shr mrs e n) = (e + n)%Z /\
  rep (fst (shr mrs e n)) (v * bpow (- n)) (u * bpow (- n)).
Proof.
  intros Hn H. destruct n as [|p|p]; [| |lia].
  - split; [simpl; lia|]. change (- 0)%Z with 0%Z. simpl. rewrite bpow_0, !Rmult_1_r. done.
  - split; [done|]. change (- Z.pos p)%Z with (Z.neg p). simpl.
    by apply iter_shr_1_rep.
Qed.

(** [shr mrs e n] for [n <= 0]. *)
Lemma shr_none (mrs : shr_record) (e n : Z) :
  (n <= 0)%Z -> shr mrs e n = (mrs, e).
Proof. intros Hn. destruct n as [|p|p]; simpl; [done|lia|done]. Qed.

Lemma rep_of_loc (m : Z) (l : location) (v : R) :
  (0 <= m)%Z ->
  IZR m + match l with loc_Inexact Eq | loc_Inexact Gt => / 2 | _ => 0 end <= v ->
  rep (shr_record_of_loc m l) v (IZR m).
Proof.
  intros Hm Hv. destruct l as [|[]]; unfold rep; simpl; repeat split; (lia || lra).
Qed.

(** Rounding to nearest goes up by at most one, and by a half at most in
    terms of [v]. *)
Lemma round_nearest_even_rep (mrs : shr_record) (v u : R) :
  rep mrs v u ->
  let m1 := round_nearest_even (shr_m mrs) (loc_of_shr_record mrs) in
  (0 <= m1)%Z /\ (shr_m mrs <= m1 <= shr_m mrs + 1)%Z /\
  IZR m1 <= v + / 2 /\ IZR m1 <= u + 1.
Proof.
  destruct mrs as [m r s]. unfold rep. simpl. intros (Hm & Hv & Hu).
  destruct r, s; simpl; try destruct (Z.even m); rewrite ?plus_IZR;
    repeat split; try lia; try lra.
Qed.

(** *** The rounding step of every operation *)

Lemma B2R_of_mantissa (s : bool) (m e : Z) :
  (0 <= m)%Z -> Rabs (B2R (of_mantissa s m e)) = IZR m * bpow e.
Proof.
  intros Hm. destruct m as [|p|p]; simpl; [rewrite Rabs_R0; lra| |lia].
  fold (bpow e). pose proof (bpow_pos e).
  rewrite Rabs_mult, (Rabs_pos_eq (bpow e)) by lra.
  destruct s; simpl; [rewrite <- Rabs_Ropp, <- opp_IZR|]; simpl;
    rewrite Rabs_pos_eq; try done; apply IZR_le; lia.
Qed.

Section RoundAux.

Variables prec emax : Z.
Hypothesis prec_pos : (0 < prec)%Z.

Lemma round_result_finite (s : bool) (m e : Z) :
  (0 <= m)%Z -> (e <= emax - prec)%Z -> round_result prec emax s m e = of_mantissa s m e.
Proof.
  intros Hm He. destruct m as [|p|p]; simpl; [done| |lia].
  destruct (Z.leb_spec e (emax - prec)); [done|lia].
Qed.

Lemma lt_bpow_Z (a k : Z) : (0 <= k)%Z -> IZR a < bpow k -> (a < 2 ^ k)%Z.
Proof. intros Hk H. rewrite bpow_IZR in H by done. by apply lt_IZR. Qed.

(** When the mantissa has to be shifted right (or stays), the result is the
    value rounded at exponent [E]: it exceeds [v * 2^ex] by half a unit of
    [2^E] at most. *)
Lemma binary_round_aux_shift (s : bool) (mx ex : Z) (lx : location) (v : R) :
  (0 <= mx)%Z ->
  IZR mx + match lx with loc_Inexact Eq | loc_Inexact Gt => / 2 | _ => 0 end <= v ->
  let E := fexp prec emax (Zdigits2 mx + ex) in
  (ex <= E)%Z ->
  exists m'' e'' : Z,
    (0 <= m'' <= 2 ^ prec)%Z /\ (E <= e'' <= E + 1)%Z /\
    binary_round_aux prec emax s mx ex lx = round_result prec emax s m'' e'' /\
    IZR m'' * bpow e'' <= v * bpow ex + / 2 * bpow E.
Proof using prec_pos.
  intros Hmx Hv E HE.
  set (d := Zdigits2 mx). set (n := (E - ex)%Z).
  pose proof (Zdigits2_nonneg mx) as Hd0. fold d in Hd0.
  assert (HEd : (d + ex - prec <= E)%Z) by (unfold E, fexp; fold d; lia).
  assert (HEmin : (emin prec emax <= E)%Z) by apply fexp_ge_emin.
  pose proof (rep_of_loc mx lx v Hmx Hv) as Hrep0.
  destruct (shr_rep (shr_record_of_loc mx lx) ex n v (IZR mx) ltac:(lia) Hrep0)
    as [He' Hrep'].
  unfold binary_round_aux, shr_fexp.
  change (fexp prec emax (Zdigits2 mx + ex) - ex)%Z with n.
  destruct (shr (shr_record_of_loc mx lx) ex n) as [mrs' e'] eqn:Hshr.
  simpl in He', Hrep'. subst e'. replace (ex + n)%Z with E by lia.
  destruct (round_nearest_even_rep mrs' _ _ Hrep') as (Hm1 & Hm1' & Hm1v & Hm1u).
  set (m1 := round_nearest_even (shr_m mrs') (loc_of_shr_record mrs')) in *.
  (* the shifted mantissa has at most [k] digits *)
  set (k := Z.max (d - n) 0).
  assert (Hk : (shr_m mrs' < 2 ^ k)%Z).
  { destruct Hrep' as (H0 & _ & Hu).
    pose proof (Zdigits2_lt_pow mx Hmx) as Hlt. fold d in Hlt.
    apply IZR_lt in Hlt. rewrite <- bpow_IZR in Hlt by lia.
    assert (Hu' : IZR (shr_m mrs') < bpow (d - n)).
    { replace (d - n)%Z with (d + - n)%Z by lia. rewrite bpow_add.
      pose proof (bpow_pos (- n)). nra. }
    destruct (Z_le_gt_dec 0 (d - n)) as [Hdn|Hdn].
    - unfold k. rewrite Z.max_l by lia. by apply lt_bpow_Z.
    - unfold k. rewrite Z.max_r by lia. simpl.
      assert (bpow (d - n) <= bpow 0) by (apply bpow_le; lia).
      rewrite bpow_0 in *. apply lt_IZR. lra. }
  assert (Hkprec : (k <= prec)%Z) by (unfold k, n; lia).
  assert (Hm1k : (m1 <= 2 ^ k)%Z) by lia.
  assert (Hm1prec : (m1 <= 2 ^ prec)%Z).
  { assert (2 ^ k <= 2 ^ prec)%Z by (apply Z.pow_le_mono_r; lia). lia. }
  assert (Hdig1 : (Zdigits2 m1 <= k + 1)%Z).
  { apply Zdigits2_le; [lia|]. split; [done|].
    rewrite Z.pow_add_r, Z.pow_1_r by lia.
    pose proof (Z.pow_pos_nonneg 2 k). lia. }
  assert (Hn2 : (fexp prec emax (Zdigits2 m1 + E) - E <= 1)%Z).
  { destruct (Z_le_gt_dec 0 (d - n)) as [Hdn|Hdn].
    - assert (Hle : (Zdigits2 m1 + E <= d + ex + 1)%Z) by (unfold k, n in *; lia).
      pose proof (fexp_mono prec emax _ _ Hle) as Hmono.
      pose proof (fexp_succ prec emax (d + ex)) as Hsucc.
      change (fexp prec emax (d + ex)) with E in Hsucc. lia.
    - assert (Hle : (Zdigits2 m1 + E <= 1 + E)%Z) by (unfold k in *; lia).
      pose proof (fexp_mono prec emax _ _ Hle) as Hmono.
      assert (fexp prec emax (1 + E) <= E)%Z by (unfold fexp; lia). lia. }
  set (n2 := (fexp prec emax (Zdigits2 m1 + E) - E)%Z) in *.
  assert (Hrep1 : rep (shr_record_of_loc m1 loc_Exact) (IZR m1) (IZR m1)).
  { apply rep_of_loc; [done|lra]. }
  assert (Hfinal : forall m'' e'', (0 <= m'' <= 2 ^ prec)%Z -> (E <= e'' <= E + 1)%Z ->
            IZR m'' * bpow e'' <= IZR m1 * bpow E ->
            exists m''0 e''0 : Z,
              (0 <= m''0 <= 2 ^ prec)%Z /\ (E <= e''0 <= E + 1)%Z /\
              round_result prec emax s m'' e'' = round_result prec emax s m''0 e''0 /\
              IZR m''0 * bpow e''0 <= v * bpow ex + / 2 * bpow E).
  { intros m'' e'' Hm'' He'' Hle. exists m'', e''. repeat split; try lia.
    eapply Rle_trans; [exact Hle|].
      pose proof (bpow_pos E).
      assert (Hvn : v * bpow (- n) * bpow E = v * bpow ex).
      { rewrite Rmult_assoc, <- bpow_add. f_equal. f_equal. unfold n. lia. }
      nra. }
  destruct (Z_le_gt_dec n2 0) as [Hn2'|Hn2'].
  - rewrite shr_none by lia. simpl. apply (Hfinal m1 E); [lia|lia|lra].
  - assert (n2 = 1)%Z as -> by lia.
    destruct (shr_rep (shr_record_of_loc m1 loc_Exact) E 1 _ _ ltac:(lia) Hrep1)
      as [He2 Hrep2].
    destruct (shr (shr_record_of_loc m1 loc_Exact) E 1) as [mrs'' e''] eqn:Hshr2.
    simpl in He2, Hrep2. subst e''. destruct Hrep2 as (H0 & _ & Hu).
    simpl. apply (Hfinal (shr_m mrs'') (E + 1)%Z); [|lia|].
    + split; [done|]. change (- (1))%Z with (-1)%Z in Hu. rewrite bpow_neg_xH in Hu.
      assert (IZR (shr_m mrs'') <= IZR m1) by (apply IZR_le in Hm1; lra).
      apply le_IZR in H. lia.
    + rewrite bpow_add, bpow_1. change (- (1))%Z with (-1)%Z in Hu.
      rewrite bpow_neg_xH in Hu. pose proof (bpow_pos E). nra.
Qed.

(** When the mantissa already sits at or above its exponent and is exact,
    nothing is rounded. *)
Lemma binary_round_aux_exact (s : bool) (m : positive) (ex : Z) :
  (fexp prec emax (Z.pos (digits2_pos m) + ex) <= ex)%Z ->
  binary_round_aux prec emax s (Z.pos m) ex loc_Exact = round_result prec emax s (Z.pos m) ex.
Proof using Type.
  intros H. unfold binary_round_aux, shr_fexp. simpl Zdigits2.
  rewrite shr_none by lia. simpl. rewrite shr_none by lia. reflexivity.
Qed.

Lemma iter_xO_Z (m d : positive) :
  Z.pos (Pos.iter xO m d) = (Z.pos m * 2 ^ Z.pos d)%Z.
Proof.
  induction d as [|d IH] using Pos.peano_ind.
  - simpl. lia.
  - rewrite Pos.iter_succ, Pos2Z.inj_xO, IH, Pos2Z.inj_succ, Z.pow_succ_r by lia. lia.
Qed.

Lemma iter_xO_digits (m d : positive) :
  digits2_pos (Pos.iter xO m d) = (digits2_pos m + d)%positive.
Proof.
  induction d as [|d IH] using Pos.peano_ind.
  - simpl. lia.
  - rewrite Pos.iter_succ. simpl. rewrite IH. lia.
Qed.

(** [shl_align] towards a smaller exponent keeps the value and makes the
    mantissa canonical. *)
Lemma shl_align_spec (m : positive) (e e' : Z) :
  (e' <= e)%Z ->
  exists mz : positive,
    shl_align m e e' = (mz, e') /\
    Z.pos mz = (Z.pos m * 2 ^ (e - e'))%Z /\
    (Z.pos (digits2_pos mz) + e' = Z.pos (digits2_pos m) + e)%Z.
Proof using Type.
  intros H. unfold shl_align.
  destruct (e' - e)%Z as [|d|d] eqn:Hd; [|lia|].
  - assert (e' = e) as -> by lia. exists m. rewrite Z.sub_diag. simpl.
    repeat split; lia.
  - exists (Pos.iter xO m d). split; [done|].
    rewrite iter_xO_Z, iter_xO_digits. replace (e - e')%Z with (Z.pos d) by lia.
    split; lia.
Qed.

Lemma binary_round_exact (s : bool) (m : positive) (e : Z) :
  let E := fexp prec emax (Z.pos (digits2_pos m) + e) in
  (E <= e)%Z ->
  exists mz : positive,
    binary_round prec emax s m e = round_result prec emax s (Z.pos mz) E /\
    Z.pos mz = (Z.pos m * 2 ^ (e - E))%Z /\
    fexp prec emax (Z.pos (digits2_pos mz) + E) = E.
Proof using Type.
  intros E HE. unfold binary_round. fold E.
  destruct (shl_align_spec m e E HE) as (mz & -> & Hmz & Hdig).
  exists mz. rewrite binary_round_aux_exact by (rewrite Hdig; fold E; lia).
  rewrite Hdig. done.
Qed.

Lemma binary_round_shift (s : bool) (m : positive) (e : Z) :
  let E := fexp prec emax (Z.pos (digits2_pos m) + e) in
  (e <= E)%Z ->
  exists m'' e'' : Z,
    (0 <= m'' <= 2 ^ prec)%Z /\ (E <= e'' <= E + 1)%Z /\
    binary_round prec emax s m e = round_result prec emax s m'' e'' /\
    IZR m'' * bpow e'' <= IZR (Z.pos m) * bpow e + / 2 * bpow E.
Proof using prec_pos.
  intros E HE. unfold binary_round. fold E.
  assert (Halign : shl_align m e E = (m, e)).
  { unfold shl_align. destruct (E - e)%Z eqn:Hd; try done. lia. }
  rewrite Halign.
  apply (binary_round_aux_shift s (Z.pos m) e loc_Exact (IZR (Z.pos m))); [lia|lra|done].
Qed.

(** Both cases of [binary_round] at once. *)
Lemma binary_round_bound (s : bool) (m : positive) (e : Z) :
  let E := fexp prec emax (Z.pos (digits2_pos m) + e) in
  exists m' e' : Z,
    (0 <= m' <= 2 ^ prec)%Z /\ (E <= e' <= E + 1)%Z /\
    binary_round prec emax s m e = round_result prec emax s m' e' /\
    IZR m' * bpow e' <= IZR (Z.pos m) * bpow e + / 2 * bpow E /\
    ((E <= e)%Z ->
       IZR m' * bpow e' = IZR (Z.pos m) * bpow e /\
       fexp prec emax (Zdigits2 m' + e') = e').
Proof using prec_pos.
  intros E. destruct (Z_lt_le_dec e E) as [Hlt|Hle].
  - destruct (binary_round_shift s m e ltac:(fold E; lia)) as (m' & e' & Hm & He & Hr & Hb).
    exists m', e'. repeat split; try done; try lia; fold E in He; lia.
  - destruct (binary_round_exact s m e Hle) as (mz & Hr & Hmz & Hcan). fold E in Hr, Hmz, Hcan.
    assert (Hval : IZR (Z.pos mz) * bpow E = IZR (Z.pos m) * bpow e).
    { rewrite Hmz, mult_IZR, <- bpow_IZR by lia.
      rewrite Rmult_assoc, <- bpow_add. do 2 f_equal. lia. }
    exists (Z.pos mz), E. repeat split; try done; try lia.
    + assert (Hd : (Z.pos (digits2_pos mz) <= prec)%Z) by (unfold fexp in Hcan; lia).
      pose proof (digits_bounds mz) as [_ Hlt].
      assert (2 ^ Z.pos (digits2_pos mz) <= 2 ^ prec)%Z by (apply Z.pow_le_mono_r; lia).
      lia.
    + rewrite Hval. pose proof (bpow_pos E). lra.
Qed.

End RoundAux.

(** *** Stores into a Float32Array *)

Lemma fround_spec (s : bool) (m : positive) (e : Z) :
  let E := fexp 24 128 (Z.pos (digits2_pos m) + e) in
  exists m' e' : Z,
    (0 <= m' <= 2 ^ 24)%Z /\ (E <= e' <= E + 1)%Z /\
    IZR m' * bpow e' <= IZR (Z.pos m) * bpow e + / 2 * bpow E /\
    ((m' = 0%Z /\ fround (S754_finite s m e) = S754_zero s) \/
     ((0 < m')%Z /\ (e' <= 104)%Z /\
      exists mz ez, fround (S754_finite s m e) = S754_finite s mz ez /\
                    IZR (Z.pos mz) * bpow ez = IZR m' * bpow e' /\
                    canonical64 mz ez) \/
     ((0 < m')%Z /\ (104 < e')%Z /\ fround (S754_finite s m e) = S754_infinity s)).
Proof.
  intros E.
  destruct (binary_round_bound 24 128 ltac:(lia) s m e) as (m' & e' & Hm & He & Hr & Hb & _).
  fold E in He, Hb. exists m', e'. repeat split; try done; try lia.
  unfold fround. rewrite Hr.
  assert (HE : (-149 <= E)%Z) by (unfold E, fexp, emin; lia).
  destruct m' as [|p|p]; [left; done| |lia]. right.
  unfold round_result. change (128 - 24)%Z with 104%Z.
  destruct (Z.leb_spec e' 104) as [Hle|Hgt]; [left|right; repeat split; (lia || done)].
  split; [lia|]. split; [done|].
  assert (Hdp : (Z.pos (digits2_pos p) <= 25)%Z).
  { change (Z.pos (digits2_pos p)) with (Zdigits2 (Z.pos p)).
    apply Zdigits2_le; [lia|]. split; [lia|]. simpl in *. lia. }
  destruct (binary_round_bound 53 1024 ltac:(lia) s p e') as (m2 & e2 & Hm2 & He2 & Hr2 & _ & Hex).
  assert (Hfexp : (fexp 53 1024 (Z.pos (digits2_pos p) + e') <= e')%Z)
    by (unfold fexp, emin; lia).
  destruct (Hex Hfexp) as [Hval Hcan].
  rewrite Hr2. unfold round_result.
  destruct m2 as [|p2|p2]; [|clear Hex|lia].
  - exfalso. rewrite Rmult_0_l in Hval. pose proof (bpow_pos e').
    assert (0 < IZR (Z.pos p)) by (apply IZR_lt; lia). nra.
  - destruct (Z.leb_spec e2 (1024 - 53)) as [_|Hgt2].
    2:{ unfold fexp, emin in He2. lia. }
    exists p2, e2. done.
Qed.

(** *** The binary64 product and quotient *)

Lemma Rabs_B2R_finite (s : bool) (m : positive) (e : Z) :
  Rabs (B2R (S754_finite s m e)) = IZR (Z.pos m) * bpow e.
Proof. apply (B2R_of_mantissa s (Z.pos m) e). lia. Qed.

Lemma Rabs_B2R_of_mantissa_finite (s : bool) (m e : Z) :
  (0 <= m)%Z -> is_finite (of_mantissa s m e) = true.
Proof. destruct m; simpl; (done || lia). Qed.

(** Half a unit in the last place, as a relative plus an absolute error. *)
Lemma half_ulp_bound (prec emax : Z) (p : positive) (e : Z) :
  / 2 * bpow (fexp prec emax (Z.pos (digits2_pos p) + e)) <=
  IZR (Z.pos p) * bpow e * bpow (- prec) + bpow (emin prec emax - 1).
Proof.
  pose proof (bpow_digits_le p e) as Hd.
  pose proof (bpow_pos (- prec)). pose proof (bpow_pos (emin prec emax - 1)).
  pose proof (bpow_pos (Z.pos (digits2_pos p) - 1 + e)).
  unfold fexp. destruct (Z.max_spec (Z.pos (digits2_pos p) + e - prec) (emin prec emax))
    as [[_ ->]|[_ ->]].
  - rewrite <- bpow_half. nra.
  - rewrite <- bpow_half.
    replace (Z.pos (digits2_pos p) + e - prec - 1)%Z
      with ((Z.pos (digits2_pos p) - 1 + e) + - prec)%Z by lia.
    rewrite bpow_add. nra.
Qed.

Lemma mul_bound (x y : number) :
  is_finite x = true -> is_finite y = true ->
  Rabs (B2R x) * Rabs (B2R y) < bpow 971 ->
  is_finite (mul x y) = true /\
  Rabs (B2R (mul x y)) <=
    Rabs (B2R x) * Rabs (B2R y) * (1 + bpow (-53)) + bpow (-1075).
Proof.
  intros Hx Hy HV.
  pose proof (bpow_pos (-53)). pose proof (bpow_pos (-1075)).
  pose proof (Rabs_pos (B2R x)). pose proof (Rabs_pos (B2R y)).
  assert (Hzero : forall z, B2R z = 0 -> is_finite z = true ->
            is_finite z = true /\
            Rabs (B2R z) <= Rabs (B2R x) * Rabs (B2R y) * (1 + bpow (-53)) + bpow (-1075)).
  { intros z Hz Hf. split; [done|]. rewrite Hz, Rabs_R0.
    assert (0 <= Rabs (B2R x) * Rabs (B2R y)) by (apply Rmult_le_pos; lra). nra. }
  destruct x as [sx|sx| |sx mx ex], y as [sy|sy| |sy my ey]; try discriminate;
    try (apply Hzero; reflexivity).
  clear Hzero. rewrite !Rabs_B2R_finite in *.
  set (V := IZR (Z.pos mx) * bpow ex * (IZR (Z.pos my) * bpow ey)) in *.
  assert (HV0 : 0 <= V) by (unfold V; apply Rmult_le_pos; lra).
  assert (HVeq : V = IZR (Z.pos (mx * my)) * bpow (ex + ey)).
  { unfold V. rewrite Pos2Z.inj_mul, mult_IZR, bpow_add. ring. }
  unfold mul, SFmul.
  set (s := xorb sx sy). set (m := (mx * my)%positive) in *.
  set (E := fexp 53 1024 (Z.pos (digits2_pos m) + (ex + ey))).
  pose proof (bpow_digits_le m (ex + ey)) as Hdig. rewrite <- HVeq in Hdig.
  assert (Hde : (Z.pos (digits2_pos m) + (ex + ey) <= 971)%Z).
  { assert (Hlt : bpow (Z.pos (digits2_pos m) - 1 + (ex + ey)) < bpow 971) by lra.
    apply bpow_lt_inv in Hlt. lia. }
  assert (HE1 : (E + 1 <= 971)%Z) by (unfold E, fexp, emin; lia).
  pose proof (half_ulp_bound 53 1024 m (ex + ey)) as Hulp. fold E in Hulp.
  rewrite <- HVeq in Hulp. change (emin 53 1024 - 1)%Z with (-1075)%Z in Hulp.
  change (- (53))%Z with (-53)%Z in Hulp.
  destruct (Z_lt_le_dec E (ex + ey)) as [Hlt|Hle].
  - rewrite binary_round_aux_exact by (fold E; lia).
    rewrite round_result_finite by lia.
    split; [done|]. rewrite (B2R_of_mantissa s (Z.pos m)) by lia. rewrite <- HVeq. nra.
  - assert (Hv : IZR (Z.pos m) + 0 <= IZR (Z.pos m)) by lra.
    destruct (binary_round_aux_shift 53 1024 eq_refl s (Z.pos m) (ex + ey) loc_Exact
                (IZR (Z.pos m)) (Pos2Z.is_nonneg m) Hv Hle) as (m'' & e'' & Hm & He & -> & Hb).
    change (fexp 53 1024 (Zdigits2 (Z.pos m) + (ex + ey))) with E in He, Hb.
    rewrite <- HVeq in Hb.
    rewrite round_result_finite by lia.
    split; [apply Rabs_B2R_of_mantissa_finite; lia|].
    rewrite B2R_of_mantissa by lia. lra.
Qed.

Lemma new_location_half (nb k : Z) :
  (0 < nb)%Z -> (0 <= k < nb)%Z ->
  match new_location nb k with
  | loc_Inexact Eq | loc_Inexact Gt => (nb <= 2 * k)%Z
  | _ => True
  end.
Proof.
  intros Hnb Hk. unfold new_location, new_location_even, new_location_odd.
  destruct (Z.even nb); destruct (Z.eqb_spec k 0); try done.
  - destruct (Z.compare_spec (2 * k) nb); try done; lia.
  - destruct (Z.compare_spec (2 * k + 1) nb); try done; lia.
Qed.

Lemma Zdigits2_ge (q k : Z) : (0 <= k)%Z -> (2 ^ k <= q)%Z -> (k + 1 <= Zdigits2 q)%Z.
Proof.
  intros Hk Hq.
  assert (Hq0 : (0 <= q)%Z) by (pose proof (Z.pow_pos_nonneg 2 k); lia).
  pose proof (Zdigits2_lt_pow q Hq0) as Hlt. pose proof (Zdigits2_nonneg q).
  destruct (Z_lt_le_dec k (Zdigits2 q)) as [|Hle]; [lia|].
  assert (2 ^ Zdigits2 q <= 2 ^ k)%Z by (apply Z.pow_le_mono_r; lia). lia.
Qed.

Lemma div_bound (sx sy : bool) (mx my : positive) (ex ey : Z) :
  let V := IZR (Z.pos mx) * bpow ex / (IZR (Z.pos my) * bpow ey) in
  let r := div (S754_finite sx mx ex) (S754_finite sy my ey) in
  V < bpow 971 ->
  is_finite r = true /\ has_sign (xorb sx sy) r /\
  Rabs (B2R r) <= V * (1 + bpow (-53)) + bpow (-1075).
Proof.
  intros V r HV. unfold r, div, SFdiv, SFdiv_core_binary. clear r.
  change (Zdigits2 (Z.pos mx)) with (Z.pos (digits2_pos mx)).
  change (Zdigits2 (Z.pos my)) with (Z.pos (digits2_pos my)).
  set (d1 := Z.pos (digits2_pos mx)). set (d2 := Z.pos (digits2_pos my)).
  set (D := (d1 + ex - (d2 + ey))%Z).
  set (e' := Z.min (fexp 53 1024 D) (ex - ey)).
  set (sh := (ex - ey - e')%Z).
  assert (Hsh : (0 <= sh)%Z) by (unfold sh, e'; lia).
  set (m' := match sh with
             | 0%Z => Z.pos mx
             | Z.pos _ => Z.shiftl (Z.pos mx) sh
             | Z.neg _ => 0%Z
             end).
  assert (Hm' : m' = (Z.pos mx * 2 ^ sh)%Z).
  { unfold m'. destruct sh as [|p|p]; [lia| |lia]. apply Z.shiftl_mul_pow2. lia. }
  pose proof (Z_div_mod m' (Z.pos my) ltac:(lia)) as Hdm.
  destruct (Z.div_eucl m' (Z.pos my)) as [q rm]. destruct Hdm as [Hdm Hrm].
  assert (Hpow : (0 < 2 ^ sh)%Z) by (apply Z.pow_pos_nonneg; lia).
  assert (Hq0 : (0 <= q)%Z) by nia.
  (* the exact quotient, in units of [2^e'] *)
  set (v := IZR m' / IZR (Z.pos my)).
  assert (Hmy : 0 < IZR (Z.pos my)) by (apply IZR_lt; lia).
  assert (HvV : v * bpow e' = V).
  { unfold v, V. rewrite Hm', mult_IZR, <- bpow_IZR by lia.
    replace (bpow ex) with (bpow sh * bpow e' * bpow ey)
      by (rewrite <- !bpow_add; f_equal; unfold sh; lia).
    pose proof (bpow_pos ey). pose proof (bpow_pos e').
    field. split; lra. }
  assert (Hvq : v = IZR q + IZR rm / IZR (Z.pos my)).
  { unfold v. rewrite Hdm, plus_IZR, mult_IZR. field. lra. }
  assert (Hrep : IZR q +
                 match new_location (Z.pos my) rm with
                 | loc_Inexact Eq | loc_Inexact Gt => / 2
                 | _ => 0
                 end <= v).
  { pose proof (new_location_half (Z.pos my) rm ltac:(lia) Hrm) as Hloc.
    assert (0 <= IZR rm / IZR (Z.pos my)).
    { apply Rmult_le_pos; [apply IZR_le; lia|]. apply Rlt_le, Rinv_0_lt_compat, Hmy. }
    assert (Hhalf : (Z.pos my <= 2 * rm)%Z -> / 2 <= IZR rm / IZR (Z.pos my)).
    { intros Hle. apply IZR_le in Hle. rewrite mult_IZR in Hle.
      apply Rmult_le_reg_r with (IZR (Z.pos my)); [done|].
      unfold Rdiv. rewrite Rmult_assoc, Rinv_l by lra. lra. }
    destruct (new_location (Z.pos my) rm) as [|[]]; try lra; specialize (Hhalf Hloc); lra. }
  (* if the quotient is not in the subnormal range it has 53 bits at least *)
  assert (Hbig : (-1074 < e')%Z -> (2 ^ 52 <= q)%Z /\ (D <= Zdigits2 q + e')%Z).
  { intros He'.
    assert (HfD : fexp 53 1024 D = (D - 53)%Z) by (unfold e', fexp, emin in *; lia).
    set (k := (d1 - 1 + sh - d2)%Z).
    assert (Hk : (52 <= k)%Z) by (unfold k, sh, e', D in *; lia).
    pose proof (digits_bounds mx) as [Hmx _]. pose proof (digits_bounds my) as [_ Hmy'].
    fold d1 in Hmx. fold d2 in Hmy'.
    assert (Hqk : (2 ^ k <= q)%Z).
    { apply Z.lt_succ_r. apply Z.mul_lt_mono_pos_l with (Z.pos my); [lia|].
      assert (Hgoal : (Z.pos my * 2 ^ k < 2 ^ d2 * 2 ^ k)%Z).
      { apply Z.mul_lt_mono_pos_r; [apply Z.pow_pos_nonneg; lia | done]. }
      rewrite <- Z.pow_add_r in Hgoal by lia.
      replace (d2 + k)%Z with ((d1 - 1) + sh)%Z in Hgoal by (unfold k; lia).
      rewrite Z.pow_add_r in Hgoal by lia.
      assert (2 ^ (d1 - 1) * 2 ^ sh <= Z.pos mx * 2 ^ sh)%Z by (apply Z.mul_le_mono_nonneg_r; lia).
      nia. }
    split.
    - assert (2 ^ 52 <= 2 ^ k)%Z by (apply Z.pow_le_mono_r; lia). lia.
    - pose proof (Zdigits2_ge q k ltac:(lia) Hqk). unfold k, sh, D in *. lia. }
  set (E := fexp 53 1024 (Zdigits2 q + e')).
  assert (HE : (e' <= E)%Z).
  { destruct (Z_lt_le_dec (-1074) e') as [He'|He'].
    - destruct (Hbig He') as [_ HD].
      pose proof (fexp_mono 53 1024 _ _ HD). unfold E, e' in *. lia.
    - unfold E, fexp, emin. lia. }
  assert (HV0 : 0 <= V).
  { unfold V. apply Rmult_le_pos;
      [apply Rmult_le_pos; [apply IZR_le; lia|apply Rlt_le, bpow_pos]|].
    apply Rlt_le, Rinv_0_lt_compat. apply Rmult_lt_0_compat; [done|apply bpow_pos]. }
  pose proof (bpow_pos (-53)). pose proof (bpow_pos (-1075)).
  assert (HqV : IZR q * bpow e' <= V).
  { rewrite <- HvV. pose proof (bpow_pos e').
    assert (0 <= IZR rm / IZR (Z.pos my)).
    { apply Rmult_le_pos; [apply IZR_le; lia|]. apply Rlt_le, Rinv_0_lt_compat, Hmy. }
    nra. }
  assert (Hulp : / 2 * bpow E <= V * bpow (-53) + bpow (-1075) /\ (E + 1 <= 971)%Z).
  { destruct (Z_lt_le_dec (-1074) E) as [HE'|HE'].
    - (* E = digits q + e' - 53 and q > 0 *)
      assert (Hqpos : (0 < q)%Z).
      { destruct (Z_lt_le_dec (-1074) e') as [He'|He'].
        - destruct (Hbig He') as [Hq _]. lia.
        - destruct q as [|p|p]; [|lia|lia]. exfalso. unfold E, fexp, emin in HE'. simpl in HE'. lia. }
      destruct q as [|p|p]; try lia.
      pose proof (half_ulp_bound 53 1024 p e') as Hh.
      change (Z.pos (digits2_pos p)) with (Zdigits2 (Z.pos p)) in Hh. fold E in Hh.
      change (emin 53 1024 - 1)%Z with (-1075)%Z in Hh.
      change (- (53))%Z with (-53)%Z in Hh.
      split; [nra|].
      pose proof (bpow_digits_le p e') as Hd.
      assert (Hlt : bpow (Z.pos (digits2_pos p) - 1 + e') < bpow 971) by lra.
      apply bpow_lt_inv in Hlt. unfold E, fexp, emin. simpl Zdigits2. lia.
    - assert (E = (-1074)%Z) as -> by (unfold E, fexp, emin in *; lia).
      split; [|lia]. rewrite <- (bpow_half (-1074)). change (-1074 - 1)%Z with (-1075)%Z.
      nra. }
  destruct Hulp as [Hulp HE1].
  destruct (binary_round_aux_shift 53 1024 eq_refl (xorb sx sy) q e'
              (new_location (Z.pos my) rm) v Hq0 Hrep HE) as (m'' & e'' & Hm & He & -> & Hb).
  fold E in He, Hb. rewrite HvV in Hb.
  rewrite round_result_finite by lia.
  split; [apply Rabs_B2R_of_mantissa_finite; lia|].
  split.
  - destruct m'' as [|p|p]; simpl; (done || lia).
  - rewrite B2R_of_mantissa by lia. lra.
Qed.

(** *** Values a Float32Array can hold, and their order *)

Lemma fround_fixed_finite (s : bool) (m : positive) (e : Z) :
  fround (S754_finite s m e) = S754_finite s m e ->
  canonical64 m e /\
  bpow (-149) <= IZR (Z.pos m) * bpow e <= bpow 128.
Proof.
  intros Hfix.
  destruct (fround_spec s m e) as (m' & e' & Hm & He & _ & Hcases).
  assert (HE : (-149 <= fexp 24 128 (Z.pos (digits2_pos m) + e))%Z)
    by (unfold fexp, emin; lia).
  destruct Hcases as [[_ H]|[(Hpos & Hle & mz & ez & H & Hval & Hcan)|(_ & _ & H)]];
    rewrite Hfix in H; try discriminate.
  injection H as <- <-. split; [done|]. rewrite Hval.
  pose proof (bpow_pos e').
  split.
  - apply Rle_trans with (1 * bpow e').
    + rewrite Rmult_1_l. apply bpow_le. lia.
    + apply Rmult_le_compat_r; [lra|]. apply IZR_le. lia.
  - apply Rle_trans with (IZR (2 ^ 24) * bpow 104).
    + apply Rmult_le_compat; [apply IZR_le; lia | lra | apply IZR_le; lia | apply bpow_le; lia].
    + rewrite <- bpow_IZR by lia. rewrite <- bpow_add. apply bpow_le. lia.
Qed.

Lemma canonical_lt_exp (m1 m2 : positive) (e1 e2 : Z) :
  canonical64 m1 e1 -> canonical64 m2 e2 -> (e1 < e2)%Z ->
  IZR (Z.pos m1) * bpow e1 < IZR (Z.pos m2) * bpow e2.
Proof.
  unfold canonical64. intros H1 H2 Hlt.
  assert (Hd : (Z.pos (digits2_pos m1) + e1 < Z.pos (digits2_pos m2) + e2)%Z).
  { destruct (Z_lt_le_dec (Z.pos (digits2_pos m1) + e1) (Z.pos (digits2_pos m2) + e2))
      as [|Hge]; [done|].
    pose proof (fexp_mono 53 1024 _ _ Hge). lia. }
  pose proof (digits_bounds m1) as [_ Hu]. apply IZR_lt in Hu.
  rewrite <- bpow_IZR in Hu by lia.
  pose proof (bpow_digits_le m2 e2) as Hl.
  pose proof (bpow_pos e1).
  assert (IZR (Z.pos m1) * bpow e1 < bpow (Z.pos (digits2_pos m1) + e1))
    by (rewrite bpow_add; nra).
  assert (bpow (Z.pos (digits2_pos m1) + e1) <= bpow (Z.pos (digits2_pos m2) - 1 + e2))
    by (apply bpow_le; lia).
  lra.
Qed.

Lemma B2R_finite_pos (m : positive) (e : Z) : 0 < B2R (S754_finite false m e).
Proof.
  simpl. fold (bpow e). pose proof (bpow_pos e).
  assert (0 < IZR (Z.pos m)) by (apply IZR_lt; lia). nra.
Qed.

Lemma lt_canonical (a b : number) :
  canonical_nonneg a -> canonical_nonneg b ->
  (lt a b = true <-> B2R a < B2R b).
Proof.
  unfold lt, SFltb.
  destruct a as [[]|[]| |[] ma ea]; try done; destruct b as [[]|[]| |[] mb eb]; try done;
    intros Ha Hb.
  - simpl. split; [discriminate | lra].
  - pose proof (B2R_finite_pos mb eb). split; [done|]. reflexivity.
  - pose proof (B2R_finite_pos ma ea). split; [discriminate|]. simpl B2R at 2. lra.
  - simpl SFcompare.
    destruct (Z.compare_spec ea eb) as [->|Hlt|Hgt].
    + change (Pos.compare_cont Eq ma mb) with (ma ?= mb)%positive.
      simpl B2R. fold (bpow eb). pose proof (bpow_pos eb).
      destruct (Pos.compare_spec ma mb) as [->|Hm|Hm].
      * split; [discriminate | lra].
      * split; [intros _|done]. apply Rmult_lt_compat_r; [done|]. apply IZR_lt. lia.
      * split; [discriminate|]. intros H'. exfalso.
        assert (IZR (Z.pos mb) < IZR (Z.pos ma)) by (apply IZR_lt; lia). nra.
    + split; [intros _|done]. simpl. by apply canonical_lt_exp.
    + split; [discriminate|]. intros H'. exfalso.
      pose proof (canonical_lt_exp mb ma eb ea Hb Ha ltac:(lia)) as H''.
      simpl in H'. fold (bpow ea) (bpow eb) in H'. lra.
Qed.

(** *** Shifts, digit by digit *)





Lemma Zdigits2_bounds (m : Z) :
  (0 < m)%Z -> (2 ^ (Zdigits2 m - 1) <= m < 2 ^ Zdigits2 m)%Z.
Proof. intros H. destruct m as [|p|p]; [lia| |lia]. apply digits_bounds. Qed.

Lemma Zdigits2_pos (m : Z) : (0 < m)%Z -> (0 < Zdigits2 m)%Z.
Proof. intros H. destruct m as [|p|p]; simpl; lia. Qed.

(** The digits of a mantissa between two powers of two. *)
Lemma Zdigits2_unique (m d : Z) :
  (0 < d)%Z -> (2 ^ (d - 1) <= m < 2 ^ d)%Z -> Zdigits2 m = d.
Proof.
  intros Hd [Hlo Hhi].
  assert (Hm : (0 < m)%Z) by (pose proof (Z.pow_pos_nonneg 2 (d - 1)); lia).
  pose proof (Zdigits2_le m d ltac:(lia) ltac:(lia)).
  pose proof (Zdigits2_ge m (d - 1) ltac:(lia) Hlo). lia.
Qed.


Lemma Zdigits2_mul_pow (m k : Z) :
  (0 < m)%Z -> (0 <= k)%Z -> Zdigits2 (m * 2 ^ k) = (Zdigits2 m + k)%Z.
Proof.
  intros Hm Hk. destruct (Zdigits2_bounds m Hm) as [Hlo Hhi].
  pose proof (Zdigits2_pos m Hm).
  assert (Hp : (0 < 2 ^ k)%Z) by (apply Z.pow_pos_nonneg; lia).
  apply Zdigits2_unique; [lia|]. split.
  - replace (Zdigits2 m + k - 1)%Z with (Zdigits2 m - 1 + k)%Z by lia.
    rewrite Z.pow_add_r by lia. nia.
  - rewrite Z.pow_add_r by lia. nia.
Qed.


(** A shift that drops zeros only is exact. *)
Lemma shr_1_exact (m : Z) :
  (0 <= m)%Z ->
  shr_1 {| shr_m := 2 * m; shr_r := false; shr_s := false |} =
  {| shr_m := m; shr_r := false; shr_s := false |}.
Proof. intros H. destruct m as [|p|p]; [done|done|lia]. Qed.

Lemma iter_shr_1_exact (p : positive) (m : Z) :
  (0 <= m)%Z ->
  SpecFloat.iter_pos shr_1 p {| shr_m := m * 2 ^ Z.pos p; shr_r := false; shr_s := false |} =
  {| shr_m := m; shr_r := false; shr_s := false |}.
Proof.
  revert m. induction p as [p IH|p IH|]; intros m H; cbn [SpecFloat.iter_pos].
  - replace (m * 2 ^ Z.pos p~1)%Z with (2 * (m * 2 ^ Z.pos p * 2 ^ Z.pos p))%Z.
    2:{ replace (Z.pos p~1) with (Z.pos p + Z.pos p + 1)%Z by lia.
        rewrite !Z.pow_add_r, Z.pow_1_r by lia. ring. }
    assert (0 <= 2 ^ Z.pos p)%Z by (apply Z.pow_nonneg; lia).
    rewrite shr_1_exact by nia. rewrite IH by nia. by rewrite IH.
  - replace (m * 2 ^ Z.pos p~0)%Z with (m * 2 ^ Z.pos p * 2 ^ Z.pos p)%Z.
    2:{ replace (Z.pos p~0) with (Z.pos p + Z.pos p)%Z by lia.
        rewrite Z.pow_add_r by lia. ring. }
    assert (0 <= 2 ^ Z.pos p)%Z by (apply Z.pow_nonneg; lia).
    rewrite IH by nia. by rewrite IH.
  - replace (m * 2 ^ 1)%Z with (2 * m)%Z by lia. by apply shr_1_exact.
Qed.

Lemma shr_exact (m e k : Z) :
  (0 <= m)%Z -> (0 <= k)%Z ->
  shr {| shr_m := m * 2 ^ k; shr_r := false; shr_s := false |} e k =
  ({| shr_m := m; shr_r := false; shr_s := false |}, (e + k)%Z).
Proof.
  intros Hm Hk. destruct k as [|p|p]; [| |lia].
  - simpl. rewrite Z.mul_1_r, Z.add_0_r. done.
  - unfold shr. by rewrite iter_shr_1_exact.
Qed.

Section Canonical.

Variables prec emax : Z.
Hypothesis prec_pos : (0 < prec)%Z.




End Canonical.


End Rounding.

Import Rounding.

(** ** What a Float32Array holds *)

Lemma for_range_inv {S : Type} (P : S -> Prop) (n : nat) (body : nat -> S -> S) (s : S) :
  (forall i s, P s -> P (body i s)) -> P s -> P (for_range n body s).
Proof.
  intros Hbody. unfold for_range. generalize (seq 0 n). intros l. revert s.
  induction l as [|i l IH]; intros s Hs; simpl; auto.
Qed.

Lemma for_break_inv {S : Type} (P : S -> Prop) (l : list nat) (cond : nat -> bool)
    (body : nat -> S -> S) (s : S) :
  (forall i s, P s -> P (body i s)) -> P s -> P (for_break l cond body s).
Proof.
  intros Hbody. revert s. induction l as [|i l IH]; intros s Hs; simpl; [done|].
  destruct (cond i); auto.
Qed.








Section Unscaled.
Variable Math : MathImpl.


End Unscaled.

Section ClipSafety.
Local Open Scope R_scope.

(** ** Clip-safe scaling *)

Lemma maxAmplitude_fold (outputData : Float32Array) :
  maxAmplitude outputData =
  fold_left (fun max x => if gt (Math_abs x) max then Math_abs x else max) outputData pzero.
Proof.
  unfold maxAmplitude.
  apply (for_range_fold_elems outputData outputData 0
           (fun v max => if gt (Math_abs v) max then Math_abs v else max)).
  intros k x Hk. exact Hk.
Qed.

Lemma B2R_abs (x : number) : B2R (Math_abs x) = Rabs (B2R x).
Proof.
  destruct x as [s|s| |s m e]; simpl; try (by rewrite Rabs_R0).
  fold (bpow e). pose proof (Rabs_B2R_finite s m e) as H. simpl in H. fold (bpow e) in H.
  by rewrite H.
Qed.

Lemma sample_abs (x : number) :
  is_sample x ->
  canonical_nonneg (Math_abs x) /\
  (is_zero x = true \/
   (is_zero x = false /\ bpow (-149) <= Rabs (B2R x) <= bpow 128)).
Proof.
  intros [Hfin Hfix]. destruct x as [s|s| |s m e]; try discriminate.
  - split; [done|]. by left.
  - destruct (fround_fixed_finite s m e Hfix) as [Hcan Hrange].
    split; [done|]. right. split; [done|]. by rewrite Rabs_B2R_finite.
Qed.

Lemma canonical_nonneg_B2R (x : number) : canonical_nonneg x -> 0 <= B2R x.
Proof.
  destruct x as [[]|[]| |[] m e]; try done; intros _; simpl; try lra.
  apply Rlt_le, (B2R_finite_pos m e).
Qed.

(** The running maximum dominates every sample seen. *)
Lemma running_max_bound (l : Float32Array) (init : number) :
  canonical_nonneg init -> Forall is_sample l ->
  let M := fold_left (fun max x => if gt (Math_abs x) max then Math_abs x else max) l init in
  canonical_nonneg M /\ B2R init <= B2R M /\
  (M = init \/ exists x, x ∈ l /\ M = Math_abs x) /\
  Forall (fun x => Rabs (B2R x) <= B2R M) l.
Proof.
  revert init. induction l as [|x l IH]; intros init Hinit Hl; simpl.
  - repeat split; [done | lra | by left | constructor].
  - inversion_clear Hl as [|? ? Hx Hl'].
    destruct (sample_abs x Hx) as [Hcan _].
    pose proof (lt_canonical init (Math_abs x) Hinit Hcan) as Hlt.
    change (gt (Math_abs x) init) with (lt init (Math_abs x)).
    destruct (lt init (Math_abs x)) eqn:E.
    + destruct (IH (Math_abs x) Hcan Hl') as (HM & Hle & Hor & Hall).
      assert (B2R init < B2R (Math_abs x)) by (by apply Hlt).
      repeat split; [done | lra | | ].
      * right. destruct Hor as [->|(y & Hy & ->)].
        -- exists x. split; [left|done].
        -- exists y. split; [by right|done].
      * constructor; [|done]. rewrite <- B2R_abs. done.
    + destruct (IH init Hinit Hl') as (HM & Hle & Hor & Hall).
      assert (~ B2R init < B2R (Math_abs x)) by (intros H; apply Hlt in H; congruence).
      repeat split; [done | done | | ].
      * destruct Hor as [->|(y & Hy & ->)]; [by left|].
        right. exists y. split; [by right|done].
      * constructor; [|done]. rewrite <- B2R_abs. lra.
Qed.

(** [for (i ...) a[i] = g(a[i])] maps [g] over the array. *)
Lemma for_range_update_lookup (g : number -> number) (a : Float32Array) (n j : nat) :
  for_range n (fun i a => f32_set a i (g (f32_get a i))) a !! j =
  if decide (j < n)%nat then fround <$> (g <$> a !! j) else a !! j.
Proof.
  induction n as [|n IH].
  - rewrite for_range_0. case_decide; [lia|done].
  - rewrite for_range_S. cbv beta. unfold f32_set at 1.
    set (a' := for_range n _ a) in *.
    assert (Hlen : length a' = length a).
    { unfold a'. clear. induction n as [|n IHn]; [done|].
      rewrite for_range_S. by rewrite f32_set_length. }
    destruct (decide (j = n)) as [->|Hne].
    + rewrite decide_True by lia.
      rewrite decide_False in IH by lia.
      destruct (a !! n) as [x|] eqn:Hx.
      * rewrite list_lookup_insert_eq by (rewrite Hlen; by eapply lookup_lt_Some).
        simpl. unfold f32_get. by rewrite IH.
      * rewrite list_insert_ge; [by rewrite IH|].
        rewrite Hlen. by apply lookup_ge_None.
    + rewrite list_lookup_insert_ne by done. rewrite IH.
      repeat case_decide; try lia; done.
Qed.

Lemma bpow_m30 : bpow (-30) = / 1073741824.
Proof. unfold bpow. simpl. lra. Qed.

Lemma bpow_m24 : bpow (-24) = / 16777216.
Proof. unfold bpow. simpl. lra. Qed.

Lemma B2R_c0_95 : 0 < B2R c0_95 <= 95 / 100.
Proof.
  unfold c0_95. pose proof (B2R_finite_pos 8556839292003942 (-53)) as Hpos.
  split; [done|]. simpl.
  assert (Hb : bpow (-53) = / IZR (2 ^ 53)).
  { change (-53)%Z with (- (53))%Z. rewrite bpow_opp, bpow_IZR by lia. done. }
  rewrite Hb. apply Rmult_le_reg_r with (IZR (2 ^ 53)); [apply IZR_lt; lia|].
  rewrite Rmult_assoc, Rinv_l by (apply not_0_IZR; lia).
  replace (95 / 100 * IZR (2 ^ 53)) with (IZR (95 * 2 ^ 53) / 100)
    by (rewrite mult_IZR; lra).
  apply Rmult_le_reg_r with 100; [lra|].
  replace (IZR (95 * 2 ^ 53) / 100 * 100) with (IZR (95 * 2 ^ 53)) by lra.
  rewrite Rmult_1_r. rewrite <- (mult_IZR _ 100). apply IZR_le. lia.
Qed.

(** One sample after scaling by [0.95 / max]. *)
Lemma scaled_sample_bound (x : number) (mM : positive) (eM : Z) :
  let M := S754_finite false mM eM in
  is_finite x = true ->
  Rabs (B2R x) <= B2R M -> bpow (-149) <= B2R M <= bpow 128 ->
  let y := fround (mul x (div c0_95 M)) in
  is_finite y = true /\ Rabs (B2R y) <= 95 / 100.
Proof.
  intros M Hx HxM [HMlo HMhi] y.
  pose proof (bpow_pos (-149)).
  assert (HMpos : 0 < B2R M) by lra.
  assert (HMeq : B2R M = IZR (Z.pos mM) * bpow eM) by reflexivity.
  destruct B2R_c0_95 as [Hc0 Hc].
  set (Vc := B2R c0_95) in *.
  (* small powers of two, all below 2^-30 *)
  assert (He53 : bpow (-53) <= / 1073741824) by (rewrite <- bpow_m30; apply bpow_le; lia).
  assert (He1075 : bpow (-1075) <= / 1073741824) by (rewrite <- bpow_m30; apply bpow_le; lia).
  assert (He150 : bpow (-150) <= / 1073741824) by (rewrite <- bpow_m30; apply bpow_le; lia).
  assert (He947 : bpow 128 * bpow (-1075) <= / 1073741824)
    by (rewrite <- bpow_add, <- bpow_m30; apply bpow_le; lia).
  pose proof (bpow_pos (-53)). pose proof (bpow_pos (-1075)). pose proof (bpow_pos (-150)).
  (* the scale *)
  set (V := Vc / B2R M).
  assert (HMV : B2R M * V = Vc) by (unfold V; field; lra).
  assert (HV0 : 0 < V) by (unfold V; apply Rdiv_lt_0_compat; lra).
  assert (HVlt : V < bpow 971).
  { apply Rle_lt_trans with (bpow 149).
    - unfold V. apply Rmult_le_reg_r with (B2R M); [done|].
      unfold Rdiv. rewrite Rmult_assoc, Rinv_l, Rmult_1_r by lra.
      apply Rle_trans with (bpow 149 * bpow (-149)).
      + rewrite <- bpow_add. change (149 + -149)%Z with 0%Z. rewrite bpow_0. lra.
      + apply Rmult_le_compat_l; [apply Rlt_le, bpow_pos | done].
    - apply bpow_lt. lia. }
  pose proof (div_bound false false 8556839292003942 mM (-53) eM) as Hdiv.
  cbv zeta in Hdiv. change (S754_finite false 8556839292003942 (-53)) with c0_95 in Hdiv.
  change (IZR (Z.pos 8556839292003942) * bpow (-53)) with Vc in Hdiv.
  rewrite <- HMeq in Hdiv. fold M V in Hdiv.
  destruct (Hdiv HVlt) as (Hsfin & _ & Hs). clear Hdiv.
  set (s := div c0_95 M) in *.
  pose proof (Rabs_pos (B2R s)) as Hs0. pose proof (Rabs_pos (B2R x)) as Hx0.
  (* the product *)
  assert (Hxs : Rabs (B2R x) * Rabs (B2R s) <= 95 / 100 * (1 + / 1073741824) + / 1073741824).
  { apply Rle_trans with (B2R M * Rabs (B2R s)); [apply Rmult_le_compat_r; lra|].
    apply Rle_trans with (B2R M * (V * (1 + bpow (-53)) + bpow (-1075)));
      [apply Rmult_le_compat_l; lra|].
    replace (B2R M * (V * (1 + bpow (-53)) + bpow (-1075)))
      with (Vc * (1 + bpow (-53)) + B2R M * bpow (-1075)) by (rewrite <- HMV; ring).
    assert (B2R M * bpow (-1075) <= bpow 128 * bpow (-1075))
      by (apply Rmult_le_compat_r; lra).
    nra. }
  assert (Hxs971 : Rabs (B2R x) * Rabs (B2R s) < bpow 971).
  { apply Rle_lt_trans with 1; [lra|]. rewrite <- bpow_0. apply bpow_lt. lia. }
  destruct (mul_bound x s Hx Hsfin Hxs971) as [Hpfin Hp].
  set (p := mul x s) in *.
  assert (Hp1 : Rabs (B2R p) <=
                (95 / 100 * (1 + / 1073741824) + / 1073741824) * (1 + / 1073741824)
                + / 1073741824).
  { assert (0 <= Rabs (B2R x) * Rabs (B2R s)) by (apply Rmult_le_pos; lra). nra. }
  (* the store *)
  unfold y. destruct p as [sp|sp| |sp mp ep]; try discriminate.
  - simpl. split; [done|]. rewrite Rabs_R0. lra.
  - rewrite Rabs_B2R_finite in Hp1.
    destruct (fround_spec sp mp ep) as (m' & e' & Hm' & He' & Hb & Hcases).
    pose proof (half_ulp_bound 24 128 mp ep) as Hulp.
    change (emin 24 128 - 1)%Z with (-150)%Z in Hulp.
    change (- (24))%Z with (-24)%Z in Hulp. rewrite bpow_m24 in Hulp.
    assert (Hde : (Z.pos (digits2_pos mp) + ep <= 0)%Z).
    { pose proof (bpow_digits_le mp ep) as Hd.
      assert (Hlt : bpow (Z.pos (digits2_pos mp) - 1 + ep) < bpow 0) by (rewrite bpow_0; lra).
      apply bpow_lt_inv in Hlt. lia. }
    assert (HE : (fexp 24 128 (Z.pos (digits2_pos mp) + ep) <= -24)%Z)
      by (unfold fexp, emin; lia).
    assert (H0p : 0 <= IZR (Z.pos mp) * bpow ep).
    { apply Rmult_le_pos; [apply IZR_le; lia | apply Rlt_le, bpow_pos]. }
    assert (Hy : IZR m' * bpow e' <= 95 / 100).
    { destruct (Z.eq_dec (Z.pos (digits2_pos mp) + ep)%Z 0%Z) as [Hd0|Hd0].
      - (* 1/2 <= |p| < 1: the result is a multiple of 2^-24 *)
        assert (HE24 : fexp 24 128 (Z.pos (digits2_pos mp) + ep) = (-24)%Z)
          by (rewrite Hd0; reflexivity).
        rewrite HE24 in He', Hb. rewrite bpow_m24 in Hb.
        set (k := (m' * 2 ^ (e' + 24))%Z).
        assert (Hk : IZR m' * bpow e' = IZR k * / 16777216).
        { unfold k. rewrite mult_IZR, <- bpow_IZR by lia.
          rewrite <- bpow_m24, Rmult_assoc, <- bpow_add. do 2 f_equal. lia. }
        rewrite Hk in *.
        assert (Hklt : IZR k < IZR 15938356) by lra.
        apply lt_IZR in Hklt.
        assert (IZR k <= IZR 15938355) by (apply IZR_le; lia). lra.
      - (* |p| < 1/2 *)
        pose proof (digits_bounds mp) as [_ Hu]. apply IZR_lt in Hu.
        rewrite <- bpow_IZR in Hu by lia.
        assert (Hlt : IZR (Z.pos mp) * bpow ep < bpow (-1)).
        { apply Rlt_le_trans with (bpow (Z.pos (digits2_pos mp) + ep)).
          - rewrite bpow_add. pose proof (bpow_pos ep). nra.
          - apply bpow_le. lia. }
        rewrite bpow_neg_xH in Hlt. nra. }
    destruct Hcases as [[-> ->]|[(Hpos & Hle & mz & ez & -> & Hval & _)|(_ & Hgt & _)]].
    + split; [done|]. simpl. rewrite Rabs_R0. lra.
    + split; [done|]. rewrite Rabs_B2R_finite, Hval. done.
    + lia.
Qed.

Lemma clipSafe_length (outputData : Float32Array) :
  length (clipSafe outputData) = length outputData.
Proof.
  unfold clipSafe. destruct (gt _ _); [|done].
  generalize (length outputData) at 1 as n. intros n.
  induction n as [|n IH]; [done|]. rewrite for_range_S. by rewrite f32_set_length.
Qed.

(** The final step on its own.  On an output of finite binary32 samples:
    if one sample at least is not zero, every sample of the result is finite
    and at most 0.95 in absolute value; if the output is all zeros it is
    returned unchanged. *)
Lemma clipSafe_bound (outputData : Float32Array) :
  Forall is_sample outputData ->
  (Exists (fun x => is_zero x = false) outputData ->
     Forall (fun y => is_finite y = true /\ Rabs (B2R y) <= 95 / 100)
       (clipSafe outputData)) /\
  (Forall (fun x => is_zero x = true) outputData -> clipSafe outputData = outputData).
Proof.
  intros Hs.
  destruct (running_max_bound outputData pzero I Hs) as (HM & _ & Hor & Hall).
  cbv zeta in *. rewrite <- maxAmplitude_fold in *.
  set (M := maxAmplitude outputData) in *.
  split.
  - intros Hex.
    (* a sample that is not zero makes the maximum positive *)
    apply Exists_exists in Hex as (x0 & Hx0 & Hnz).
    assert (Hx0s : is_sample x0) by (by apply (proj1 (Forall_forall _ _) Hs)).
    destruct (sample_abs x0 Hx0s) as [_ [Hz|[_ Hrange0]]]; [congruence|].
    pose proof (proj1 (Forall_forall _ _) Hall x0 Hx0) as HxM0.
    pose proof (bpow_pos (-149)).
    assert (HMpos : 0 < B2R M) by lra.
    destruct Hor as [HMz|(xm & Hxm & HMx)]; [rewrite HMz in HMpos; simpl in HMpos; lra|].
    assert (Hxms : is_sample xm) by (by apply (proj1 (Forall_forall _ _) Hs)).
    destruct (sample_abs xm Hxms) as [_ Hxm'].
    assert (HMrange : bpow (-149) <= B2R M <= bpow 128).
    { destruct Hxm' as [Hz|[_ Hr]].
      - rewrite HMx in HMpos. destruct xm; try discriminate. simpl in HMpos. lra.
      - by rewrite HMx, B2R_abs. }
    assert (Hgt : gt M pzero = true).
    { unfold gt. fold (lt pzero M). apply lt_canonical; [done|done|simpl; lra]. }
    destruct M as [[]|[]| |[] mM eM] eqn:HMeq; try done.
    unfold clipSafe. fold M. rewrite HMeq, Hgt.
    apply Forall_lookup. intros i y Hy.
    rewrite (for_range_update_lookup
               (fun v => mul v (div c0_95 (S754_finite false mM eM)))) in Hy.
    destruct (decide (i < length outputData)%nat) as [Hi|Hi].
    2:{ apply lookup_lt_Some in Hy. lia. }
    destruct (outputData !! i) as [x|] eqn:Hx; [|done].
    simpl in Hy. injection Hy as <-.
    assert (Hxs : is_sample x) by (by eapply (proj1 (Forall_lookup _ _) Hs)).
    apply (scaled_sample_bound x mM eM); [apply Hxs | | done].
    by eapply (proj1 (Forall_lookup _ _) Hall).
  - intros Hz.
    assert (HMz : M = pzero).
    { destruct Hor as [|(xm & Hxm & ->)]; [done|].
      pose proof (proj1 (Forall_forall _ _) Hz xm Hxm) as Hxz.
      by destruct xm. }
    unfold clipSafe. fold M. by rewrite HMz.
Qed.



End ClipSafety.

(** ** The half-spectrum of [performFFT] *)

Lemma for_range_pair (g h : nat -> number) (n : nat) (a0 b0 : Float32Array) :
  for_range n (fun i '(a, b) => (f32_set a i (g i), f32_set b i (h i))) (a0, b0) =
  (for_range n (fun i a => f32_set a i (g i)) a0,
   for_range n (fun i b => f32_set b i (h i)) b0).
Proof.
  induction n as [|n IH]; [done|]. rewrite !for_range_S, IH. done.
Qed.

(** What [performFFT] stores in bin [i] of its two half-spectra, in terms of
    the transform [(re, im)] it has computed. *)
Lemma performFFT_bins (Math : MathImpl) (signal : Float32Array) :
  let frame := performFFT Math signal in
  let re := real frame in
  let im := imag frame in
  (re, im) = fft Math (f32_copy signal) (f32_new (length signal)) /\
  length (magnitude frame) = length signal / 2 /\
  length (phase frame) = length signal / 2 /\
  forall i, i < length signal / 2 ->
    magnitude frame !! i =
      Some (fround (Math_sqrt (add (mul (f32_get re i) (f32_get re i))
                                   (mul (f32_get im i) (f32_get im i))))) /\
    phase frame !! i = Some (fround (Math_atan2 Math (f32_get im i) (f32_get re i))).
Proof.
  unfold performFFT.
  destruct (fft Math (f32_copy signal) (f32_new (length signal))) as [re im].
  set (g := fun i => Math_sqrt (add (mul (f32_get re i) (f32_get re i))
                                    (mul (f32_get im i) (f32_get im i)))).
  set (h := fun i => Math_atan2 Math (f32_get im i) (f32_get re i)).
  change (for_range ((length signal + 1) / 2) _ (f32_new (length signal / 2), f32_new (length signal / 2)))
    with (for_range ((length signal + 1) / 2)
            (fun i '(a, b) => (f32_set a i (g i), f32_set b i (h i)))
            (f32_new (length signal / 2), f32_new (length signal / 2))).
  rewrite for_range_pair. cbn [magnitude phase real imag].
  split; [done|].
  rewrite !for_range_store_length. unfold f32_new. rewrite !length_replicate.
  split; [done|]. split; [done|].
  intros i Hi.
  assert (Hle : length signal / 2 <= (length signal + 1) / 2)
    by (apply Nat.Div0.div_le_mono; lia).
  rewrite !for_range_store_lookup, !length_replicate.
  rewrite !decide_True by lia. done.
Qed.

(** ** Magnitudes are never negative *)

Lemma mul_self_sign (r : number) : isNaN r = false -> has_sign false (mul r r).
Proof.
  destruct r as [s|s| |s m e]; try done; intros _; simpl; try (by destruct s).
  unfold mul, SFmul. destruct s; apply (binary_round_aux_sign 53 1024 false); lia.
Qed.

Lemma mul_NaN (r : number) : isNaN r = true -> mul r r = NaN.
Proof. by destruct r. Qed.

Lemma add_sign_false (a b : number) :
  has_sign false a -> has_sign false b -> has_sign false (add a b).
Proof.
  destruct a as [sa|sa| |sa ma ea], b as [sb|sb| |sb mb eb]; simpl; try done;
    intros ->; try intros ->; try done.
  unfold add, SFadd. simpl.
  apply (binary_round_sign 53 1024 false).
Qed.

Lemma add_NaN_l (a b : number) : isNaN a = true -> add a b = NaN.
Proof. by destruct a. Qed.

Lemma add_NaN_r (a b : number) : isNaN b = true -> add a b = NaN.
Proof. destruct b; try done. by destruct a. Qed.

Lemma sqrt_sign_false (a : number) : has_sign false a -> has_sign false (Math_sqrt a).
Proof.
  destruct a as [sa|sa| |sa ma ea]; simpl; try done; intros ->; try done.
  unfold Math_sqrt, SFsqrt, SFsqrt_core_binary.
  match goal with |- context [Z.sqrtrem ?m] =>
    pose proof (Z.sqrtrem_sqrt m) as Hq; pose proof (Z.sqrt_nonneg m) as H0;
    destruct (Z.sqrtrem m) as [q r] end.
  simpl in Hq. subst q. apply binary_round_aux_sign. done.
Qed.

(** The value [performFFT] stores as a magnitude. *)
Lemma magnitude_value (re im : number) :
  let m := fround (Math_sqrt (add (mul re re) (mul im im))) in
  (isNaN re || isNaN im = true -> m = NaN) /\
  (isNaN re || isNaN im = false -> has_sign false m /\ le pzero m = true).
Proof.
  cbv zeta. split.
  - intros H. apply orb_true_iff in H as [H|H].
    + by rewrite (mul_NaN re H), add_NaN_l.
    + by rewrite (mul_NaN im H), add_NaN_r.
  - intros H. apply orb_false_iff in H as [Hr Hi].
    assert (Hs : has_sign false (fround (Math_sqrt (add (mul re re) (mul im im))))).
    { apply fround_sign, sqrt_sign_false, add_sign_false; by apply mul_self_sign. }
    split; [done|]. by apply has_sign_false_nonneg.
Qed.

(** ** Phases stay within the binary32 rounding of pi *)

Lemma fround_Math_PI : fround Math_PI = S754_finite false 7074237948887040 (-51).
Proof. vm_compute. reflexivity. Qed.

Section PhaseRange.
Local Open Scope R_scope.

Lemma B2R_fround_Math_PI : B2R (fround Math_PI) = 13176795 / 4194304.
Proof.
  rewrite fround_Math_PI. simpl.
  assert (Hb : bpow (-51) = / IZR (2 ^ 51)).
  { change (-51)%Z with (- (51))%Z. rewrite bpow_opp, bpow_IZR by lia. done. }
  rewrite Hb.
  replace 7074237948887040 with (13176795 * IZR (2 ^ 29)) by (rewrite <- mult_IZR; f_equal).
  replace (IZR (2 ^ 51)) with (4194304 * IZR (2 ^ 29)) by (rewrite <- mult_IZR; f_equal).
  assert (0 < IZR (2 ^ 29)) by (apply IZR_lt; lia).
  field. lra.
Qed.

(** The binary32 rounding of [Math.PI] lies above pi. *)
Lemma PI_lt_fround_Math_PI : Rtrigo1.PI < B2R (fround Math_PI).
Proof.
  rewrite B2R_fround_Math_PI.
  pose proof (PI_2_3_7_ineq 3) as [_ H].
  unfold sum_f_R0, tg_alt, PI_2_3_7_tg, Ratan_seq in H.
  simpl in H. lra.
Qed.

Lemma B2R_Math_PI : B2R Math_PI = 7074237752028440 * bpow (-51).
Proof. reflexivity. Qed.

Lemma fround_PI_bound (v : number) :
  is_finite v = true -> Rabs (B2R v) <= B2R Math_PI ->
  is_finite (fround v) = true /\ Rabs (B2R (fround v)) <= B2R (fround Math_PI).
Proof.
  intros Hfin Hv. rewrite B2R_fround_Math_PI.
  destruct v as [s|s| |s m e]; try discriminate.
  - simpl. rewrite Rabs_R0. split; [done|lra].
  - rewrite Rabs_B2R_finite, B2R_Math_PI in Hv.
    assert (Hb51 : bpow (-51) = / IZR (2 ^ 51)).
    { change (-51)%Z with (- (51))%Z. rewrite bpow_opp, bpow_IZR by lia. done. }
    assert (Hb22 : bpow (-22) = / 4194304).
    { unfold bpow. simpl. lra. }
    assert (Hpi : 7074237752028440 * bpow (-51) < 13176796 / 4194304 - / 2 * / 4194304).
    { rewrite Hb51.
      apply Rmult_lt_reg_r with (IZR (2 ^ 51)); [apply IZR_lt; lia|].
      rewrite Rmult_assoc, Rinv_l by (apply not_0_IZR; lia).
      replace (IZR (2 ^ 51)) with (4194304 * 536870912) by (rewrite <- mult_IZR; f_equal).
      lra. }
    destruct (fround_spec s m e) as (m' & e' & Hm' & He' & Hb & Hcases).
    pose proof (bpow_digits_le m e) as Hd.
    assert (Hde : (Z.pos (digits2_pos m) + e <= 2)%Z).
    { assert (Hlt : bpow (Z.pos (digits2_pos m) - 1 + e) < bpow 2).
      { apply Rle_lt_trans with (7074237752028440 * bpow (-51)); [lra|].
        apply Rlt_le_trans with 4; [lra|]. unfold bpow. simpl. lra. }
      apply bpow_lt_inv in Hlt. lia. }
    assert (HE : (fexp 24 128 (Z.pos (digits2_pos m) + e) <= -22)%Z)
      by (unfold fexp, emin; lia).
    assert (Hy : IZR m' * bpow e' <= 13176795 / 4194304).
    { destruct (Z.eq_dec (Z.pos (digits2_pos m) + e)%Z 2%Z) as [Hd2|Hd2].
      - assert (HE22 : fexp 24 128 (Z.pos (digits2_pos m) + e) = (-22)%Z)
          by (rewrite Hd2; reflexivity).
        rewrite HE22 in He', Hb. rewrite Hb22 in Hb.
        set (k := (m' * 2 ^ (e' + 22))%Z).
        assert (Hk : IZR m' * bpow e' = IZR k * / 4194304).
        { unfold k. rewrite mult_IZR, <- bpow_IZR by lia.
          rewrite <- Hb22, Rmult_assoc, <- bpow_add. do 2 f_equal. lia. }
        rewrite Hk in *.
        assert (Hklt : IZR k < IZR 13176796).
        { apply Rmult_lt_reg_r with (/ 4194304); lra. }
        apply lt_IZR in Hklt.
        assert (IZR k <= IZR 13176795) by (apply IZR_le; lia). lra.
      - pose proof (digits_bounds m) as [_ Hu]. apply IZR_lt in Hu.
        rewrite <- bpow_IZR in Hu by lia.
        assert (Hlt : IZR (Z.pos m) * bpow e < bpow 1).
        { apply Rlt_le_trans with (bpow (Z.pos (digits2_pos m) + e)).
          - rewrite bpow_add. pose proof (bpow_pos e). nra.
          - apply bpow_le. lia. }
        rewrite bpow_1 in Hlt.
        assert (bpow (fexp 24 128 (Z.pos (digits2_pos m) + e)) <= bpow (-22))
          by (apply bpow_le; lia).
        rewrite Hb22 in *. lra. }
    destruct Hcases as [[-> ->]|[(Hpos & Hle & mz & ez & -> & Hval & _)|(_ & Hgt & _)]].
    + split; [done|]. simpl. rewrite Rabs_R0. lra.
    + split; [done|]. rewrite Rabs_B2R_finite, Hval. done.
    + lia.
Qed.

End PhaseRange.

(** ** The invariant of a half-spectrum frame *)

Lemma performFFT_frame_ok (Math : MathImpl) (signal : Float32Array) :
  atan2_in_range Math -> frame_ok (performFFT Math signal).
Proof.
  intros Hatan.
  destruct (performFFT_bins Math signal) as (_ & Hlm & Hlp & Hbins).
  cbv zeta in Hbins. split.
  - apply Forall_lookup. intros i m Hm.
    assert (Hi : i < length signal / 2) by (apply lookup_lt_Some in Hm; lia).
    destruct (Hbins i Hi) as [Hmag _]. rewrite Hmag in Hm. injection Hm as <-.
    set (re := f32_get (real (performFFT Math signal)) i).
    set (im := f32_get (imag (performFFT Math signal)) i).
    destruct (magnitude_value re im) as [Hnan Hok]. cbv zeta in Hnan, Hok.
    destruct (isNaN re || isNaN im) eqn:E.
    + left. by rewrite Hnan.
    + right. by apply Hok.
  - apply Forall_lookup. intros i p Hp.
    assert (Hi : i < length signal / 2) by (apply lookup_lt_Some in Hp; lia).
    destruct (Hbins i Hi) as [_ Hph]. rewrite Hph in Hp. injection Hp as <-.
    destruct (Hatan (f32_get (imag (performFFT Math signal)) i)
                    (f32_get (real (performFFT Math signal)) i)) as [Hn|[Hf Hr]].
    + left. by rewrite fround_NaN.
    + right. by apply fround_PI_bound.
Qed.

Lemma stft_loop_frames (Math : MathImpl) (P : fft_frame -> Prop)
    (fuel : nat) (cd w : Float32Array) (N H i : Z) (acc frames : list fft_frame) :
  (forall signal, P (performFFT Math signal)) ->
  Forall P acc ->
  stft_loop Math fuel cd w N H i acc = Ok frames -> Forall P frames.
Proof.
  intros HP. revert i acc. induction fuel as [|fuel IH]; intros i acc Hacc; simpl;
    destruct (i + N <=? Z.of_nat (length cd))%Z; try discriminate;
    try (intros [= <-]; done).
  apply IH. apply Forall_app. split; [done|]. constructor; [apply HP|constructor].
Qed.

(** C8, as amended.  In every frame of [performFFT], hence of
    [performSTFT], a magnitude is at least 0 unless it is NaN, and a phase is
    NaN or finite with absolute value at most the binary32 rounding of
    [Math.PI] (about 3.14159274, above pi), provided [Math.atan2] keeps to
    its range. *)
Theorem half_spectrum_invariant (Math : MathImpl) :
  atan2_in_range Math ->
  (forall signal, frame_ok (performFFT Math signal)) /\
  (forall fuel buffer windowSize overlapPercent frames,
     performSTFT Math fuel buffer windowSize overlapPercent = Ok frames ->
     Forall frame_ok frames).
Proof.
  intros Hatan. split; [intros; by apply performFFT_frame_ok|].
  intros fuel buffer N O frames. unfold performSTFT.
  destruct (N <? 0)%Z; [discriminate|].
  apply stft_loop_frames; [|constructor].
  intros signal. by apply performFFT_frame_ok.
Qed.

Lemma atan2_table_in_range : atan2_in_range Math_table.
Proof.
  intros y x. simpl. unfold atan2_table.
  assert (HPI : is_finite Math_PI = true /\ (Rabs (B2R Math_PI) <= B2R Math_PI)%R).
  { split; [done|]. rewrite Rabs_pos_eq; [lra|]. apply Rlt_le, B2R_finite_pos. }
  assert (HnPI : is_finite (neg Math_PI) = true /\
                 (Rabs (B2R (neg Math_PI)) <= B2R Math_PI)%R).
  { split; [done|]. unfold Math_PI at 1. simpl neg. rewrite Rabs_B2R_finite.
    unfold Math_PI. simpl. lra. }
  assert (Hz : forall s, is_finite (S754_zero s) = true /\
                         (Rabs (B2R (S754_zero s)) <= B2R Math_PI)%R).
  { intros s. split; [done|]. simpl B2R at 1. rewrite Rabs_R0.
    apply Rlt_le, B2R_finite_pos. }
  destruct y as [sy| | |]; auto.
  destruct x as [[]|[]| |[] ? ?]; auto; destruct sy; auto.
Qed.

(** The transform of the two samples [-1, -1] has the DC bin [-2 + 0i],
    whatever [Math.cos] and [Math.sin] return: one butterfly with the
    twiddle factor [1 + 0i]. *)
Lemma phase_of_negative_dc (Math : MathImpl) :
  phase (performFFT Math [of_Z (-1); of_Z (-1)]) =
  [fround (Math_atan2 Math pzero (of_Z (-2)))].
Proof. vm_compute. reflexivity. Qed.

(** Four samples of the largest binary32 magnitude with alternating signs
    overflow the DC bin: its two halves are [+Infinity] and [-Infinity], and
    their sum is NaN, whatever the [Math] functions return. *)
Lemma magnitude_of_overflow (Math : MathImpl) :
  Forall is_sample loud4 /\ magnitude (performFFT Math loud4) !! 0 = Some NaN.
Proof. split; [repeat constructor | vm_compute; reflexivity]. Qed.

(** C8, the counterexample.  The frame of the two samples [-1, -1] has the
    DC bin [-2 + 0i]; its phase is [Math.atan2(+0, -2)], that is [Math.PI],
    stored as a binary32: a value above [Math.PI] and above pi.  And the
    frame of four finite samples that overflow has a NaN magnitude, which is
    not [>= 0]. *)
Lemma half_spectrum_claim_fails :
  phase (performFFT Math_table [of_Z (-1); of_Z (-1)]) = [fround Math_PI] /\
  lt Math_PI (fround Math_PI) = true /\
  (Rtrigo1.PI < B2R (fround Math_PI))%R /\
  magnitude (performFFT Math_table loud4) !! 0 = Some NaN /\
  le pzero NaN = false.
Proof.
  split; [vm_compute; reflexivity|]. split; [vm_compute; reflexivity|].
  split; [apply PI_lt_fround_Math_PI|]. split; [|reflexivity].
  apply magnitude_of_overflow.
Qed.
(** * Part V: more of operations.js *)

(** ** The order of numbers *)

Lemma SFcompare_key (a b : number) :
  isNaN a = false -> isNaN b = false ->
  SFcompare a b = Some (key_compare (key a) (key b)).
Proof.
  destruct a as [sa|sa| |sa ma ea], b as [sb|sb| |sb mb eb]; try discriminate; intros _ _;
    try (destruct sa, sb; reflexivity).
  simpl. destruct sa, sb; simpl; try reflexivity.
  f_equal. rewrite Z.compare_opp, (Z.compare_antisym ea eb).
  destruct (ea ?= eb)%Z; reflexivity.
Qed.

Lemma key_compare_refl (a : Z * Z * Z) : key_compare a a = Eq.
Proof. destruct a as [[a1 a2] a3]. simpl. by rewrite !Z.compare_refl. Qed.

Lemma key_compare_Lt (a b : Z * Z * Z) :
  key_compare a b = Lt <->
  let '(a1, a2, a3) := a in
  let '(b1, b2, b3) := b in
  (a1 < b1 \/ (a1 = b1 /\ (a2 < b2 \/ (a2 = b2 /\ a3 < b3))))%Z.
Proof.
  destruct a as [[a1 a2] a3], b as [[b1 b2] b3]. simpl.
  destruct (Z.compare_spec a1 b1), (Z.compare_spec a2 b2), (Z.compare_spec a3 b3);
    split; intros; try discriminate; try reflexivity; try lia.
Qed.

Lemma key_compare_Eq (a b : Z * Z * Z) : key_compare a b = Eq <-> a = b.
Proof.
  destruct a as [[a1 a2] a3], b as [[b1 b2] b3]. simpl.
  destruct (Z.compare_spec a1 b1), (Z.compare_spec a2 b2), (Z.compare_spec a3 b3);
    split; intros H'; try discriminate; try reflexivity; try (injection H'; lia); subst; done.
Qed.

Lemma key_compare_Gt (a b : Z * Z * Z) : key_compare a b = Gt <-> key_compare b a = Lt.
Proof.
  rewrite (key_compare_Lt b a).
  destruct a as [[a1 a2] a3], b as [[b1 b2] b3]. simpl.
  destruct (Z.compare_spec a1 b1), (Z.compare_spec a2 b2), (Z.compare_spec a3 b3);
    split; intros; try discriminate; try reflexivity; try lia.
Qed.

(** [a <= b] and [a < b] through the keys. *)
Lemma le_key (a b : number) :
  isNaN a = false -> isNaN b = false ->
  (le a b = true <-> key_compare (key b) (key a) <> Lt).
Proof.
  intros Ha Hb. unfold le, SFleb. rewrite (SFcompare_key a b Ha Hb).
  destruct (key_compare (key a) (key b)) eqn:E.
  - apply key_compare_Eq in E. rewrite E, key_compare_refl. split; [discriminate|done].
  - split; [|done]. intros _ H. apply key_compare_Gt in H. congruence.
  - apply key_compare_Gt in E. split; [discriminate|]. congruence.
Qed.

Lemma lt_key (a b : number) :
  isNaN a = false -> isNaN b = false ->
  (lt a b = true <-> key_compare (key a) (key b) = Lt).
Proof.
  intros Ha Hb. unfold lt, SFltb. rewrite (SFcompare_key a b Ha Hb).
  destruct (key_compare (key a) (key b)); split; congruence.
Qed.

Lemma le_NaN_l (b : number) : le NaN b = false.
Proof. reflexivity. Qed.

Lemma le_not_NaN (a b : number) : le a b = true -> isNaN a = false /\ isNaN b = false.
Proof.
  unfold le, SFleb. destruct (SFcompare a b) eqn:E; [|discriminate]. intros _.
  destruct a, b; try discriminate; done.
Qed.

Lemma le_refl (a : number) : isNaN a = false -> le a a = true.
Proof. intros Ha. apply le_key; [done|done|]. by rewrite key_compare_refl. Qed.

Lemma le_trans (a b c : number) : le a b = true -> le b c = true -> le a c = true.
Proof.
  intros Hab Hbc.
  destruct (le_not_NaN _ _ Hab) as [Ha Hb]. destruct (le_not_NaN _ _ Hbc) as [_ Hc].
  apply le_key in Hab, Hbc; try done. apply le_key; try done.
  rewrite key_compare_Lt in *.
  destruct (key a) as [[a1 a2] a3], (key b) as [[b1 b2] b3], (key c) as [[c1 c2] c3]. lia.
Qed.

(** The order is total on the numbers that are not NaN. *)
Lemma lt_false_le (a b : number) :
  isNaN a = false -> isNaN b = false -> lt a b = false -> le b a = true.
Proof.
  intros Ha Hb H. apply le_key; try done. intros E.
  apply (lt_key a b Ha Hb) in E. congruence.
Qed.

Lemma lt_le (a b : number) : lt a b = true -> le a b = true.
Proof.
  unfold lt, le, SFltb, SFleb. by destruct (SFcompare a b) as [[]|].
Qed.

Lemma gt_false_le (a b : number) :
  isNaN a = false -> isNaN b = false -> gt a b = false -> le a b = true.
Proof. intros Ha Hb H. by apply lt_false_le. Qed.

Lemma gt_le (a b : number) : gt a b = true -> le b a = true.
Proof. apply lt_le. Qed.

(** ** findMax and findMin *)

Lemma findMin_cons (x : number) (l : Float32Array) :
  findMin (x :: l) =
  fold_left (fun min y => if lt y min then y else min) l (or_else (Some x) pzero).
Proof.
  unfold findMin. cbn [length]. rewrite Nat.sub_succ, Nat.sub_0_r.
  change ((x :: l) !! 0) with (Some x).
  apply (for_range_fold_elems l (x :: l) 1 (fun v min => if lt v min then v else min)).
  intros k y Hk. exact Hk.
Qed.

Lemma lt_not_NaN (a b : number) : lt a b = true -> isNaN a = false /\ isNaN b = false.
Proof. intros H. apply le_not_NaN. by apply lt_le. Qed.

Lemma or_else_zero_not_NaN (x : number) : isNaN (or_else (Some x) pzero) = false.
Proof. by destruct x. Qed.

Lemma or_else_zero_cases (x : number) :
  or_else (Some x) pzero = x \/
  (or_else (Some x) pzero = pzero /\ (is_zero x = true \/ isNaN x = true)).
Proof. destruct x; simpl; auto. Qed.

(** The running maximum: never NaN; one of the numbers seen, or the start;
    above the start and above every number seen that is not NaN. *)
Lemma running_max_spec (l : Float32Array) (init : number) :
  isNaN init = false ->
  let max := fold_left (fun max y => if gt y max then y else max) l init in
  isNaN max = false /\ (max = init \/ In max l) /\ le init max = true /\
  Forall (fun x => isNaN x = false -> le x max = true) l.
Proof.
  revert init. induction l as [|y l IH]; intros init Hinit; simpl.
  - repeat split; auto using le_refl.
  - destruct (gt y init) eqn:Hgt.
    + destruct (lt_not_NaN _ _ Hgt) as [_ Hy].
      destruct (IH y Hy) as (Hn & Hin & Hle & Hall).
      repeat split;
        [done | destruct Hin as [Hin|Hin]; [right; left; by rewrite Hin | right; by right] | |].
      * eapply le_trans; [|exact Hle]. by apply gt_le.
      * constructor; [done|exact Hall].
    + destruct (IH init Hinit) as (Hn & Hin & Hle & Hall).
      repeat split; [done | destruct Hin as [Hin|Hin]; [by left | right; by right] | done |].
      constructor; [|exact Hall].
      intros Hy. eapply le_trans; [|exact Hle]. by apply gt_false_le.
Qed.

Lemma running_min_spec (l : Float32Array) (init : number) :
  isNaN init = false ->
  let min := fold_left (fun min y => if lt y min then y else min) l init in
  isNaN min = false /\ (min = init \/ In min l) /\ le min init = true /\
  Forall (fun x => isNaN x = false -> le min x = true) l.
Proof.
  revert init. induction l as [|y l IH]; intros init Hinit; simpl.
  - repeat split; auto using le_refl.
  - destruct (lt y init) eqn:Hlt.
    + destruct (lt_not_NaN _ _ Hlt) as [Hy _].
      destruct (IH y Hy) as (Hn & Hin & Hle & Hall).
      repeat split;
        [done | destruct Hin as [Hin|Hin]; [right; left; by rewrite Hin | right; by right] | |].
      * eapply le_trans; [exact Hle|]. by apply lt_le.
      * constructor; [done|exact Hall].
    + destruct (IH init Hinit) as (Hn & Hin & Hle & Hall).
      repeat split; [done | destruct Hin as [Hin|Hin]; [by left | right; by right] | done |].
      constructor; [|exact Hall].
      intros Hy. eapply le_trans; [exact Hle|]. by apply lt_false_le.
Qed.

Lemma le_zero_pzero (x : number) : is_zero x = true -> le x pzero = true /\ le pzero x = true.
Proof. destruct x as [[]| | |]; try discriminate; done. Qed.

(** What [findMax] and [findMin] return. *)
Lemma findMax_findMin_spec (arr : Float32Array) :
  (isNaN (findMax arr) = false /\ (findMax arr = pzero \/ In (findMax arr) arr)) /\
  (isNaN (findMin arr) = false /\ (findMin arr = pzero \/ In (findMin arr) arr)) /\
  (Forall (fun x => isNaN x = false) arr ->
     Forall (fun x => le x (findMax arr) = true /\ le (findMin arr) x = true) arr).
Proof.
  destruct arr as [|x l]; [repeat split; auto|].
  pose proof (running_max_spec l _ (or_else_zero_not_NaN x)) as HM.
  pose proof (running_min_spec l _ (or_else_zero_not_NaN x)) as Hm.
  cbv zeta in HM, Hm. rewrite <- findMax_cons in HM. rewrite <- findMin_cons in Hm.
  destruct HM as (HnM & HinM & HleM & HallM). destruct Hm as (Hnm & Hinm & Hlem & Hallm).
  set (M := findMax (x :: l)) in *. set (m := findMin (x :: l)) in *.
  assert (HM : M = pzero \/ In M (x :: l)).
  { destruct HinM as [->|]; [|right; by right].
    destruct (or_else_zero_cases x) as [->|[-> _]]; [right; by left|by left]. }
  assert (Hm : m = pzero \/ In m (x :: l)).
  { destruct Hinm as [->|]; [|right; by right].
    destruct (or_else_zero_cases x) as [->|[-> _]]; [right; by left|by left]. }
  split; [done|]. split; [done|].
  intros Hall. inversion_clear Hall as [|? ? Hx Hl].
  assert (Hx0 : le x (or_else (Some x) pzero) = true /\ le (or_else (Some x) pzero) x = true).
  { destruct (or_else_zero_cases x) as [->|[-> [Hz|Hnan]]].
    - split; by apply le_refl.
    - by apply le_zero_pzero.
    - congruence. }
  constructor.
  - split; [eapply le_trans; [apply Hx0|done] | eapply le_trans; [done|apply Hx0]].
  - apply Forall_forall. intros y Hy.
    pose proof (proj1 (Forall_forall _ _) Hl y Hy) as Hyn.
    split.
    + by apply (proj1 (Forall_forall _ _) HallM y Hy).
    + by apply (proj1 (Forall_forall _ _) Hallm y Hy).
Qed.

(** X1.  [findMax] and [findMin] never return NaN, and what they return is
    [+0] or an element of the array ([+0] stands for a first element that is
    missing, zero or NaN, as [arr[0] || 0] has it).  When no element is NaN,
    every element lies between [findMin] and [findMax] of the array. *)
Theorem findMax_findMin_bounds (arr : Float32Array) :
  (isNaN (findMax arr) = false /\ (findMax arr = pzero \/ In (findMax arr) arr)) /\
  (isNaN (findMin arr) = false /\ (findMin arr = pzero \/ In (findMin arr) arr)) /\
  (Forall (fun x => isNaN x = false) arr ->
     Forall (fun x => le x (findMax arr) = true /\ le (findMin arr) x = true) arr).
Proof. apply findMax_findMin_spec. Qed.

(** ** Signs of sums, differences, products and quotients *)

Lemma nonneg_not_NaN (x : number) : le pzero x = true -> isNaN x = false.
Proof. by destruct x. Qed.

Lemma is_zero_nonneg (x : number) : is_zero x = true -> le pzero x = true.
Proof. by destruct x as [[]| | |]. Qed.

Lemma fround_nonneg (x : number) : le pzero x = true -> le pzero (fround x) = true.
Proof.
  intros H. destruct (nonneg_cases x H) as [Hz|Hs].
  - destruct x; try discriminate. exact H.
  - by apply has_sign_false_nonneg, fround_sign.
Qed.

Lemma abs_nonneg (x : number) : isNaN x = false -> le pzero (Math_abs x) = true.
Proof. by destruct x. Qed.

Lemma add_nonneg (x y : number) :
  le pzero x = true -> le pzero y = true -> le pzero (add x y) = true.
Proof.
  intros Hx Hy.
  destruct (nonneg_cases x Hx) as [Hzx|Hsx], (nonneg_cases y Hy) as [Hzy|Hsy].
  - destruct x as [[]| | |], y as [[]| | |]; try discriminate; reflexivity.
  - destruct x as [sx| | |]; try discriminate.
    destruct y as [sy|sy| |sy my ey]; try done. by destruct sx, sy.
  - destruct y as [sy| | |]; try discriminate.
    destruct x as [sx|sx| |sx mx ex]; try done. by destruct sx, sy.
  - by apply has_sign_false_nonneg, add_sign_false.
Qed.

Lemma mul_nonneg (x y : number) :
  le pzero x = true -> le pzero y = true ->
  is_finite x = true \/ is_zero y = false ->
  is_finite y = true \/ is_zero x = false ->
  le pzero (mul x y) = true.
Proof.
  intros Hx Hy H1 H2.
  destruct x as [sx|sx| |sx mx ex], y as [sy|sy| |sy my ey]; try discriminate;
    try (destruct sx, sy; try discriminate; reflexivity);
    try (destruct H1; discriminate); try (destruct H2; discriminate).
  destruct sx, sy; try discriminate.
  apply has_sign_false_nonneg. unfold mul, SFmul.
  apply (binary_round_aux_sign 53 1024 false). lia.
Qed.

Lemma div_nonneg (x y : number) :
  le pzero x = true -> has_sign false y -> is_finite y = true -> is_zero y = false ->
  le pzero (div x y) = true.
Proof.
  intros Hx Hy Hf Hz.
  destruct y as [sy|sy| |sy my ey]; try discriminate. simpl in Hy. subst sy.
  destruct x as [sx|sx| |sx mx ex]; try discriminate; try (destruct sx; try discriminate; reflexivity).
  destruct sx; try discriminate.
  apply has_sign_false_nonneg. unfold div, SFdiv.
  destruct (SFdiv_core_binary 53 1024 (Z.pos mx) ex (Z.pos my) ey) as [[mz ez] lz] eqn:Hcore.
  apply (binary_round_aux_sign 53 1024 false).
  unfold SFdiv_core_binary in Hcore.
  match type of Hcore with context [Z.div_eucl ?a ?b] =>
    pose proof (Z_div_mod a b ltac:(lia)) as Hdm;
    assert (Ha : (0 <= a)%Z);
    [| destruct (Z.div_eucl a b) as [q r] eqn:Hqr ] end.
  { destruct (ex - ey - _)%Z as [|p|p]; try lia. rewrite Z.shiftl_mul_pow2 by lia.
    pose proof (Z.pow_pos_nonneg 2 (Z.pos p)). nia. }
  injection Hcore as <- _ _. nia.
Qed.

(** The difference of two numbers in canonical form, the larger first, is
    not negative. *)
Lemma sub_nonneg (x y : number) :
  canonical_nonneg_or_zero x -> canonical_nonneg_or_zero y -> le y x = true ->
  le pzero (sub x y) = true.
Proof.
  intros Cx Cy Hle.
  destruct x as [sx|sx| |sx mx ex], y as [sy|sy| |sy my ey]; try done;
    try (destruct sx, sy; done); try (destruct sx; done).
  destruct sx, sy; try done. simpl in Cx, Cy.
  apply le_key in Hle; [|done|done]. rewrite key_compare_Lt in Hle. simpl in Hle.
  unfold sub, SFsub. cbv zeta.
  assert (Hd : (0 <= Z.pos (fst (shl_align mx ex (Z.min ex ey))) -
                     Z.pos (fst (shl_align my ey (Z.min ex ey))))%Z).
  { destruct (Z_lt_le_dec ey ex) as [Hlt|Hge].
    - rewrite Z.min_r by lia.
      destruct (shl_align_spec mx ex ey ltac:(lia)) as (mz & -> & Hmz & _).
      destruct (shl_align_spec my ey ey ltac:(lia)) as (mz' & -> & Hmz' & _).
      simpl. rewrite Hmz, Hmz', Z.sub_diag, Z.mul_1_r.
      unfold canonical64, fexp, emin in Cx, Cy.
      pose proof (digits_bounds mx) as [Hlo _]. pose proof (digits_bounds my) as [_ Hhi].
      assert (Hdx : Z.pos (digits2_pos mx) = 53%Z) by lia.
      assert (Hdy : (Z.pos (digits2_pos my) <= 53)%Z) by lia.
      rewrite Hdx in Hlo.
      assert (2 ^ Z.pos (digits2_pos my) <= 2 ^ 53)%Z by (apply Z.pow_le_mono_r; lia).
      assert (2 ^ 1 <= 2 ^ (ex - ey))%Z by (apply Z.pow_le_mono_r; lia).
      change (2 ^ (53 - 1))%Z with 4503599627370496%Z in Hlo.
      change (2 ^ 53)%Z with 9007199254740992%Z in *. change (2 ^ 1)%Z with 2%Z in *. nia.
    - assert (ex = ey) by lia. subst ey. rewrite Z.min_id.
      destruct (shl_align_spec mx ex ex ltac:(lia)) as (mz & -> & Hmz & _).
      destruct (shl_align_spec my ex ex ltac:(lia)) as (mz' & -> & Hmz' & _).
      simpl. rewrite Hmz, Hmz', Z.sub_diag, !Z.mul_1_r. lia. }
  simpl cond_Zopp.
  destruct (Z.pos _ - Z.pos _)%Z as [|p|p] eqn:E; [done| |lia].
  apply has_sign_false_nonneg. simpl. apply binary_round_sign.
Qed.

(** ** The ten operators keep a spectrum a spectrum *)

Lemma is_magnitude_pzero : is_magnitude pzero.
Proof. repeat split. Qed.

Lemma is_magnitude_canonical (x : number) : is_magnitude x -> canonical_nonneg_or_zero x.
Proof.
  intros (Hf & Hle & H32). destruct x as [s|s| |s m e]; try done.
  destruct s; [done|]. simpl. by apply fround_fixed_finite in H32 as [? _].
Qed.

Lemma findMax_magnitude (a : Float32Array) :
  Forall is_magnitude a ->
  is_magnitude (findMax a) /\ Forall (fun x => le x (findMax a) = true) a.
Proof.
  intros Ha. destruct (findMax_findMin_spec a) as ((_ & Hin) & _ & Hall). split.
  - destruct Hin as [->|Hin]; [apply is_magnitude_pzero|].
    apply list_elem_of_In in Hin. by apply (proj1 (Forall_forall _ _) Ha).
  - assert (Hnn : Forall (fun x => isNaN x = false) a)
      by (eapply Forall_impl; [exact Ha|apply is_magnitude_not_NaN]).
    eapply Forall_impl; [exact (Hall Hnn)|]. by intros x [? _].
Qed.

Lemma findMin_magnitude (a : Float32Array) :
  Forall is_magnitude a ->
  is_magnitude (findMin a) /\ Forall (fun x => le (findMin a) x = true) a.
Proof.
  intros Ha. destruct (findMax_findMin_spec a) as (_ & (_ & Hin) & Hall). split.
  - destruct Hin as [->|Hin]; [apply is_magnitude_pzero|].
    apply list_elem_of_In in Hin. by apply (proj1 (Forall_forall _ _) Ha).
  - assert (Hnn : Forall (fun x => isNaN x = false) a)
      by (eapply Forall_impl; [exact Ha|apply is_magnitude_not_NaN]).
    eapply Forall_impl; [exact (Hall Hnn)|]. by intros x [_ ?].
Qed.

(** Every bin of [fill magA f] has the property that [f] has at every
    index. *)
Lemma fill_Forall (P : number -> Prop) (magA : Float32Array) (f : nat -> number) :
  (forall i, i < length magA -> P (fround (f i))) -> Forall P (fill magA f).
Proof.
  intros H. apply Forall_lookup. intros i z Hz. rewrite fill_lookup in Hz.
  case_decide; [|done]. injection Hz as <-. by apply H.
Qed.

Lemma squared_nonneg (x maxA : number) :
  is_magnitude x -> is_magnitude maxA -> le x maxA = true ->
  le pzero (mul (mul (div x (or_else (Some maxA) one)) (div x (or_else (Some maxA) one))) maxA) = true.
Proof.
  intros Hx HM Hle.
  destruct HM as (HMf & HMle & _). destruct Hx as (Hxf & Hxle & _).
  destruct maxA as [sM|sM| |sM mM eM]; try discriminate.
  - (* the maximum is a zero: so is [x], and the guard is 1 *)
    assert (Hxz : is_zero x = true)
      by (destruct x as [sx|[]| |[] mx ex], sM; done).
    destruct x as [[]| | |], sM; try discriminate; reflexivity.
  - destruct sM; [discriminate|].
    change (or_else (Some (S754_finite false mM eM)) one) with (S754_finite false mM eM).
    set (n := div x (S754_finite false mM eM)).
    assert (Hn : le pzero n = true) by (by apply div_nonneg).
    pose proof (mul_self_sign n (nonneg_not_NaN n Hn)) as Hnn.
    apply mul_nonneg; [by apply has_sign_false_nonneg|done|by right|by left].
Qed.

Section Closure.

Variables a b : Float32Array.
Hypothesis same_length : length a = length b.
Hypothesis mag_a : Forall is_magnitude a.
Hypothesis mag_b : Forall is_magnitude b.

Let nonneg (z : number) : Prop := le pzero z = true.

Lemma closure_get_a (i : nat) : i < length a -> is_magnitude (f32_get a i).
Proof using mag_a.
  intros Hi. destruct (lookup_lt_is_Some_2 a i Hi) as [x Hx].
  rewrite (f32_get_Some _ _ _ Hx). by apply (proj1 (Forall_lookup _ _) mag_a i).
Qed.

Lemma closure_get_b (i : nat) : i < length a -> is_magnitude (f32_get b i).
Proof using mag_b same_length.
  intros Hi. destruct (lookup_lt_is_Some_2 b i ltac:(lia)) as [x Hx].
  rewrite (f32_get_Some _ _ _ Hx). by apply (proj1 (Forall_lookup _ _) mag_b i).
Qed.

Lemma get_le_max (l : Float32Array) (i : nat) :
  Forall is_magnitude l -> i < length l -> le (f32_get l i) (findMax l) = true.
Proof using Type.
  intros Hl Hi. destruct (lookup_lt_is_Some_2 l i Hi) as [x Hx].
  rewrite (f32_get_Some _ _ _ Hx).
  by apply (proj1 (Forall_lookup _ _) (proj2 (findMax_magnitude l Hl)) i).
Qed.

Lemma and_nonneg : Forall nonneg (and a b).
Proof using same_length mag_a mag_b.
  apply fill_Forall. intros i Hi. apply fround_nonneg.
  destruct (closure_get_a i Hi) as (_ & Ha & _), (closure_get_b i Hi) as (_ & Hb & _).
  destruct (Math_min_cases (f32_get a i) (f32_get b i)) as [->|[->|HN]]; try done.
  pose proof (Math_min_not_NaN _ _ (nonneg_not_NaN _ Ha) (nonneg_not_NaN _ Hb)) as H.
  rewrite HN in H. discriminate.
Qed.

Lemma or_nonneg : Forall nonneg (or a b).
Proof using same_length mag_a mag_b.
  apply fill_Forall. intros i Hi. apply fround_nonneg.
  destruct (closure_get_a i Hi) as (_ & Ha & _), (closure_get_b i Hi) as (_ & Hb & _).
  destruct (Math_max_cases (f32_get a i) (f32_get b i)) as [->|[->|HN]]; try done.
  pose proof (Math_max_not_NaN _ _ (nonneg_not_NaN _ Ha) (nonneg_not_NaN _ Hb)) as H.
  rewrite HN in H. discriminate.
Qed.

Lemma xor_nonneg : Forall nonneg (xor a b).
Proof using same_length mag_a mag_b.
  apply fill_Forall. intros i Hi. apply fround_nonneg, abs_nonneg.
  destruct (closure_get_a i Hi) as (Ha & _), (closure_get_b i Hi) as (Hb & _).
  by apply sub_finite_not_NaN.
Qed.

Lemma multiply_nonneg : Forall nonneg (multiply a b).
Proof using same_length mag_a mag_b.
  apply fill_Forall. intros i Hi. apply fround_nonneg.
  destruct (closure_get_a i Hi) as (Haf & Ha & _), (closure_get_b i Hi) as (Hbf & Hb & _).
  apply mul_nonneg; auto.
Qed.

Lemma average_nonneg : Forall nonneg (average a b).
Proof using same_length mag_a mag_b.
  apply fill_Forall. intros i Hi. apply fround_nonneg.
  destruct (closure_get_a i Hi) as (_ & Ha & _), (closure_get_b i Hi) as (_ & Hb & _).
  apply div_nonneg; [by apply add_nonneg|done|done|done].
Qed.

Lemma not_nonneg (l l' : Float32Array) (i : nat) :
  Forall is_magnitude l -> Forall is_magnitude l' -> i < length l ->
  nonneg (fround (add (sub (findMax l) (f32_get l i)) (findMin l'))).
Proof using Type.
  intros Hl Hl' Hi. apply fround_nonneg, add_nonneg.
  - apply sub_nonneg.
    + apply is_magnitude_canonical, findMax_magnitude, Hl.
    + destruct (lookup_lt_is_Some_2 l i Hi) as [x Hx].
      rewrite (f32_get_Some _ _ _ Hx).
      by apply is_magnitude_canonical, (proj1 (Forall_lookup _ _) Hl i).
    + by apply get_le_max.
  - apply (findMin_magnitude l' Hl').
Qed.

Lemma notA_nonneg : Forall nonneg (notA a b).
Proof using same_length mag_a mag_b.
  apply fill_Forall. intros i Hi. by apply not_nonneg.
Qed.

Lemma notB_nonneg : Forall nonneg (notB a b).
Proof using same_length mag_a mag_b.
  apply fill_Forall. intros i Hi. apply not_nonneg; [done|done|lia].
Qed.

Lemma aSquared_nonneg : Forall nonneg (aSquared a b).
Proof using same_length mag_a mag_b.
  apply fill_Forall. intros i Hi. apply fround_nonneg. cbv zeta.
  apply squared_nonneg; [by apply closure_get_a|by apply findMax_magnitude|by apply get_le_max].
Qed.

Lemma bSquared_nonneg : Forall nonneg (bSquared a b).
Proof using same_length mag_a mag_b.
  apply fill_Forall. intros i Hi. apply fround_nonneg. cbv zeta.
  apply squared_nonneg; [by apply closure_get_b|by apply findMax_magnitude|apply get_le_max; [done|lia]].
Qed.

Lemma subtract_all_nonneg : Forall nonneg (subtract a b).
Proof using same_length mag_a mag_b.
  apply Forall_lookup. intros i z Hz.
  destruct (subtract_nonneg a b same_length mag_a mag_b i) as (z' & Hz' & Hle).
  { apply lookup_lt_Some in Hz. unfold subtract in Hz. by rewrite fill_length in Hz. }
  rewrite Hz in Hz'. by injection Hz' as ->.
Qed.

End Closure.

(** X2.  On two magnitude arrays of the same length (finite, non-negative
    binary32 values), each of the ten operators returns an array of that
    length in which no bin is NaN and no bin is negative. *)
Theorem operators_keep_magnitudes_nonneg (a b : Float32Array) (name : string)
    (f : Float32Array -> Float32Array -> Float32Array) :
  length a = length b -> Forall is_magnitude a -> Forall is_magnitude b ->
  Dispatch.assoc name Dispatch.operators = Some f ->
  length (f a b) = length a /\
  Forall (fun z => isNaN z = false /\ le pzero z = true) (f a b).
Proof.
  intros Hlen Ha Hb Hf.
  assert (H : length (f a b) = length a /\ Forall (fun z => le pzero z = true) (f a b)).
  { unfold Dispatch.operators in Hf. simpl in Hf.
    repeat (match type of Hf with
            | (if ?c then _ else _) = _ => destruct c; [injection Hf as <-|]
            end); try discriminate; (split; [apply fill_length|]).
    - by apply and_nonneg.
    - by apply or_nonneg.
    - by apply xor_nonneg.
    - by apply multiply_nonneg.
    - by apply average_nonneg.
    - by apply notA_nonneg.
    - by apply notB_nonneg.
    - by apply aSquared_nonneg.
    - by apply bSquared_nonneg.
    - by apply subtract_all_nonneg. }
  destruct H as [Hl Hn]. split; [done|].
  eapply Forall_impl; [exact Hn|]. intros z Hz. split; [by apply nonneg_not_NaN|done].
Qed.
(** ** The operators as an algebra: exchange of the arguments, a spectrum
    with itself *)

Lemma key_inj (x y : number) :
  isNaN x = false -> isNaN y = false -> is_zero x = false -> key x = key y -> x = y.
Proof.
  destruct x as [sx|sx| |sx mx ex], y as [sy|sy| |sy my ey]; try done;
    destruct sx; try destruct sy; simpl; intros _ _ _ H; try discriminate;
    try reflexivity; injection H; intros; f_equal; lia.
Qed.

Lemma SFcompare_Eq_zero (a b : number) :
  SFcompare a b = Some Eq -> is_zero a = true -> is_zero b = true.
Proof. destruct a as [sa| | |], b as [sb|[]| |[] mb eb]; try done. Qed.

Lemma SFcompare_Eq_eq (a b : number) :
  SFcompare a b = Some Eq -> is_zero a = false -> a = b.
Proof.
  intros H Hz.
  assert (Ha : isNaN a = false) by (by destruct a).
  assert (Hb : isNaN b = false) by (by destruct a, b).
  rewrite (SFcompare_key a b Ha Hb) in H. injection H as H.
  apply key_compare_Eq in H. by apply key_inj.
Qed.

Lemma Math_min_comm (a b : number) : Math_min a b = Math_min b a.
Proof.
  unfold Math_min. destruct (SFcompare a b) as [c|] eqn:Hab.
  - rewrite (SFcompare_antisym _ _ _ Hab). destruct c; simpl; try reflexivity.
    destruct (is_zero a) eqn:Hz.
    + pose proof (SFcompare_Eq_zero a b Hab Hz) as Hzb.
      destruct a as [[]| | |], b as [[]| | |]; try discriminate; reflexivity.
    + rewrite <- (SFcompare_Eq_eq a b Hab Hz). by destruct a as [[]| | |].
  - assert (Hba : SFcompare b a = None).
    { apply SFcompare_None. apply SFcompare_None in Hab. tauto. }
    by rewrite Hba.
Qed.

Lemma Math_max_comm (a b : number) : Math_max a b = Math_max b a.
Proof.
  unfold Math_max. destruct (SFcompare a b) as [c|] eqn:Hab.
  - rewrite (SFcompare_antisym _ _ _ Hab). destruct c; simpl; try reflexivity.
    destruct (is_zero a) eqn:Hz.
    + pose proof (SFcompare_Eq_zero a b Hab Hz) as Hzb.
      destruct a as [[]| | |], b as [[]| | |]; try discriminate; reflexivity.
    + rewrite <- (SFcompare_Eq_eq a b Hab Hz). by destruct a as [[]| | |].
  - assert (Hba : SFcompare b a = None).
    { apply SFcompare_None. apply SFcompare_None in Hab. tauto. }
    by rewrite Hba.
Qed.

Lemma Math_min_idem (a : number) : Math_min a a = a.
Proof.
  unfold Math_min. destruct (isNaN a) eqn:Ha.
  - by destruct a.
  - rewrite (SFcompare_refl a Ha). by destruct a as [[]| | |].
Qed.

Lemma Math_max_idem (a : number) : Math_max a a = a.
Proof.
  unfold Math_max. destruct (isNaN a) eqn:Ha.
  - by destruct a.
  - rewrite (SFcompare_refl a Ha). by destruct a as [[]| | |].
Qed.

Lemma binary_round_neg (s : bool) (p : positive) (e : Z) :
  binary_round 53 1024 (negb s) p e = neg (binary_round 53 1024 s p e).
Proof.
  unfold binary_round. destruct (shl_align _ _ _) as [mz ez].
  unfold binary_round_aux.
  destruct (shr_fexp 53 1024 (Z.pos mz) ez loc_Exact) as [mrs' e'].
  destruct (shr_fexp 53 1024 _ e' loc_Exact) as [mrs'' e''].
  destruct (shr_m mrs''); try reflexivity. by destruct (_ <=? _)%Z.
Qed.

Lemma binary_normalize_opp (m e : Z) :
  Math_abs (binary_normalize 53 1024 (- m) e false) =
  Math_abs (binary_normalize 53 1024 m e false).
Proof.
  destruct m as [|p|p]; [reflexivity| |].
  - change (binary_normalize 53 1024 (- Z.pos p) e false)
      with (binary_round 53 1024 (negb false) p e).
    change (binary_normalize 53 1024 (Z.pos p) e false) with (binary_round 53 1024 false p e).
    rewrite binary_round_neg. by destruct (binary_round 53 1024 false p e).
  - change (binary_normalize 53 1024 (- Z.neg p) e false)
      with (binary_round 53 1024 false p e).
    change (binary_normalize 53 1024 (Z.neg p) e false)
      with (binary_round 53 1024 (negb false) p e).
    rewrite binary_round_neg. by destruct (binary_round 53 1024 false p e).
Qed.

(** [|x - y| = |y - x|] in binary64. *)
Lemma abs_sub_comm (x y : number) : Math_abs (sub x y) = Math_abs (sub y x).
Proof.
  unfold sub. destruct x as [sx|sx| |sx mx ex], y as [sy|sy| |sy my ey];
    try reflexivity; try (destruct sx, sy; reflexivity).
  cbn [SFsub]. cbv zeta. rewrite (Z.min_comm ey ex).
  rewrite <- binary_normalize_opp. f_equal. f_equal. lia.
Qed.

Lemma sub_self (x : number) : is_finite x = true -> sub x x = pzero.
Proof.
  destruct x as [[]| | |s m e]; try done. intros _.
  unfold sub. cbn [SFsub]. cbv zeta. by rewrite Z.sub_diag.
Qed.

Lemma is_float32_get (a : Float32Array) (i : nat) :
  Forall is_float32 a -> is_float32 (f32_get a i).
Proof.
  intros Ha. unfold f32_get. destruct (a !! i) as [x|] eqn:Hx; [|reflexivity].
  by apply (proj1 (Forall_lookup _ _) Ha i).
Qed.

Lemma fill_self (a : Float32Array) (f : nat -> number) :
  (forall i x, a !! i = Some x -> fround (f i) = x) -> fill a f = a.
Proof.
  intros H. apply list_eq. intros i. rewrite fill_lookup. case_decide as Hi.
  - destruct (lookup_lt_is_Some_2 a i Hi) as [x Hx]. by rewrite Hx, (H i x Hx).
  - symmetry. apply lookup_ge_None. lia.
Qed.

(** X3.  The operators [and], [or] and [xor] do not depend on the order of
    their arguments: on two arrays of the same length, whatever they hold
    (NaN and the zeros of either sign included), exchanging the arguments
    gives the same array. *)
Theorem and_or_xor_commute (a b : Float32Array) :
  length a = length b ->
  and a b = and b a /\ or a b = or b a /\ xor a b = xor b a.
Proof.
  intros Hlen. repeat apply conj.
  - unfold and. apply fill_ext; [done|]. intros i _. apply Math_min_comm.
  - unfold or. apply fill_ext; [done|]. intros i _. apply Math_max_comm.
  - unfold xor. apply fill_ext; [done|]. intros i _. apply abs_sub_comm.
Qed.

(** X4.  A spectrum combined with itself: [and] and [or] give it back
    unchanged (whatever binary32 values it holds, NaN included), and when
    all its bins are finite [xor] and [subtract] give an array of zeros. *)
Theorem operators_on_equal_arguments (a : Float32Array) :
  Forall is_float32 a ->
  and a a = a /\ or a a = a /\
  (Forall (fun x => is_finite x = true) a ->
     xor a a = replicate (length a) pzero /\
     subtract a a = replicate (length a) pzero).
Proof.
  intros Ha. split; [|split; [|intros Hfin; split]].
  - unfold and. apply fill_self. intros i x Hx.
    rewrite (f32_get_Some a i x Hx), Math_min_idem.
    by apply (proj1 (Forall_lookup _ _) Ha i).
  - unfold or. apply fill_self. intros i x Hx.
    rewrite (f32_get_Some a i x Hx), Math_max_idem.
    by apply (proj1 (Forall_lookup _ _) Ha i).
  - apply fill_const. intros i Hi.
    destruct (lookup_lt_is_Some_2 a i Hi) as [x Hx].
    rewrite (f32_get_Some a i x Hx), sub_self; [reflexivity|].
    by apply (proj1 (Forall_lookup _ _) Hfin i).
  - apply fill_const. intros i Hi.
    destruct (lookup_lt_is_Some_2 a i Hi) as [x Hx].
    rewrite (f32_get_Some a i x Hx), sub_self; [reflexivity|].
    by apply (proj1 (Forall_lookup _ _) Hfin i).
Qed.

(** ** Arrays of different lengths *)

Lemma f32_get_past (a : Float32Array) (i : nat) : length a <= i -> f32_get a i = NaN.
Proof. intros H. unfold f32_get. by rewrite lookup_ge_None_2. Qed.

Lemma sub_NaN_r (x : number) : sub x NaN = NaN.
Proof. by destruct x. Qed.

Lemma Math_min_NaN_r (x : number) : Math_min x NaN = NaN.
Proof. by destruct x. Qed.

Lemma Math_max_NaN_r (x : number) : Math_max x NaN = NaN.
Proof. by destruct x. Qed.

Lemma mul_NaN_r (x : number) : mul x NaN = NaN.
Proof. by destruct x. Qed.

Lemma fill_NaN (magA : Float32Array) (f : nat -> number) (i : nat) :
  i < length magA -> f i = NaN -> fill magA f !! i = Some NaN.
Proof. intros Hi Hf. rewrite fill_lookup, decide_True by done. by rewrite Hf. Qed.

(** X7.  Each of the ten operators returns an array of the length of its
    first argument, whatever the length of the second.  When the second is
    the shorter one, the bins it does not have come out as NaN, for every
    operator but [notA] and [aSquared], which do not read the bins of the
    second argument one by one. *)
Theorem operators_past_the_end (a b : Float32Array) (name : string)
    (f : Float32Array -> Float32Array -> Float32Array) :
  Dispatch.assoc name Dispatch.operators = Some f ->
  length (f a b) = length a /\
  (name <> "notA" -> name <> "aSquared" ->
   forall i, length b <= i < length a -> f a b !! i = Some NaN).
Proof.
  intros Hf. unfold Dispatch.operators in Hf. cbn [Dispatch.assoc] in Hf.
  repeat (match type of Hf with
          | (if String.eqb name ?k then _ else _) = _ =>
              destruct (String.eqb_spec name k) as [->|]; [injection Hf as <-|]
          end); try discriminate;
    (split; [apply fill_length|]); intros HnotA Hsq i [Hb Ha]; try done;
    apply fill_NaN; try done; cbv zeta; rewrite (f32_get_past b i Hb).
  - apply Math_min_NaN_r.
  - apply Math_max_NaN_r.
  - by rewrite sub_NaN_r.
  - apply mul_NaN_r.
  - by destruct (f32_get a i).
  - by rewrite sub_NaN_r.
  - reflexivity.
  - by rewrite sub_NaN_r.
Qed.

(** ** apply on the ten operators *)

Lemma operator_length (name : string) (f : Float32Array -> Float32Array -> Float32Array)
    (a b : Float32Array) :
  assoc name operators = Some f -> length (f a b) = length a.
Proof.
  intros Hf. unfold operators in Hf. cbn [assoc] in Hf.
  repeat (match type of Hf with
          | (if String.eqb name ?k then _ else _) = _ =>
              destruct (String.eqb name k); [injection Hf as <-|]
          end); try discriminate; apply fill_length.
Qed.

Lemma apply_operator (operation : string)
    (f : Float32Array -> Float32Array -> Float32Array) (magA magB : Float32Array)
    (st : engine_state) :
  assoc operation operators = Some f ->
  apply operation magA magB st =
  (log_first_call (KString operation) magA (Some magB) (Some (f magA magB));;
   mret (Some (f magA magB))) st.
Proof.
  intros Hf. unfold apply, mbind, M_bind, bind, lookup, get, get_string. by rewrite Hf.
Qed.

Lemma apply_when_logged (operation : string)
    (f : Float32Array -> Float32Array -> Float32Array) (magA magB : Float32Array)
    (st : engine_state) :
  assoc operation operators = Some f -> _logged st = Some true ->
  apply operation magA magB st = (Ok (Some (f magA magB)), st).
Proof.
  intros Hf Hl. rewrite (apply_operator _ _ _ _ _ Hf).
  unfold log_first_call, mbind, M_bind, bind, get_logged. by rewrite Hl.
Qed.

Lemma apply_first_call (operation : string)
    (f : Float32Array -> Float32Array -> Float32Array) (magA magB : Float32Array)
    (st : engine_state) (a b : number) :
  assoc operation operators = Some f -> _logged st <> Some true ->
  magA !! (length magA / 4) = Some a -> magB !! (length magA / 4) = Some b ->
  exists r, f magA magB !! (length magA / 4) = Some r /\
    apply operation magA magB st =
    (Ok (Some (f magA magB)),
     {| _logged := Some true;
        console := console st ++ [console_log_sample_at (KString operation) (length magA / 4);
                                  console_log_sample a b r] |}).
Proof.
  intros Hf Hl Ha Hb. rewrite (apply_operator _ _ _ _ _ Hf).
  pose proof (operator_length operation f magA magB Hf) as Hlen.
  unfold log_first_call, mbind, M_bind, bind, get_logged, set_logged, log, sample, mret,
    M_ret, ret, throw.
  assert (Hr : is_Some (f magA magB !! (length magA / 4))).
  { apply lookup_lt_is_Some. rewrite Hlen. by eapply lookup_lt_Some. }
  destruct Hr as [r Hr]. exists r. split; [done|]. rewrite Ha, Hb, Hr.
  destruct (_logged st) as [[]|]; try done; cbn; by rewrite <- app_assoc.
Qed.

Lemma apply_first_call_throws (operation : string)
    (f : Float32Array -> Float32Array -> Float32Array) (magA magB : Float32Array)
    (st : engine_state) :
  assoc operation operators = Some f -> _logged st <> Some true ->
  magA !! (length magA / 4) = None \/ magB !! (length magA / 4) = None ->
  apply operation magA magB st =
  (Throw TypeError,
   {| _logged := Some true;
      console := console st ++ [console_log_sample_at (KString operation) (length magA / 4)] |}).
Proof.
  intros Hf Hl Hmiss. rewrite (apply_operator _ _ _ _ _ Hf).
  unfold log_first_call, mbind, M_bind, bind, get_logged, set_logged, log, sample, mret,
    M_ret, ret, throw.
  destruct (magA !! (length magA / 4)) as [a|] eqn:Ha.
  - destruct Hmiss as [Hmiss|Hmiss]; [done|]. rewrite Hmiss.
    destruct (_logged st) as [[]|]; try done.
  - destruct (_logged st) as [[]|]; try done.
Qed.

(** X8.  [apply] on one of the ten operators.  Once the flag [_logged] is
    set, it returns the result of the operator and touches neither the flag
    nor the console.  While the flag is not set (never assigned, or reset),
    it sets the flag and writes two lines that show bin [length / 4] of both
    arguments and of the result, then returns the result; when that bin is
    missing in the first argument (an empty array) or in the second, it
    throws a TypeError after the first line, the flag already set. *)
Theorem apply_logs_first_call (operation : string)
    (f : Float32Array -> Float32Array -> Float32Array) (magA magB : Float32Array)
    (st : engine_state) :
  assoc operation operators = Some f ->
  let result := f magA magB in
  let sampleIdx := length magA / 4 in
  let first_line := console_log_sample_at (KString operation) sampleIdx in
  (_logged st = Some true ->
     apply operation magA magB st = (Ok (Some result), st)) /\
  (_logged st <> Some true ->
     forall a b, magA !! sampleIdx = Some a -> magB !! sampleIdx = Some b ->
     exists r, result !! sampleIdx = Some r /\
       apply operation magA magB st =
       (Ok (Some result),
        {| _logged := Some true;
           console := console st ++ [first_line; console_log_sample a b r] |})) /\
  (_logged st <> Some true ->
     magA !! sampleIdx = None \/ magB !! sampleIdx = None ->
     apply operation magA magB st =
     (Throw TypeError, {| _logged := Some true; console := console st ++ [first_line] |})).
Proof.
  intros Hf. cbv zeta. split; [|split].
  - by apply (apply_when_logged _ f).
  - intros Hl a b Ha Hb. by apply (apply_first_call _ f).
  - by apply (apply_first_call_throws _ f).
Qed.

(** ** Silence as an operand, and the peak under [notA] and [notB] *)

Lemma magnitude_cases (x : number) :
  is_magnitude x -> x <> nzero ->
  x = pzero \/ exists m e, x = S754_finite false m e.
Proof.
  intros (Hf & Hle & _) Hnz. destruct x as [[]| | |[] m e]; try done; eauto.
Qed.

Lemma f32_get_zeros (n i : nat) : i < n -> f32_get (replicate n pzero) i = pzero.
Proof. intros Hi. unfold f32_get. by rewrite lookup_replicate_2. Qed.

(** X5.  A silent second spectrum.  For a magnitude array [a] (finite,
    non-negative binary32 values, none of them [-0]) and the array of zeros
    of the same length: [and] and [multiply] return the zeros, while [or],
    [xor] and [subtract] return [a]. *)
Theorem operators_with_silence (a : Float32Array) :
  let zeros := replicate (length a) pzero in
  Forall is_magnitude a -> Forall (fun x => x <> nzero) a ->
  and a zeros = zeros /\ multiply a zeros = zeros /\
  or a zeros = a /\ xor a zeros = a /\ subtract a zeros = a.
Proof.
  intros zeros Ha Hnz.
  assert (Hget : forall i x, a !! i = Some x ->
            f32_get a i = x /\ f32_get zeros i = pzero /\ fround x = x /\
            (x = pzero \/ exists m e, x = S754_finite false m e)).
  { intros i x Hx. split; [by apply f32_get_Some|]. split.
    - apply f32_get_zeros. by eapply lookup_lt_Some.
    - pose proof (proj1 (Forall_lookup _ _) Ha i x Hx) as Hm.
      pose proof (proj1 (Forall_lookup _ _) Hnz i x Hx) as Hn.
      split; [apply Hm|]. by apply magnitude_cases. }
  repeat apply conj.
  - apply fill_const. intros i Hi. destruct (lookup_lt_is_Some_2 a i Hi) as [x Hx].
    destruct (Hget i x Hx) as (-> & -> & _ & [->|(m & e & ->)]); reflexivity.
  - apply fill_const. intros i Hi. destruct (lookup_lt_is_Some_2 a i Hi) as [x Hx].
    destruct (Hget i x Hx) as (-> & -> & _ & [->|(m & e & ->)]); reflexivity.
  - apply fill_self. intros i x Hx.
    destruct (Hget i x Hx) as (-> & -> & Hfix & [->|(m & e & ->)]); [reflexivity|].
    exact Hfix.
  - apply fill_self. intros i x Hx.
    destruct (Hget i x Hx) as (-> & -> & Hfix & [->|(m & e & ->)]); [reflexivity|].
    exact Hfix.
  - apply fill_self. intros i x Hx.
    destruct (Hget i x Hx) as (-> & -> & Hfix & [->|(m & e & ->)]); [reflexivity|].
    exact Hfix.
Qed.

Lemma add_zero_l (y : number) :
  is_finite y = true -> is_zero y = false -> add pzero y = y.
Proof. by destruct y. Qed.

(** X6.  [notA] sends the peak of A to the minimum of B: in a bin where
    [magA] reaches its maximum, the result is the minimum of [magB] ([+0]
    when that minimum is a zero).  [notB] does the same with the roles
    exchanged. *)
Theorem not_sends_peak_to_minimum (a b : Float32Array) (i : nat) (x : number) :
  Forall is_magnitude a -> Forall is_magnitude b ->
  (a !! i = Some x -> x = findMax a ->
   notA a b !! i = Some (if is_zero (findMin b) then pzero else findMin b)) /\
  (i < length a -> b !! i = Some x -> x = findMax b ->
   notB a b !! i = Some (if is_zero (findMin a) then pzero else findMin a)).
Proof.
  intros Ha Hb.
  assert (Hcore : forall (l l' : Float32Array) (M : number),
            Forall is_magnitude l -> Forall is_magnitude l' -> M = findMax l ->
            fround (add (sub (findMax l) M) (findMin l')) =
            (if is_zero (findMin l') then pzero else findMin l')).
  { intros l l' M Hl Hl' ->.
    destruct (findMax_magnitude l Hl) as [(HMf & _) _].
    destruct (findMin_magnitude l' Hl') as [(Hmf & _ & Hm32) _].
    rewrite sub_self by done.
    destruct (is_zero (findMin l')) eqn:Hz.
    - by destruct (findMin l') as [[]| | |].
    - rewrite add_zero_l by done. exact Hm32. }
  split.
  - intros Hx HM. unfold notA. rewrite fill_lookup.
    rewrite decide_True by (by eapply lookup_lt_Some).
    rewrite (f32_get_Some a i x Hx). f_equal. by apply Hcore.
  - intros Hi Hx HM. unfold notB. rewrite fill_lookup, decide_True by done.
    rewrite (f32_get_Some b i x Hx). f_equal. by apply Hcore.
Qed.
(** * Part VI: integers in binary64 *)

(** ** Integers in binary64

    An integer below 2^53 in absolute value is a binary64 number, and the
    products of such integers that stay below 2^53 are computed exactly. *)

Lemma binary_round_aux_unshift (prec emax : Z) (s : bool) (p : positive) (e k : Z) :
  (0 <= k)%Z ->
  fexp prec emax (Z.pos (digits2_pos p) + (e + k)) = (e + k)%Z ->
  binary_round_aux prec emax s (Z.pos p * 2 ^ k) e loc_Exact =
  round_result prec emax s (Z.pos p) (e + k).
Proof.
  intros Hk Hcan.
  assert (Hdig : Zdigits2 (Z.pos p * 2 ^ k) = (Z.pos (digits2_pos p) + k)%Z)
    by (apply (Zdigits2_mul_pow (Z.pos p) k); lia).
  unfold binary_round_aux, shr_fexp. rewrite Hdig.
  replace (Z.pos (digits2_pos p) + k + e)%Z with (Z.pos (digits2_pos p) + (e + k))%Z by lia.
  rewrite Hcan. replace (e + k - e)%Z with k by lia.
  unfold shr_record_of_loc at 1.
  rewrite shr_exact by lia.
  cbn [shr_m loc_of_shr_record round_nearest_even].
  simpl Zdigits2. rewrite Hcan, Z.sub_diag. simpl shr. reflexivity.
Qed.

(** The binary64 number of a positive integer below 2^53: its mantissa
    shifted to 53 digits. *)
Lemma of_Z_pos (z : Z) :
  (0 < z < 2 ^ 53)%Z ->
  exists m : positive,
    of_Z z = S754_finite false m (Zdigits2 z - 53) /\
    Z.pos m = (z * 2 ^ (53 - Zdigits2 z))%Z /\
    canonical64 m (Zdigits2 z - 53).
Proof.
  intros [Hpos Hlt]. destruct z as [|p|p]; try lia.
  assert (Hd : (Z.pos (digits2_pos p) <= 53)%Z).
  { change (Zdigits2 (Z.pos p) <= 53)%Z. apply Zdigits2_le; lia. }
  unfold of_Z, binary_normalize.
  assert (HE : fexp 53 1024 (Z.pos (digits2_pos p) + 0) = (Z.pos (digits2_pos p) - 53)%Z)
    by (unfold fexp, emin; lia).
  destruct (binary_round_exact 53 1024 false p 0 ltac:(rewrite HE; lia))
    as (mz & Hr & Hmz & Hcan).
  rewrite HE in Hr, Hmz, Hcan. exists mz. simpl Zdigits2. split; [|split].
  - rewrite Hr. unfold round_result.
    destruct (Z.leb_spec (Z.pos (digits2_pos p) - 53) (1024 - 53)); [done|lia].
  - rewrite Hmz. f_equal. f_equal. lia.
  - exact Hcan.
Qed.

Lemma of_Z_neg (z : Z) : (0 < z)%Z -> of_Z (- z) = neg (of_Z z).
Proof.
  intros H. destruct z as [|p|p]; try lia.
  change (of_Z (- Z.pos p)) with (binary_round 53 1024 true p 0).
  change (of_Z (Z.pos p)) with (binary_round 53 1024 false p 0).
  unfold binary_round. destruct (shl_align _ _ _) as [mz ez].
  unfold binary_round_aux.
  destruct (shr_fexp 53 1024 (Z.pos mz) ez loc_Exact) as [mrs' e'].
  destruct (shr_fexp 53 1024 _ e' loc_Exact) as [mrs'' e''].
  destruct (shr_m mrs''); try reflexivity. by destruct (_ <=? _)%Z.
Qed.

Lemma Math_floor_finite_nonneg (m : positive) (e : Z) (z k : Z) :
  (0 <= k)%Z -> e = (- k)%Z -> Z.pos m = (z * 2 ^ k)%Z ->
  Math_floor (S754_finite false m e) = z /\ truncate (S754_finite false m e) = z.
Proof.
  intros Hk -> Hm. unfold Math_floor, truncate. simpl cond_Zopp.
  destruct (Z.leb_spec 0 (- k)) as [H0|H0].
  - assert (k = 0)%Z as -> by lia. change (2 ^ 0)%Z with 1%Z in Hm.
    change (- 0)%Z with 0%Z. rewrite Z.shiftl_0_r. lia.
  - rewrite Z.opp_involutive, Z.shiftr_div_pow2 by lia. rewrite Hm.
    rewrite Z.div_mul; [done|]. pose proof (Z.pow_pos_nonneg 2 k). lia.
Qed.

(** [Math.floor] and the integer part give the integer back. *)
Lemma floor_of_Z (z : Z) :
  (0 <= z < 2 ^ 53)%Z -> Math_floor (of_Z z) = z /\ truncate (of_Z z) = z.
Proof.
  intros [H0 Hlt]. destruct (Z.eq_dec z 0%Z) as [->|Hne]; [done|].
  destruct (of_Z_pos z ltac:(lia)) as (m & -> & Hm & _).
  assert (Hd : (Zdigits2 z <= 53)%Z) by (apply Zdigits2_le; lia).
  apply (Math_floor_finite_nonneg m _ z (53 - Zdigits2 z)); [lia|lia|done].
Qed.

Lemma truncate_neg (x : number) : truncate (neg x) = (- truncate x)%Z.
Proof. destruct x as [s|s| |s m e]; try reflexivity. simpl. destruct s; simpl; lia. Qed.

Lemma truncate_of_Z (z : Z) : (- 2 ^ 53 < z < 2 ^ 53)%Z -> truncate (of_Z z) = z.
Proof.
  intros H. destruct (Z_lt_le_dec z 0) as [Hneg|Hpos].
  - replace z with (- (- z))%Z by lia. rewrite of_Z_neg by lia.
    rewrite truncate_neg. rewrite (proj2 (floor_of_Z (- z) ltac:(lia))). lia.
  - apply floor_of_Z. lia.
Qed.

Lemma of_Z_nonneg_cases (z : Z) :
  (0 <= z < 2 ^ 53)%Z ->
  of_Z z = pzero \/ exists m e, of_Z z = S754_finite false m e.
Proof.
  intros [H0 Hlt]. destruct (Z.eq_dec z 0%Z) as [->|Hne]; [by left|right].
  destruct (of_Z_pos z ltac:(lia)) as (m & -> & _). eauto.
Qed.

(** The product of two non-negative integers, when it is below 2^53. *)
Lemma mul_of_Z (a b : Z) :
  (0 <= a < 2 ^ 53)%Z -> (0 <= b < 2 ^ 53)%Z -> (a * b < 2 ^ 53)%Z ->
  mul (of_Z a) (of_Z b) = of_Z (a * b).
Proof.
  intros Ha Hb Hab.
  destruct (Z.eq_dec a 0%Z) as [->|Ha0].
  { destruct (of_Z_nonneg_cases b Hb) as [->|(m & e & ->)]; reflexivity. }
  destruct (Z.eq_dec b 0%Z) as [->|Hb0].
  { rewrite Z.mul_0_r.
    destruct (of_Z_nonneg_cases a Ha) as [->|(m & e & ->)]; reflexivity. }
  destruct (of_Z_pos a ltac:(lia)) as (ma & -> & Hma & _).
  destruct (of_Z_pos b ltac:(lia)) as (mb & -> & Hmb & _).
  assert (Hp : (0 < a * b)%Z) by nia.
  destruct (of_Z_pos (a * b) ltac:(lia)) as (mp & -> & Hmp & Hcan).
  set (da := Zdigits2 a) in *. set (db := Zdigits2 b) in *. set (dp := Zdigits2 (a * b)) in *.
  assert (Hda : (0 < da <= 53)%Z)
    by (split; [apply Zdigits2_pos; lia | apply Zdigits2_le; lia]).
  assert (Hdb : (0 < db <= 53)%Z)
    by (split; [apply Zdigits2_pos; lia | apply Zdigits2_le; lia]).
  assert (Hdp : (0 < dp <= 53)%Z)
    by (split; [apply Zdigits2_pos; lia | apply Zdigits2_le; lia]).
  (* the product has [da + db - 1] or [da + db] digits *)
  assert (Hdab : (da + db - 1 <= dp)%Z).
  { destruct (Zdigits2_bounds a ltac:(lia)) as [Hla _].
    destruct (Zdigits2_bounds b ltac:(lia)) as [Hlb _]. fold da in Hla. fold db in Hlb.
    assert (H : (2 ^ (da + db - 2) <= a * b)%Z).
    { replace (da + db - 2)%Z with ((da - 1) + (db - 1))%Z by lia.
      rewrite Z.pow_add_r by lia.
      pose proof (Z.pow_pos_nonneg 2 (da - 1)). pose proof (Z.pow_pos_nonneg 2 (db - 1)). nia. }
    pose proof (Zdigits2_ge (a * b) (da + db - 2) ltac:(lia) H). fold dp in H0. lia. }
  set (k := (53 - da - db + dp)%Z).
  assert (Hk : (0 <= k)%Z) by (unfold k; lia).
  assert (Hprod : Z.pos (ma * mb) = (Z.pos mp * 2 ^ k)%Z).
  { rewrite Pos2Z.inj_mul, Hma, Hmb, Hmp. unfold k.
    replace (a * 2 ^ (53 - da) * (b * 2 ^ (53 - db)))%Z
      with (a * b * (2 ^ (53 - da) * 2 ^ (53 - db)))%Z by ring.
    rewrite <- Z.pow_add_r by lia.
    rewrite <- (Z.mul_assoc (a * b) (2 ^ (53 - dp)) (2 ^ (53 - da - db + dp))).
    rewrite <- (Z.pow_add_r 2 (53 - dp)) by lia.
    do 2 f_equal. lia. }
  unfold mul, SFmul. simpl xorb. rewrite Hprod.
  rewrite (binary_round_aux_unshift 53 1024 false mp (da - 53 + (db - 53)) k Hk).
  - replace (da - 53 + (db - 53) + k)%Z with (dp - 53)%Z by (unfold k; lia).
    unfold round_result. destruct (Z.leb_spec (dp - 53) (1024 - 53)); [done|lia].
  - replace (da - 53 + (db - 53) + k)%Z with (dp - 53)%Z by (unfold k; lia).
    exact Hcan.
Qed.

Section OrderReals.
Local Open Scope R_scope.

(** ** The order of numbers and the order of the reals *)


Lemma B2R_neg (x : number) : B2R (neg x) = - B2R x.
Proof.
  destruct x as [s|s| |s m e]; simpl; try lra.
  destruct s; unfold cond_Zopp; cbn [negb]; rewrite ?opp_IZR; lra.
Qed.

Lemma lt_neg (x y : number) : lt (neg x) (neg y) = lt y x.
Proof.
  unfold lt, SFltb.
  destruct x as [sx|sx| |sx mx ex], y as [sy|sy| |sy my ey]; simpl;
    try reflexivity; try (destruct sx, sy; reflexivity).
  destruct sx, sy; simpl; try reflexivity.
  - rewrite (Z.compare_antisym ex ey).
    change (Pos.compare_cont Eq my mx) with (my ?= mx)%positive.
    change (Pos.compare_cont Eq mx my) with (mx ?= my)%positive.
    rewrite (Pos.compare_antisym mx my).
    destruct (ex ?= ey)%Z, (mx ?= my)%positive; reflexivity.
  - rewrite (Z.compare_antisym ex ey).
    change (Pos.compare_cont Eq my mx) with (my ?= mx)%positive.
    change (Pos.compare_cont Eq mx my) with (mx ?= my)%positive.
    rewrite (Pos.compare_antisym mx my).
    destruct (ex ?= ey)%Z, (mx ?= my)%positive; reflexivity.
Qed.

Lemma B2R_finite_neg (m : positive) (e : Z) : B2R (S754_finite true m e) < 0.
Proof.
  pose proof (B2R_finite_pos m e) as H. unfold B2R, cond_Zopp in *.
  rewrite opp_IZR. lra.
Qed.

(** On finite numbers in canonical form, [a < b] is the order of the
    reals. *)
Lemma lt_valid (a b : number) :
  valid64 a -> valid64 b -> (lt a b = true <-> B2R a < B2R b).
Proof.
  intros Va Vb.
  destruct a as [sa|sa| |sa ma ea], b as [sb|sb| |sb mb eb]; try done.
  - assert (E : lt (S754_zero sa) (S754_zero sb) = false) by (by destruct sa, sb).
    rewrite E. simpl. split; [discriminate|lra].
  - assert (E : lt (S754_zero sa) (S754_finite sb mb eb) = negb sb) by (by destruct sa, sb).
    rewrite E. change (B2R (S754_zero sa)) with 0.
    pose proof (B2R_finite_pos mb eb). pose proof (B2R_finite_neg mb eb).
    destruct sb; simpl negb; split; try discriminate; try done; lra.
  - assert (E : lt (S754_finite sa ma ea) (S754_zero sb) = sa) by (by destruct sa, sb).
    rewrite E. change (B2R (S754_zero sb)) with 0.
    pose proof (B2R_finite_pos ma ea). pose proof (B2R_finite_neg ma ea).
    destruct sa; split; try discriminate; try done; lra.
  - pose proof (B2R_finite_pos ma ea). pose proof (B2R_finite_neg ma ea).
    pose proof (B2R_finite_pos mb eb). pose proof (B2R_finite_neg mb eb).
    destruct sa, sb.
    + change (S754_finite true ma ea) with (neg (S754_finite false ma ea)).
      change (S754_finite true mb eb) with (neg (S754_finite false mb eb)).
      rewrite lt_neg, !B2R_neg.
      rewrite (lt_canonical (S754_finite false mb eb) (S754_finite false ma ea)) by done. lra.
    + split; [lra|done].
    + split; [done|lra].
    + by apply lt_canonical.
Qed.

Lemma valid64_not_NaN (x : number) : valid64 x -> isNaN x = false.
Proof. by destruct x. Qed.

Lemma le_valid (a b : number) :
  valid64 a -> valid64 b -> (le a b = true <-> B2R a <= B2R b).
Proof.
  intros Va Vb. pose proof (lt_valid b a Vb Va) as H.
  pose proof (valid64_not_NaN a Va) as Na. pose proof (valid64_not_NaN b Vb) as Nb.
  split.
  - intros Hle. destruct (Rle_or_lt (B2R a) (B2R b)) as [|Hlt]; [done|].
    apply H in Hlt. apply lt_key in Hlt; try done. apply le_key in Hle; try done.
  - intros Hle. apply lt_false_le; try done.
    clear H. destruct (lt b a) eqn:E; [|done]. apply (lt_valid b a Vb Va) in E. lra.
Qed.

(** *** The integer part *)

Lemma shiftr_pos_bounds (m : positive) (k : Z) :
  (0 < k)%Z ->
  IZR (Z.shiftr (Z.pos m) k) <= IZR (Z.pos m) * bpow (- k) < IZR (Z.shiftr (Z.pos m) k) + 1.
Proof.
  intros Hk. rewrite Z.shiftr_div_pow2 by lia.
  assert (Hp : (0 < 2 ^ k)%Z) by (apply Z.pow_pos_nonneg; lia).
  pose proof (Z.div_mod (Z.pos m) (2 ^ k) ltac:(lia)) as Hdm.
  pose proof (Z.mod_pos_bound (Z.pos m) (2 ^ k) Hp) as Hmod.
  set (q := (Z.pos m / 2 ^ k)%Z) in *. set (r := (Z.pos m mod 2 ^ k)%Z) in *.
  rewrite bpow_opp, bpow_IZR by lia.
  assert (HP : 0 < IZR (2 ^ k)) by (apply IZR_lt; lia).
  assert (Hm : IZR (Z.pos m) = IZR (2 ^ k) * IZR q + IZR r)
    by (rewrite <- mult_IZR, <- plus_IZR; f_equal; lia).
  assert (Hr0 : 0 <= IZR r) by (apply IZR_le; lia).
  assert (Hr1 : IZR r < IZR (2 ^ k)) by (apply IZR_lt; lia).
  rewrite Hm. split.
  - apply Rmult_le_reg_r with (IZR (2 ^ k)); [done|].
    rewrite Rmult_assoc, Rinv_l by lra. nra.
  - apply Rmult_lt_reg_r with (IZR (2 ^ k)); [done|].
    rewrite Rmult_assoc, Rinv_l by lra. nra.
Qed.

(** The integer part of a number is the number cut towards zero. *)
Lemma truncate_bounds (x : number) :
  let t := IZR (truncate x) in
  (0 <= B2R x -> t <= B2R x < t + 1) /\
  (B2R x <= 0 -> t - 1 < B2R x <= t).
Proof.
  cbv zeta. destruct x as [s|s| |s m e]; try (simpl; split; intros; lra).
  unfold truncate, B2R.
  set (t := if (0 <=? e)%Z then Z.shiftl (Z.pos m) e else Z.shiftr (Z.pos m) (- e)).
  assert (Hcore : IZR t <= IZR (Z.pos m) * bpow e < IZR t + 1).
  { unfold t. destruct (Z.leb_spec 0 e) as [He|He].
    - rewrite Z.shiftl_mul_pow2 by lia. rewrite mult_IZR, <- bpow_IZR by lia. lra.
    - pose proof (shiftr_pos_bounds m (- e) ltac:(lia)) as H.
      rewrite Z.opp_involutive in H. exact H. }
  pose proof (bpow_pos e). assert (0 < IZR (Z.pos m)) by (apply IZR_lt; lia).
  assert (0 < IZR (Z.pos m) * bpow e) by (apply Rmult_lt_0_compat; lra).
  destruct s; unfold cond_Zopp; rewrite ?opp_IZR; split; intros; lra.
Qed.

Lemma truncate_abs_le (x : number) (n : Z) :
  Rabs (B2R x) < IZR n + 1 -> (0 <= n)%Z -> (- n <= truncate x <= n)%Z.
Proof.
  intros Hx Hn. destruct (truncate_bounds x) as [Hpos Hneg].
  destruct (Rle_or_lt 0 (B2R x)) as [H0|H0].
  - specialize (Hpos H0). rewrite Rabs_pos_eq in Hx by done.
    assert (IZR (truncate x) < IZR (n + 1)) by (rewrite plus_IZR; lra).
    apply lt_IZR in H.
    assert (IZR (-1) < IZR (truncate x)) by (simpl; lra). apply lt_IZR in H1. lia.
  - specialize (Hneg ltac:(lra)). rewrite Rabs_left in Hx by done.
    assert (IZR (- (n + 1)) < IZR (truncate x)) by (rewrite opp_IZR, plus_IZR; lra).
    apply lt_IZR in H.
    assert (IZR (truncate x) < IZR 1) by (simpl; lra). apply lt_IZR in H1. lia.
Qed.

End OrderReals.
(** * Part VII: more of the AudioProcessor class *)

(** ** The shapes of the transforms *)

Lemma for_step_inv {S : Type} (P : S -> Prop) (fuel i stop step : nat)
    (body : nat -> S -> S) (s : S) :
  (forall i s, P s -> P (body i s)) -> P s -> P (for_step fuel i stop step body s).
Proof.
  intros Hbody. revert i s. induction fuel as [|fuel IH]; intros i s Hs; simpl; [done|].
  destruct (i <? stop); auto.
Qed.

Lemma swap_length (a : Float32Array) (i j : nat) : length (swap a i j) = length a.
Proof. unfold swap. by rewrite !f32_set_length. Qed.

Section Shapes.
Variable Math : MathImpl.

Lemma bitReverse_lengths (n : nat) (real imag : Float32Array) :
  lengths (length real) (length imag) (bitReverse n real imag).
Proof using Type.
  unfold bitReverse.
  set (P := fun s : Float32Array * Float32Array * nat => lengths (length real) (length imag) (fst s)).
  assert (H : P (for_range n (fun i '(real, imag, j) =>
      let '(real, imag) :=
        if i <? j then (swap real i j, swap imag i j) else (real, imag) in
      let '(j, k) := reverse_carry (S n) j (Nat.div2 n) in
      (real, imag, j + k)) (real, imag, 0))).
  { apply for_range_inv; [|by split].
    intros i [[re im] j] [H1 H2]. simpl in H1, H2.
    destruct (i <? j); destruct (reverse_carry (S n) j (Nat.div2 n)) as [j' k'];
      split; simpl; by rewrite ?swap_length. }
  destruct (for_range n _ _) as [[re im] j]. exact H.
Qed.

Lemma butterfly_lengths (n m len i : nat) (wr wi : number) (j : nat)
    (st : Float32Array * Float32Array * number * number) :
  lengths n m (fst (fst st)) -> lengths n m (fst (fst (butterfly len i wr wi j st))).
Proof using Type.
  destruct st as [[[re im] w1] w2]. intros [H1 H2]. simpl in H1, H2.
  unfold butterfly. split; simpl; by rewrite !f32_set_length.
Qed.

Lemma stage_lengths (k m n len : nat) (ri : Float32Array * Float32Array) :
  lengths k m ri -> lengths k m (stage Math n len ri).
Proof using Type.
  intros H. unfold stage. apply for_step_inv; [|done].
  intros i [re im] Hs.
  set (P := fun st : Float32Array * Float32Array * number * number =>
              lengths k m (fst (fst st))).
  assert (HP : P (for_range (len / 2)
                    (butterfly len i
                       (Math_cos Math (div (mul (of_Z (-2)) Math_PI) (of_nat len)))
                       (Math_sin Math (div (mul (of_Z (-2)) Math_PI) (of_nat len))))
                    (re, im, one, pzero))).
  { apply for_range_inv; [|exact Hs]. intros j st Hst. by apply butterfly_lengths. }
  destruct (for_range (len / 2) _ _) as [[[re' im'] w1] w2]. exact HP.
Qed.

Lemma stages_lengths (k m fuel n len : nat) (ri : Float32Array * Float32Array) :
  lengths k m ri -> lengths k m (stages Math fuel n len ri).
Proof using Type.
  revert len ri. induction fuel as [|fuel IH]; intros len ri H; simpl; [done|].
  destruct (len <=? n); [|done]. by apply IH, stage_lengths.
Qed.

Lemma fft_lengths (real imag : Float32Array) :
  lengths (length real) (length imag) (fft Math real imag).
Proof using Type.
  unfold fft. destruct (length real <=? 1); [by split|].
  apply stages_lengths, bitReverse_lengths.
Qed.

Lemma ifft_lengths (real imag : Float32Array) :
  lengths (length real) (length imag) (ifft Math real imag).
Proof using Type.
  unfold ifft.
  set (imag' := for_range (length real) _ imag).
  assert (Hi : length imag' = length imag).
  { unfold imag'. apply (for_range_inv (fun a => length a = length imag)); [|done].
    intros i s Hs. by rewrite f32_set_length. }
  pose proof (fft_lengths real imag') as Hf. rewrite Hi in Hf.
  destruct (fft Math real imag') as [re im].
  apply for_range_inv; [|exact Hf].
  intros i [re' im'] [H1 H2]. split; simpl in *; by rewrite f32_set_length.
Qed.

Lemma performFFT_lengths (signal : Float32Array) :
  let frame := performFFT Math signal in
  length (real frame) = length signal /\ length (imag frame) = length signal /\
  length (magnitude frame) = length signal / 2 /\
  length (phase frame) = length signal / 2.
Proof using Type.
  cbv zeta. destruct (performFFT_bins Math signal) as (Hri & Hm & Hp & _).
  cbv zeta in Hri.
  pose proof (fft_lengths (f32_copy signal) (f32_new (length signal))) as [H1 H2].
  rewrite <- Hri in H1, H2. simpl in H1, H2.
  unfold f32_copy in H1. rewrite length_map in H1.
  unfold f32_new in H2. rewrite length_replicate in H2. done.
Qed.

Lemma performIFFT_length (magnitude phase : Float32Array) :
  length (performIFFT Math magnitude phase) = length magnitude * 2.
Proof using Type.
  unfold performIFFT.
  set (size := length magnitude * 2).
  set (P := lengths size size).
  assert (H1 : P (for_range (length magnitude) (fun i '(real, imag) =>
      let real := f32_set real i (mul (f32_get magnitude i) (Math_cos Math (f32_get phase i))) in
      let imag := f32_set imag i (mul (f32_get magnitude i) (Math_sin Math (f32_get phase i))) in
      (real, imag)) (f32_new size, f32_new size))).
  { apply for_range_inv.
    - intros i [re im] [Hr Hi]. split; simpl in *; by rewrite f32_set_length.
    - split; apply length_replicate. }
  destruct (for_range (length magnitude) _ _) as [re1 im1].
  assert (H2 : P (for_range (length magnitude - 1) (fun k '(real, imag) =>
      let i := S k in
      let real := f32_set real (size - i) (f32_get real i) in
      let imag := f32_set imag (size - i) (neg (f32_get imag i)) in
      (real, imag)) (re1, im1))).
  { apply for_range_inv; [|exact H1].
    intros i [re im] [Hr Hi]. split; simpl in *; by rewrite f32_set_length. }
  destruct (for_range (length magnitude - 1) _ _) as [re2 im2].
  pose proof (ifft_lengths re2 im2) as H3. destruct H2 as [Hr2 Hi2]. simpl in Hr2, Hi2.
  rewrite Hr2, Hi2 in H3.
  destruct (ifft Math re2 im2) as [re3 im3]. destruct H3 as [Hr3 _]. simpl in Hr3.
  apply (for_range_inv (fun a => length a = size)); [|done].
  intros i s Hs. by rewrite f32_set_length.
Qed.

Lemma analysisFrame_length (channelData window : Float32Array) (windowSize i : Z) :
  length (analysisFrame channelData window windowSize i) = Z.to_nat windowSize.
Proof using Type.
  unfold analysisFrame. rewrite for_range_store_length. apply length_replicate.
Qed.

Lemma getHannWindow_length (size : nat) : length (getHannWindow Math size) = size.
Proof using Type.
  unfold getHannWindow. rewrite for_range_store_length. apply length_replicate.
Qed.

End Shapes.

(** X9.  The shapes of the transforms.  [performFFT] on a frame of [n]
    samples returns [n] real and [n] imaginary parts and [floor(n / 2)]
    magnitudes and phases; [performIFFT] on [k] magnitudes returns [2 * k]
    samples, whatever the length of the phase array.  So analysis followed by
    synthesis gives back a frame of the same length when [n] is even, and one
    sample less when [n] is odd. *)
Theorem transform_shapes (Math : MathImpl) (signal : Float32Array) :
  let frame := performFFT Math signal in
  let n := length signal in
  length (real frame) = n /\ length (imag frame) = n /\
  length (magnitude frame) = n / 2 /\ length (phase frame) = n / 2 /\
  (forall phase', length (performIFFT Math (magnitude frame) phase') = n - n mod 2).
Proof.
  cbv zeta. destruct (performFFT_lengths Math signal) as (Hr & Hi & Hm & Hp).
  cbv zeta in *. repeat apply conj; try done.
  intros phase'. rewrite performIFFT_length, Hm.
  pose proof (Nat.div_mod_eq (length signal) 2). lia.
Qed.

(** ** The outcomes of resynthesize *)

Lemma f32_setZ_length (a : Float32Array) (z : Z) (v : number) :
  length (f32_setZ a z v) = length a.
Proof. unfold f32_setZ. destruct (z <? 0)%Z; [done|]. apply f32_set_length. Qed.

Lemma overlapAdd_lengths (n m : nat) (windowSize outputLength offset : Z)
    (timeSignal window : Float32Array) (acc : Float32Array * Float32Array) :
  lengths n m acc ->
  lengths n m (overlapAdd windowSize outputLength offset timeSignal window acc).
Proof.
  intros H. unfold overlapAdd. apply for_break_inv; [|done].
  intros j [o w] [Ho Hw]. split; simpl in *; by rewrite f32_setZ_length.
Qed.

Lemma normalizeByWindowSum_length (outputData windowSum : Float32Array) :
  length (normalizeByWindowSum outputData windowSum) = length outputData.
Proof.
  unfold normalizeByWindowSum.
  apply (for_range_inv (fun a => length a = length outputData)); [|done].
  intros i s Hs. destruct (gt _ _); [|done]. by rewrite f32_set_length.
Qed.

(** A loop whose rounds all return is a fold that leaves the state alone. *)
Lemma forM_pure {S : Type} (l : list nat) (body : nat -> S -> M S) (g : nat -> S -> S)
    (s : S) (st : engine_state) :
  (forall i s, In i l -> body i s = ret (g i s)) ->
  forM l body s st = (Ok (fold_left (fun s i => g i s) l s), st).
Proof.
  revert s. induction l as [|i l IH]; intros s H; [done|].
  cbn [forM fold_left]. unfold mbind, M_bind, bind.
  rewrite (H i s) by (by left). unfold ret at 1. apply IH.
  intros j s' Hj. apply H. by right.
Qed.

(** A loop with a round that throws, the rounds before it returning. *)
Lemma forM_throws {S : Type} (l : list nat) (body : nat -> S -> M S) (e : js_error)
    (s : S) (st : engine_state) :
  (forall i s, In i l -> body i s = throw e \/ exists s', body i s = ret s') ->
  Exists (fun i => forall s, body i s = throw e) l ->
  forM l body s st = (Throw e, st).
Proof.
  revert s. induction l as [|i l IH]; intros s H Hex; [by apply Exists_nil in Hex|].
  cbn [forM]. unfold mbind, M_bind, bind.
  destruct (H i s ltac:(by left)) as [Hb|[s' Hb]]; rewrite Hb; [done|].
  unfold ret at 1. apply IH.
  - intros j s'' Hj. apply H. by right.
  - apply Exists_cons in Hex as [Hi|Hl]; [|done].
    rewrite Hi in Hb. apply (f_equal (fun m => fst (m st))) in Hb. discriminate.
Qed.

Section Resynthesize.
Variable Math : MathImpl.

Lemma fold_lengths {A : Type} (n m : nat) (l : list A)
    (g : A -> Float32Array * Float32Array -> Float32Array * Float32Array)
    (acc : Float32Array * Float32Array) :
  (forall x acc, lengths n m acc -> lengths n m (g x acc)) ->
  lengths n m acc -> lengths n m (fold_left (fun s x => g x s) l acc).
Proof using Type.
  intros Hg. revert acc. induction l as [|x l IH]; intros acc H; simpl; auto.
Qed.

Lemma resynthesize_unscaled_ok (outputFrames : list out_frame)
    (windowSize overlapPercent : Z) (st : engine_state) :
  let hopSize := hopSize windowSize overlapPercent in
  let outputLength := ((Z.of_nat (length outputFrames) - 1) * hopSize + windowSize)%Z in
  (0 <= windowSize)%Z -> (0 <= outputLength)%Z ->
  Forall (fun frame => out_magnitude frame <> None) outputFrames ->
  exists outputData,
    resynthesize_unscaled Math outputFrames windowSize overlapPercent st = (Ok outputData, st) /\
    length outputData = Z.to_nat outputLength.
Proof using Type.
  intros H outLen HN Hout Hall. unfold resynthesize_unscaled. fold H. fold outLen.
  rewrite (proj2 (Z.ltb_ge _ _) HN), (proj2 (Z.ltb_ge _ _) Hout).
  unfold mbind, M_bind, bind.
  rewrite (forM_pure _ _ (synthesisRound Math outputFrames windowSize H outLen)).
  - set (acc := fold_left _ _ _).
    assert (Hacc : lengths (Z.to_nat outLen) (Z.to_nat outLen) acc).
    { apply fold_lengths; [|split; apply length_replicate].
      intros i a Ha. unfold synthesisRound.
      destruct (outputFrames !! i) as [[[m|] p]|]; try done. by apply overlapAdd_lengths. }
    destruct acc as [o w]. destruct Hacc as [Ho _]. simpl in Ho.
    eexists. split; [reflexivity|]. by rewrite normalizeByWindowSum_length.
  - intros i acc Hi. apply in_seq in Hi. unfold synthesisRound.
    destruct (lookup_lt_is_Some_2 outputFrames i ltac:(lia)) as [frame Hframe].
    rewrite Hframe.
    pose proof (proj1 (Forall_lookup _ _) Hall i frame Hframe) as Hm.
    destruct frame as [[m|] p]; [reflexivity|done].
Qed.

End Resynthesize.

(** X15.  What [resynthesize] comes to.  With a negative window size, or a
    negative output length [(frames - 1) * hop + windowSize], it throws a
    RangeError; otherwise, with a frame that has no magnitude, a TypeError;
    otherwise, the output length being positive, it returns a buffer of
    exactly [(frames - 1) * hop + windowSize] samples at the sample rate of
    the first input.  It writes nothing to the console and leaves the
    [_logged] flag alone. *)
Theorem resynthesize_outcomes (Math : MathImpl) (outputFrames : list out_frame)
    (audioBufferA : AudioBuffer) (windowSize overlapPercent : Z) (st : engine_state) :
  let hopSize := hopSize windowSize overlapPercent in
  let outputLength := ((Z.of_nat (length outputFrames) - 1) * hopSize + windowSize)%Z in
  let run := resynthesize Math outputFrames audioBufferA windowSize overlapPercent st in
  ((windowSize < 0 \/ outputLength < 0)%Z -> run = (Throw RangeError, st)) /\
  ((0 <= windowSize)%Z -> (0 <= outputLength)%Z ->
   Exists (fun frame => out_magnitude frame = None) outputFrames ->
   run = (Throw TypeError, st)) /\
  ((0 <= windowSize)%Z -> (0 < outputLength)%Z ->
   Forall (fun frame => out_magnitude frame <> None) outputFrames ->
   exists buffer,
     run = (Ok buffer, st) /\
     length (channelData buffer) = Z.to_nat outputLength /\
     sampleRate buffer = sampleRate audioBufferA).
Proof.
  intros H outLen run. unfold run, resynthesize. split; [|split].
  - intros Hneg. unfold resynthesize_unscaled, mbind, M_bind, bind. fold H. fold outLen.
    destruct (Z.ltb_spec windowSize 0); [done|].
    destruct (Z.ltb_spec outLen 0); [done|lia].
  - intros HN Hout Hex. unfold resynthesize_unscaled, mbind, M_bind, bind. fold H. fold outLen.
    rewrite (proj2 (Z.ltb_ge _ _) HN), (proj2 (Z.ltb_ge _ _) Hout).
    rewrite (forM_throws _ _ TypeError); [done| |].
    + intros i acc _. destruct (outputFrames !! i) as [[[m|] p]|]; eauto.
    + apply Exists_exists in Hex as (frame & Hin & Hnone).
      apply list_elem_of_lookup in Hin as [i Hi].
      apply Exists_exists. exists i. split.
      * apply elem_of_seq. apply lookup_lt_Some in Hi. lia.
      * intros acc. rewrite Hi. destruct frame as [[m|] p]; [discriminate|done].
  - intros HN Hout Hall.
    destruct (resynthesize_unscaled_ok Math outputFrames windowSize overlapPercent st HN
                ltac:(fold H; fold outLen; lia) Hall)
      as (outputData & Hrun & Hlen).
    unfold mbind, M_bind, bind. rewrite Hrun.
    eexists. split; [reflexivity|]. simpl. by rewrite clipSafe_length.
Qed.
(** ** process, from the two signals to the output buffer *)

Section STFTFrames.
Variable Math : MathImpl.

Lemma framesFrom_length cd w N H i k : length (framesFrom Math cd w N H i k) = k.
Proof using Type. unfold framesFrom. by rewrite length_map, length_seq. Qed.

Lemma framesFrom_bins cd w N H i k :
  frames_of (Z.to_nat N / 2) (framesFrom Math cd w N H i k).
Proof using Type.
  unfold frames_of, framesFrom. apply Forall_map, Forall_forall. intros r _. simpl.
  destruct (performFFT_lengths Math (analysisFrame cd w N (i + Z.of_nat r * H))) as (_ & _ & Hm & _).
  cbv zeta in Hm. by rewrite Hm, analysisFrame_length.
Qed.

Lemma performSTFT_runs (fuel : nat) (buffer : AudioBuffer) (N O : Z) :
  let L := Z.of_nat (length (channelData buffer)) in
  let H := hopSize N O in
  (0 <= N)%Z -> (1 <= H)%Z -> roundsFrom L N H 0 <= fuel ->
  performSTFT Math fuel buffer N O =
  Ok (framesFrom Math (channelData buffer) (getHannWindow Math (Z.to_nat N)) N H 0
        (roundsFrom L N H 0)).
Proof using Type.
  intros L H HN HH Hfuel. unfold performSTFT. rewrite (proj2 (Z.ltb_ge _ _) HN).
  fold H. by rewrite (stft_loop_spec Math _ _ _ _ HH (roundsFrom L N H 0) 0%Z [] fuel eq_refl Hfuel).
Qed.

Lemma roundsFrom_0 (L N H : Z) :
  (1 <= H)%Z -> (N <= L)%Z ->
  Z.of_nat (roundsFrom L N H 0) = ((L - N) / H + 1)%Z /\ 1 <= roundsFrom L N H 0.
Proof using Type.
  intros HH HN. unfold roundsFrom. rewrite Z.add_0_l, Z.sub_0_r.
  rewrite (proj2 (Z.leb_le _ _) HN).
  assert (0 <= (L - N) / H)%Z by (apply Z.div_pos; lia). lia.
Qed.

End STFTFrames.

Lemma frame_found (timeMatch : bool) (bins target : nat) (frames : list fft_frame) (i : nat) :
  frames_of bins frames -> 1 <= length frames ->
  (timeMatch = false -> i < length frames) ->
  exists frame,
    frame_at frames (frameIndex timeMatch i (length frames) target) = Some frame /\
    length (magnitude frame) = bins.
Proof.
  intros Hfr Hlen Hno. unfold frame_at.
  assert (Hrange : (0 <= frameIndex timeMatch i (length frames) target < Z.of_nat (length frames))%Z).
  { destruct timeMatch.
    - pose proof (frameIndex_true_bounds i (length frames) target Hlen). lia.
    - unfold frameIndex. specialize (Hno eq_refl). lia. }
  destruct (Z.ltb_spec (frameIndex timeMatch i (length frames) target) 0); [lia|].
  destruct (lookup_lt_is_Some_2 frames
              (Z.to_nat (frameIndex timeMatch i (length frames) target)) ltac:(lia))
    as [frame Hframe].
  exists frame. split; [done|]. by apply (proj1 (Forall_lookup _ _) Hfr _ _ Hframe).
Qed.

Lemma seq_0_S (n : nat) : 1 <= n -> seq 0 n = 0 :: seq 1 (n - 1).
Proof. destruct n as [|n]; [lia|]. intros _. simpl. by rewrite Nat.sub_0_r. Qed.

Section FrameLoop.

Variable f : Float32Array -> Float32Array -> Float32Array.
Variables operation phaseMode : string.
Hypothesis Hf : Dispatch.assoc operation Dispatch.operators = Some f.
Variable timeMatch : bool.
Variables framesA framesB : list fft_frame.
Variable bins : nat.
Hypothesis HA : frames_of bins framesA.
Hypothesis HB : frames_of bins framesB.
Hypothesis Hbins : 1 <= bins.
Hypothesis HlenA : 1 <= length framesA.
Hypothesis HlenB : 1 <= length framesB.

Let target := targetFrames timeMatch (length framesA) (length framesB).

Let body := fun (i : nat) (outputFrames : list out_frame) =>
  let indexA := frameIndex timeMatch i (length framesA) target in
  let indexB := frameIndex timeMatch i (length framesB) target in
  match frame_at framesA indexA, frame_at framesB indexB with
  | Some frameA, Some frameB =>
      processedMagnitude ← Apply.apply operation (magnitude frameA) (magnitude frameB);
      let processedPhase :=
        combinePhases (phase frameA) (phase frameB)
          (magnitude frameA) (magnitude frameB) phaseMode in
      mret (outputFrames ++
             [{| out_magnitude := processedMagnitude; out_phase := processedPhase |}])
  | _, _ => throw TypeError
  end.

Lemma frames_found (i : nat) :
  i < target ->
  exists frameA frameB,
    frame_at framesA (frameIndex timeMatch i (length framesA) target) = Some frameA /\
    frame_at framesB (frameIndex timeMatch i (length framesB) target) = Some frameB /\
    length (magnitude frameA) = bins /\ length (magnitude frameB) = bins.
Proof using All.
  intros Hi.
  assert (HT : timeMatch = false -> i < length framesA /\ i < length framesB).
  { intros E. unfold target, targetFrames in Hi. rewrite E in Hi. lia. }
  destruct (frame_found timeMatch bins target framesA i HA HlenA ltac:(intros E; by apply HT))
    as (frameA & HfA & HbA).
  destruct (frame_found timeMatch bins target framesB i HB HlenB ltac:(intros E; by apply HT))
    as (frameB & HfB & HbB).
  eauto 10.
Qed.

Lemma body_logged (i : nat) (outputFrames : list out_frame) (st : engine_state) :
  i < target -> _logged st = Some true ->
  exists frame,
    body i outputFrames st = (Ok (outputFrames ++ [frame]), st) /\ has_magnitude frame.
Proof using All.
  intros Hi Hl. destruct (frames_found i Hi) as (frameA & frameB & HfA & HfB & _).
  unfold body. cbv zeta. rewrite HfA, HfB.
  unfold mbind, M_bind, bind.
  rewrite (apply_when_logged operation f _ _ st Hf Hl).
  eexists. split; [reflexivity|]. done.
Qed.

Lemma body_first (i : nat) (outputFrames : list out_frame) (st : engine_state) :
  i < target -> _logged st <> Some true ->
  exists frame a b r,
    body i outputFrames st =
      (Ok (outputFrames ++ [frame]),
       {| _logged := Some true;
          console := console st ++ [console_log_sample_at (KString operation) (bins / 4);
                                    console_log_sample a b r] |}) /\
    has_magnitude frame.
Proof using All.
  intros Hi Hl. destruct (frames_found i Hi) as (frameA & frameB & HfA & HfB & HbA & HbB).
  unfold body. cbv zeta. rewrite HfA, HfB.
  assert (Hidx : bins / 4 < bins) by (apply Nat.div_lt; lia).
  destruct (lookup_lt_is_Some_2 (magnitude frameA) (bins / 4) ltac:(lia)) as [a Ha].
  destruct (lookup_lt_is_Some_2 (magnitude frameB) (bins / 4) ltac:(lia)) as [b Hb].
  rewrite <- HbA in Ha, Hb at 1.
  destruct (apply_first_call operation f _ _ st a b Hf Hl Ha Hb) as (r & _ & Happly).
  unfold mbind, M_bind, bind. rewrite Happly. rewrite HbA.
  eexists _, a, b, r. split; [reflexivity|]. done.
Qed.

Lemma loop_logged (k start : nat) (outputFrames : list out_frame) (st : engine_state) :
  start + k <= target -> _logged st = Some true ->
  Forall has_magnitude outputFrames ->
  exists outputFrames',
    forM (seq start k) body outputFrames st = (Ok outputFrames', st) /\
    length outputFrames' = length outputFrames + k /\
    Forall has_magnitude outputFrames'.
Proof using All.
  revert start outputFrames. induction k as [|k IH]; intros start outs Hk Hl Hall.
  - exists outs. split; [done|]. split; [lia|done].
  - cbn [seq forM]. unfold mbind, M_bind, bind.
    destruct (body_logged start outs st ltac:(lia) Hl) as (frame & Hbody & Hmag).
    rewrite Hbody.
    destruct (IH (S start) (outs ++ [frame]) ltac:(lia) Hl) as (outs' & Hrun & Hlen & Hall').
    { apply Forall_app. split; [done|]. by constructor. }
    exists outs'. split; [done|]. split; [|done].
    rewrite Hlen, length_app. simpl. lia.
Qed.

Lemma loop_from_reset (st : engine_state) :
  1 <= target -> _logged st <> Some true ->
  exists outputFrames a b r,
    forM (seq 0 target) body [] st =
      (Ok outputFrames,
       {| _logged := Some true;
          console := console st ++ [console_log_sample_at (KString operation) (bins / 4);
                                    console_log_sample a b r] |}) /\
    length outputFrames = target /\ Forall has_magnitude outputFrames.
Proof using All.
  intros HT Hl. rewrite (seq_0_S target HT).
  cbn [forM]. unfold mbind, M_bind, bind.
  destruct (body_first 0 [] st ltac:(lia) Hl) as (frame & a & b & r & Hbody & Hmag).
  rewrite Hbody.
  destruct (loop_logged (target - 1) 1 ([] ++ [frame])
              {| _logged := Some true;
                 console := console st ++ [console_log_sample_at (KString operation) (bins / 4);
                                           console_log_sample a b r] |})
    as (outs & Hrun & Hlen & Hall); [lia|done|by constructor|].
  exists outs, a, b, r. split; [done|]. split; [|done]. rewrite Hlen. simpl. lia.
Qed.

End FrameLoop.

Lemma logMidFrame_runs (operation : string) (outputFrames : list out_frame)
    (st : engine_state) :
  1 <= length outputFrames -> Forall has_magnitude outputFrames ->
  exists sum max avg,
    logMidFrame operation outputFrames st =
    (Ok tt, {| _logged := _logged st;
               console := console st ++ [console_log_mid_frame operation sum max avg] |}).
Proof.
  intros Hlen Hall. unfold logMidFrame.
  destruct outputFrames as [|frame0 rest] eqn:E; [simpl in Hlen; lia|]. rewrite <- E in *.
  assert (Hmid : length outputFrames / 2 < length outputFrames) by (apply Nat.div_lt; lia).
  destruct (lookup_lt_is_Some_2 outputFrames _ Hmid) as [frame Hframe].
  rewrite Hframe.
  pose proof (proj1 (Forall_lookup _ _) Hall _ _ Hframe) as Hmag.
  destruct frame as [[sampleMag|] ph]; [|done].
  destruct (for_range (length sampleMag) _ (pzero, pzero)) as [sum max].
  eexists _, _, _. reflexivity.
Qed.

(** X12.  [process] on two loaded signals that both hold one window at least,
    with one of the ten operators, a window of 2 samples or more and a hop
    of 1 or more (given fuel for the frames of both analyses): it returns a
    buffer of [(T - 1) * hop + windowSize] samples at the sample rate of the
    first signal, where [T] is the target frame count; the flag [_logged]
    ends up set, and the console has received five lines: the two headers,
    the two lines of the first call of [apply], and the mid-frame line. *)
Theorem process_returns (Math : MathImpl) (fuel : nat) (this : processor)
    (bufferA bufferB : AudioBuffer) (operation phaseMode : string)
    (f : Float32Array -> Float32Array -> Float32Array)
    (windowSize overlapPercent : Z) (timeMatch : bool) (st : engine_state) :
  let H := hopSize windowSize overlapPercent in
  let countA := ((Z.of_nat (length (channelData bufferA)) - windowSize) / H + 1)%Z in
  let countB := ((Z.of_nat (length (channelData bufferB)) - windowSize) / H + 1)%Z in
  let T := targetFrames timeMatch (Z.to_nat countA) (Z.to_nat countB) in
  audioBufferA this = Some bufferA -> audioBufferB this = Some bufferB ->
  Dispatch.assoc operation Dispatch.operators = Some f ->
  (2 <= windowSize)%Z -> (1 <= H)%Z ->
  (windowSize <= Z.of_nat (length (channelData bufferA)))%Z ->
  (windowSize <= Z.of_nat (length (channelData bufferB)))%Z ->
  (countA <= Z.of_nat fuel)%Z -> (countB <= Z.of_nat fuel)%Z ->
  exists (buffer : AudioBuffer) (st' : engine_state),
    process Math fuel this operation phaseMode windowSize overlapPercent timeMatch st =
      (Ok buffer, st') /\
    Z.of_nat (length (channelData buffer)) = ((Z.of_nat T - 1) * H + windowSize)%Z /\
    sampleRate buffer = sampleRate bufferA /\
    _logged st' = Some true /\
    exists a b r sum max avg,
      console st' =
      console st ++
      [ console_log_processing operation phaseMode;
        console_log_frames (Z.to_nat countA) (Z.to_nat countB) (Z.of_nat T);
        console_log_sample_at (KString operation) (Z.to_nat windowSize / 2 / 4);
        console_log_sample a b r;
        console_log_mid_frame operation sum max avg ].
Proof.
  intros H countA countB T HbufA HbufB Hf HN HH HLA HLB HfA HfB.
  set (LA := Z.of_nat (length (channelData bufferA))) in *.
  set (LB := Z.of_nat (length (channelData bufferB))) in *.
  destruct (roundsFrom_0 LA windowSize H HH HLA) as [HcA HcA1].
  destruct (roundsFrom_0 LB windowSize H HH HLB) as [HcB HcB1].
  fold countA in HcA. fold countB in HcB.
  assert (EA : Z.to_nat countA = roundsFrom LA windowSize H 0) by lia.
  assert (EB : Z.to_nat countB = roundsFrom LB windowSize H 0) by lia.
  unfold process. rewrite HbufA, HbufB.
  rewrite (performSTFT_runs Math fuel bufferA windowSize overlapPercent) by (fold LA H; lia).
  rewrite (performSTFT_runs Math fuel bufferB windowSize overlapPercent) by (fold LB H; lia).
  fold LA LB H. rewrite <- EA, <- EB.
  set (framesA := framesFrom Math (channelData bufferA) _ windowSize H 0 (Z.to_nat countA)).
  set (framesB := framesFrom Math (channelData bufferB) _ windowSize H 0 (Z.to_nat countB)).
  assert (HlA : length framesA = Z.to_nat countA) by apply framesFrom_length.
  assert (HlB : length framesB = Z.to_nat countB) by apply framesFrom_length.
  assert (HbA : frames_of (Z.to_nat windowSize / 2) framesA) by apply framesFrom_bins.
  assert (HbB : frames_of (Z.to_nat windowSize / 2) framesB) by apply framesFrom_bins.
  assert (Hbins : 1 <= Z.to_nat windowSize / 2).
  { apply (Nat.div_le_lower_bound _ 2 1); lia. }
  unfold lift, Apply.resetLog, set_logged, log. unfold mbind at 1 2 3 4 5, M_bind, bind.
  cbn [_logged console].
  rewrite HlA, HlB. fold T.
  assert (HT : 1 <= T).
  { unfold T, targetFrames. destruct timeMatch; [|lia].
    apply (Nat.div_le_lower_bound _ 2 1); lia. }
  set (st1 := {| _logged := Some false; console := _ |}).
  destruct (loop_from_reset f operation phaseMode Hf timeMatch framesA framesB
              (Z.to_nat windowSize / 2) HbA HbB Hbins ltac:(lia) ltac:(lia) st1)
    as (outputFrames & a & b & r & Hloop & Hlen & Hall);
    [rewrite HlA, HlB; exact HT|done|].
  rewrite HlA, HlB in Hloop, Hlen. fold T in Hloop, Hlen.
  unfold mbind, M_bind, bind. unfold mbind, M_bind, bind, mret, M_ret in Hloop.
  cbn [_logged console] in Hloop. rewrite Hloop.
  destruct (logMidFrame_runs operation outputFrames
              {| _logged := Some true;
                 console := console st1 ++
                   [console_log_sample_at (KString operation) (Z.to_nat windowSize / 2 / 4);
                    console_log_sample a b r] |})
    as (sum & max & avg & Hmid); [lia|done|].
  rewrite Hmid. cbn [_logged console].
  set (st2 := {| _logged := Some true; console := _ |}).
  destruct (resynthesize_unscaled_ok Math outputFrames windowSize overlapPercent st2)
    as (outputData & Hrun & Hout); [lia|fold H; rewrite Hlen; nia|done|].
  unfold resynthesize, mbind, M_bind, bind. rewrite Hrun.
  eexists _, st2. split; [reflexivity|].
  cbn [channelData sampleRate createBuffer]. rewrite clipSafe_length, Hout.
  fold H. rewrite Hlen.
  split; [rewrite Z2Nat.id by nia; reflexivity|]. split; [done|]. split; [done|].
  exists a, b, r, sum, max, avg. unfold st2, st1. cbn [console].
  rewrite <- !app_assoc. reflexivity.
Qed.

(** ** process on signals shorter than the window *)

Section Short.
Variable Math : MathImpl.

Lemma performSTFT_short (fuel : nat) (buffer : AudioBuffer) (N O : Z) :
  (0 <= N)%Z -> (Z.of_nat (length (channelData buffer)) < N)%Z ->
  performSTFT Math fuel buffer N O = Ok [].
Proof using Type.
  intros HN HL. unfold performSTFT. rewrite (proj2 (Z.ltb_ge _ _) HN).
  assert (E : (0 + N <=? Z.of_nat (length (channelData buffer)))%Z = false)
    by (apply Z.leb_gt; lia).
  destruct fuel; cbn [stft_loop]; by rewrite E.
Qed.

Lemma normalizeByWindowSum_zeros (n : nat) :
  normalizeByWindowSum (f32_new n) (f32_new n) = f32_new n.
Proof using Type.
  unfold normalizeByWindowSum.
  apply (for_range_inv (fun a => a = f32_new n)); [|done].
  intros i s ->.
  assert (Hgt : gt (f32_get (f32_new n) i) c0_001 = false).
  { unfold f32_get, f32_new. destruct (replicate n pzero !! i) as [x|] eqn:E; [|done].
    apply lookup_replicate in E as [-> _]. reflexivity. }
  by rewrite Hgt.
Qed.

Lemma clipSafe_zeros (n : nat) : clipSafe (f32_new n) = f32_new n.
Proof using Type.
  apply clipSafe_bound.
  - apply Forall_forall. intros x Hx. apply elem_of_replicate in Hx as [-> _]. by split.
  - apply Forall_forall. intros x Hx. by apply elem_of_replicate in Hx as [-> _].
Qed.

(** With no output frame, [resynthesize] returns silence. *)
Lemma resynthesize_nil (bufferA : AudioBuffer) (N O : Z) (st : engine_state) :
  (0 <= N)%Z -> (0 <= N - hopSize N O)%Z ->
  resynthesize Math [] bufferA N O st =
  (Ok (createBuffer (f32_new (Z.to_nat (N - hopSize N O))) (sampleRate bufferA)), st).
Proof using Type.
  intros HN Hout. unfold resynthesize, resynthesize_unscaled.
  rewrite (proj2 (Z.ltb_ge _ _) HN). cbn [length].
  replace ((Z.of_nat 0 - 1) * hopSize N O + N)%Z with (N - hopSize N O)%Z by lia.
  rewrite (proj2 (Z.ltb_ge _ _) Hout). cbn [seq forM].
  unfold mbind, M_bind, bind, ret.
  by rewrite normalizeByWindowSum_zeros, clipSafe_zeros.
Qed.

(** [process] once both analyses have returned, with a target of 0 frames. *)
Lemma process_no_frames (fuel : nat) (this : processor) (bufferA bufferB : AudioBuffer)
    (operation phaseMode : string) (N O : Z) (timeMatch : bool) (st : engine_state)
    (framesA framesB : list fft_frame) :
  audioBufferA this = Some bufferA -> audioBufferB this = Some bufferB ->
  performSTFT Math fuel bufferA N O = Ok framesA ->
  performSTFT Math fuel bufferB N O = Ok framesB ->
  targetFrames timeMatch (length framesA) (length framesB) = 0 ->
  (0 <= N)%Z -> (0 <= N - hopSize N O)%Z ->
  process Math fuel this operation phaseMode N O timeMatch st =
  (Ok (createBuffer (f32_new (Z.to_nat (N - hopSize N O))) (sampleRate bufferA)),
   {| _logged := Some false;
      console := console st ++
        [console_log_processing operation phaseMode;
         console_log_frames (length framesA) (length framesB) 0] |}).
Proof using Type.
  intros HbufA HbufB HA HB HT HN Hout. unfold process.
  rewrite HbufA, HbufB, HA, HB.
  unfold lift, Apply.resetLog, set_logged, log, mbind, M_bind, bind. cbv beta iota zeta.
  rewrite HT. cbn [seq forM].
  unfold ret at 1. cbn [logMidFrame]. unfold ret at 1.
  rewrite resynthesize_nil by done. cbn [_logged console].
  by rewrite <- app_assoc.
Qed.

Lemma frame_at_nil {A : Type} (z : Z) : frame_at (@nil A) z = None.
Proof using Type. unfold frame_at. by destruct (z <? 0)%Z. Qed.

(** The first round of the frame loop when the first list of frames is
    empty and the indices are the stretched ones. *)
Lemma process_missing_frame (fuel : nat) (this : processor) (bufferA bufferB : AudioBuffer)
    (operation phaseMode : string) (N O : Z) (st : engine_state)
    (framesA framesB : list fft_frame) :
  audioBufferA this = Some bufferA -> audioBufferB this = Some bufferB ->
  performSTFT Math fuel bufferA N O = Ok framesA ->
  performSTFT Math fuel bufferB N O = Ok framesB ->
  framesA = [] \/ framesB = [] ->
  1 <= targetFrames true (length framesA) (length framesB) ->
  fst (process Math fuel this operation phaseMode N O true st) = Throw TypeError.
Proof using Type.
  intros HbufA HbufB HA HB Hempty HT. unfold process.
  rewrite HbufA, HbufB, HA, HB.
  unfold lift, Apply.resetLog, set_logged, log, mbind, M_bind, bind. cbv beta iota zeta.
  rewrite (seq_0_S _ HT). cbn [forM].
  unfold mbind, M_bind, bind.
  destruct Hempty as [-> | ->]; rewrite !frame_at_nil.
  - reflexivity.
  - destruct (frame_at framesA _); reflexivity.
Qed.

End Short.

(** X13.  [process] when a signal is shorter than the window.  If both signals
    are, no frame is analysed and the result is silence: [windowSize - hop]
    samples of [+0] at the sample rate of the first signal, whatever the
    operation and the phase mode, after the two header lines.  If only one
    signal is, the same happens without time matching; with time matching
    the frame loop reads a frame that does not exist and [process] throws a
    TypeError. *)
Theorem process_short_signals (Math : MathImpl) (fuel : nat) (this : processor)
    (bufferA bufferB : AudioBuffer) (operation phaseMode : string)
    (windowSize overlapPercent : Z) (timeMatch : bool) (st : engine_state) :
  let H := hopSize windowSize overlapPercent in
  let LA := Z.of_nat (length (channelData bufferA)) in
  let LB := Z.of_nat (length (channelData bufferB)) in
  let run := process Math fuel this operation phaseMode windowSize overlapPercent timeMatch st in
  let silence := createBuffer (f32_new (Z.to_nat (windowSize - H))) (sampleRate bufferA) in
  audioBufferA this = Some bufferA -> audioBufferB this = Some bufferB ->
  (0 <= windowSize)%Z -> (H < windowSize)%Z ->
  ((LA < windowSize)%Z -> (LB < windowSize)%Z ->
     run = (Ok silence,
            {| _logged := Some false;
               console := console st ++
                 [console_log_processing operation phaseMode; console_log_frames 0 0 0] |})) /\
  ((1 <= H)%Z ->
   ((LA < windowSize <= LB)%Z /\ ((LB - windowSize) / H + 1 <= Z.of_nat fuel)%Z) \/
   ((LB < windowSize <= LA)%Z /\ ((LA - windowSize) / H + 1 <= Z.of_nat fuel)%Z) ->
   if timeMatch then fst run = Throw TypeError else fst run = Ok silence).
Proof.
  intros H LA LB run silence HbufA HbufB HN HH. split.
  - intros HLA HLB. unfold run, silence.
    apply (process_no_frames Math fuel this bufferA bufferB operation phaseMode
             windowSize overlapPercent timeMatch st [] []); try done.
    + by apply performSTFT_short.
    + by apply performSTFT_short.
    + by destruct timeMatch.
    + fold H. lia.
  - intros HH1 Hone.
    assert (Hruns : exists framesA framesB,
              performSTFT Math fuel bufferA windowSize overlapPercent = Ok framesA /\
              performSTFT Math fuel bufferB windowSize overlapPercent = Ok framesB /\
              (framesA = [] \/ framesB = []) /\
              1 <= length framesA + length framesB).
    { destruct Hone as [[[HLA HLB] Hfuel]|[[HLB HLA] Hfuel]].
      - destruct (roundsFrom_0 LB windowSize H HH1 HLB) as [Hc Hc1].
        eexists [], _. split; [by apply performSTFT_short|]. split.
        + apply performSTFT_runs; [done|done|fold LB H; lia].
        + split; [by left|]. rewrite framesFrom_length. fold LB H. simpl. lia.
      - destruct (roundsFrom_0 LA windowSize H HH1 HLA) as [Hc Hc1].
        eexists _, []. split.
        + apply performSTFT_runs; [done|done|fold LA H; lia].
        + split; [by apply performSTFT_short|].
          split; [by right|]. rewrite framesFrom_length. fold LA H. simpl. lia. }
    destruct Hruns as (framesA & framesB & HA & HB & Hempty & Hsome).
    destruct timeMatch.
    + apply (process_missing_frame Math fuel this bufferA bufferB operation phaseMode
               windowSize overlapPercent st framesA framesB); try done.
      unfold targetFrames. apply (Nat.div_le_lower_bound _ 2 1); lia.
    + unfold run, silence.
      rewrite (process_no_frames Math fuel this bufferA bufferB operation phaseMode
                 windowSize overlapPercent false st framesA framesB); try done.
      * unfold targetFrames. destruct Hempty as [-> | ->]; simpl; lia.
      * fold H. lia.
Qed.

(** ** An overlap of 100 percent *)

Lemma hopSize_100 (N : Z) : (0 <= N < 2 ^ 53)%Z -> hopSize N 100 = 0%Z.
Proof.
  intros HN. unfold hopSize.
  change (sub one (div (of_Z 100) (of_Z 100))) with pzero.
  destruct (of_Z_nonneg_cases N HN) as [->|(m & e & ->)]; reflexivity.
Qed.

Section Hang.
Variable Math : MathImpl.

Lemma performSTFT_diverges (fuel : nat) (buffer : AudioBuffer) (N O : Z) :
  (0 <= N <= Z.of_nat (length (channelData buffer)))%Z -> (hopSize N O <= 0)%Z ->
  performSTFT Math fuel buffer N O = OutOfFuel.
Proof using Type.
  intros HN HH. unfold performSTFT. rewrite (proj2 (Z.ltb_ge _ _) (proj1 HN)).
  apply stft_loop_diverges; [done|lia].
Qed.

End Hang.

(** X14.  With a hop of 0 or less, as an overlap of 100 percent gives, and a
    signal that holds one window at least, [process] never returns: the
    frame loop of the analysis does not advance, whatever the fuel. *)
Theorem process_never_returns (Math : MathImpl) (this : processor)
    (bufferA bufferB : AudioBuffer) (operation phaseMode : string)
    (windowSize overlapPercent : Z) (timeMatch : bool) (st : engine_state) :
  audioBufferA this = Some bufferA -> audioBufferB this = Some bufferB ->
  (0 <= windowSize)%Z ->
  (overlapPercent = 100 /\ windowSize < 2 ^ 53)%Z \/
    (hopSize windowSize overlapPercent <= 0)%Z ->
  (windowSize <= Z.of_nat (length (channelData bufferA)))%Z \/
    (windowSize <= Z.of_nat (length (channelData bufferB)))%Z ->
  forall fuel,
    process Math fuel this operation phaseMode windowSize overlapPercent timeMatch st =
    (OutOfFuel, st).
Proof.
  intros HbufA HbufB HN Hhop Hfits fuel.
  assert (HH : (hopSize windowSize overlapPercent <= 0)%Z).
  { destruct Hhop as [[-> H53]|H]; [|done]. rewrite hopSize_100; lia. }
  unfold process. rewrite HbufA, HbufB.
  destruct (Z_le_gt_dec windowSize (Z.of_nat (length (channelData bufferA)))) as [HA|HA].
  - by rewrite (performSTFT_diverges Math fuel bufferA) by lia.
  - rewrite (performSTFT_short Math fuel bufferA) by lia.
    destruct Hfits as [Hfits|Hfits]; [lia|].
    by rewrite (performSTFT_diverges Math fuel bufferB) by lia.
Qed.

(** ** combinePhases in mode ['average'] *)

(** X11.  The phase modes ['a'] and ['b'] return the first and the second
    phase array as they are.  Mode ['average'] returns a new array of the
    length of the first, and on arrays of the same length it does not
    depend on which signal is called A and which B. *)
Theorem combinePhases_modes (phaseA phaseB magA magB : Float32Array) :
  combinePhases phaseA phaseB magA magB "a" = phaseA /\
  combinePhases phaseA phaseB magA magB "b" = phaseB /\
  length (combinePhases phaseA phaseB magA magB "average") = length phaseA /\
  (length phaseA = length phaseB ->
   combinePhases phaseA phaseB magA magB "average" =
   combinePhases phaseB phaseA magB magA "average").
Proof.
  split; [reflexivity|]. split; [reflexivity|]. split.
  - unfold combinePhases. cbn [String.eqb Ascii.eqb Bool.eqb]. cbv iota.
    apply (for_range_inv (fun a => length a = length phaseA)).
    + intros i s Hs. destruct (gt _ _); by rewrite f32_set_length.
    + apply length_replicate.
  - intros Hlen. unfold combinePhases. cbn [String.eqb Ascii.eqb Bool.eqb]. cbv iota.
    rewrite <- Hlen. apply for_range_ext. intros i result _.
    rewrite (add_comm (f32_get magB i) (f32_get magA i)).
    destruct (gt _ _).
    + f_equal. apply add_comm.
    + f_equal. f_equal. apply add_comm.
Qed.
(** * Part VIII: exportToWAV *)

Section WAV.
Import DataView.

(** ** exportToWAV: the layout of the file *)


Lemma le_bytes_length (size : nat) (value : Z) : length (le_bytes size value) = size.
Proof. revert value. induction size as [|size IH]; intros value; simpl; [done|]. by rewrite IH. Qed.

Lemma le_bytes_range (size : nat) (value : Z) :
  Forall (fun byte => (0 <= byte < 256)%Z) (le_bytes size value).
Proof.
  revert value. induction size as [|size IH]; intros value; simpl; constructor; [|apply IH].
  apply Z.mod_pos_bound. lia.
Qed.

(** A write at the end of what is written so far. *)
Lemma set_at_end (size : nat) (pre rest : ArrayBuffer) (byteOffset : nat) (value : Z) :
  byteOffset = length pre -> size <= length rest ->
  set size (pre ++ rest) byteOffset value =
  Ok ((pre ++ le_bytes size value) ++ drop size rest).
Proof.
  intros -> Hsize. unfold set. rewrite length_app.
  destruct (Nat.leb_spec (length pre + size) (length pre + length rest)); [|lia].
  rewrite take_app_length, drop_app_add'; [|done]. by rewrite <- app_assoc.
Qed.

Lemma set_length (size : nat) (view view' : ArrayBuffer) (byteOffset : nat) (value : Z) :
  set size view byteOffset value = Ok view' -> length view' = length view.
Proof.
  unfold set. destruct (Nat.leb_spec (byteOffset + size) (length view)); [|discriminate].
  intros [= <-]. rewrite !length_app, length_take, length_drop, le_bytes_length. lia.
Qed.

Lemma writeString_at_end (string : list Z) (pre rest : ArrayBuffer) (offset : nat) :
  offset = length pre -> length string <= length rest ->
  Forall (fun c => (0 <= c < 256)%Z) string ->
  writeString (pre ++ rest) offset string = Ok ((pre ++ string) ++ drop (length string) rest).
Proof.
  revert pre rest offset. induction string as [|c string IH]; intros pre rest offset -> Hlen Hc.
  - simpl. by rewrite app_nil_r, drop_0.
  - inversion_clear Hc as [|? ? Hc0 Hcs]. simpl in Hlen. cbn [writeString].
    unfold setUint8. rewrite (set_at_end 1 pre rest (length pre) c eq_refl ltac:(lia)).
    cbn [le_bytes]. rewrite Z.mod_small by done.
    change (Ok ?v ≫= ?k) with (k v). cbv beta.
    rewrite (IH (pre ++ [c]) (drop 1 rest) (S (length pre))).
    + rewrite drop_drop. f_equal. rewrite <- !app_assoc. reflexivity.
    + rewrite length_app. simpl. lia.
    + rewrite length_drop. lia.
    + done.
Qed.

Lemma charCodes_range (s : string) :
  Forall (fun c => (0 <= c < 256)%Z) (charCodes s).
Proof.
  unfold charCodes. apply Forall_map, Forall_forall. intros c _. simpl.
  pose proof (Ascii.N_ascii_bounded c). lia.
Qed.

Lemma drop_replicate_zero (k n : nat) :
  drop k (replicate n 0%Z) = replicate (n - k) 0%Z.
Proof. apply drop_replicate. Qed.

Lemma wav_frame_length (buffer : AudioBufferN) (i n : nat) :
  length (flat_map (fun channel =>
            le_bytes 2 (truncate (int16 (sampleAt buffer i channel)))) (seq 0 n)) = 2 * n.
Proof.
  induction n as [|n IH]; [done|].
  rewrite seq_S, flat_map_app, length_app, IH. cbn [flat_map].
  rewrite app_nil_r, le_bytes_length. lia.
Qed.

Lemma wav_data_length_upto (buffer : AudioBufferN) (n : nat) :
  length (flat_map (fun i =>
            flat_map (fun channel =>
              le_bytes 2 (truncate (int16 (sampleAt buffer i channel))))
              (seq 0 (numberOfChannels buffer))) (seq 0 n)) =
  2 * numberOfChannels buffer * n.
Proof.
  induction n as [|n IH]; [simpl; lia|].
  rewrite seq_S, flat_map_app, length_app, IH. cbn [flat_map].
  rewrite app_nil_r, wav_frame_length. lia.
Qed.

Lemma wav_data_length (buffer : AudioBufferN) :
  length (wav_data buffer) = frames buffer * numberOfChannels buffer * 2.
Proof. unfold wav_data. rewrite wav_data_length_upto. lia. Qed.

Lemma wav_header_length (buffer : AudioBufferN) : length (wav_header buffer) = 44.
Proof. unfold wav_header. cbv zeta. rewrite !length_app, !le_bytes_length. reflexivity. Qed.

Section Samples.

Variable buffer : AudioBufferN.

Let inner (i : nat) :=
  fun (channel : nat) (acc : outcome (ArrayBuffer * nat)) =>
    '(view, offset) ← acc;
    let sample :=
      match channels buffer !! channel with
      | Some data => f32_get data i
      | None => NaN
      end in
    view ← DataView.setInt16 view offset (truncate (int16 sample));
    Ok (view, offset + 2).

Let word (i channel : nat) : list Z :=
  le_bytes 2 (truncate (int16 (sampleAt buffer i channel))).

Lemma inner_spec (i c : nat) (pre rest : ArrayBuffer) (offset : nat) :
  offset = length pre -> 2 * c <= length rest ->
  for_range c (inner i) (Ok (pre ++ rest, offset)) =
  Ok ((pre ++ flat_map (word i) (seq 0 c)) ++ drop (2 * c) rest, offset + 2 * c).
Proof using Type.
  intros -> Hlen. induction c as [|c IH].
  - rewrite for_range_0. simpl. by rewrite app_nil_r, drop_0, Nat.add_0_r.
  - rewrite for_range_S, IH by lia. unfold inner at 1.
    change (Ok ?v ≫= ?k) with (k v). cbv beta iota zeta.
    unfold setInt16.
    rewrite (set_at_end 2 _ (drop (2 * c) rest) _ _).
    + change (Ok ?v ≫= ?k) with (k v). cbv beta. f_equal. f_equal.
      * rewrite drop_drop, seq_S, flat_map_app. cbn [flat_map]. rewrite app_nil_r.
        rewrite <- !app_assoc. do 2 f_equal. unfold word, sampleAt.
        f_equal. f_equal. lia.
      * lia.
    + rewrite length_app. unfold word. rewrite wav_frame_length. lia.
    + rewrite length_drop. lia.
Qed.

Lemma writeSamples_spec (pre rest : ArrayBuffer) :
  length pre = 44 -> length rest = frames buffer * numberOfChannels buffer * 2 ->
  writeSamples buffer (pre ++ rest) = Ok (pre ++ wav_data buffer, 44 + length rest).
Proof using Type.
  intros Hpre Hrest. unfold writeSamples.
  set (nc := numberOfChannels buffer) in *.
  assert (H : forall n, n <= frames buffer ->
            for_range n (fun i acc => for_range nc (inner i) acc) (Ok (pre ++ rest, 44)) =
            Ok ((pre ++ flat_map (fun i => flat_map (word i) (seq 0 nc)) (seq 0 n))
                  ++ drop (2 * nc * n) rest, 44 + 2 * nc * n)).
  { induction n as [|n IH]; intros Hn.
    - rewrite for_range_0, Nat.mul_0_r, drop_0, Nat.add_0_r. cbn [seq flat_map].
      by rewrite app_nil_r.
    - rewrite for_range_S, IH by lia.
      rewrite inner_spec.
      + f_equal. f_equal.
        * rewrite drop_drop, seq_S, flat_map_app. cbn [flat_map]. rewrite app_nil_r.
          rewrite <- !app_assoc. do 3 f_equal. f_equal. lia.
        * lia.
      + rewrite length_app, Hpre. fold nc.
        pose proof (wav_data_length_upto buffer n) as Hl. fold nc in Hl. unfold word. rewrite Hl. lia.
      + rewrite length_drop. nia. }
  specialize (H (frames buffer) ltac:(lia)).
  unfold inner in H. rewrite H. f_equal. f_equal.
  - rewrite drop_ge by (rewrite Hrest; lia). by rewrite app_nil_r.
  - rewrite Hrest. lia.
Qed.

End Samples.

(** Every write of [exportToWAV] lies within the buffer it allocated: the
    file is the header followed by the samples. *)
Lemma exportToWAV_bytes (buffer : AudioBufferN) :
  exportToWAV buffer =
    Ok {| blob_bytes := wav_header buffer ++ wav_data buffer; blob_type := "audio/wav" |}.
Proof.
  unfold exportToWAV. cbv zeta.
  set (nc := numberOfChannels buffer). set (len := frames buffer * nc * 2).
  change (replicate (44 + len) 0%Z) with ([] ++ replicate (44 + len) 0%Z).
  repeat first
    [ rewrite writeString_at_end;
      [ change (Ok ?v ≫= ?k) with (k v); cbv beta
      | rewrite ?length_app, ?le_bytes_length; reflexivity
      | rewrite ?length_drop, length_replicate; simpl; lia
      | apply charCodes_range ]
    | unfold setUint32, setUint16;
      rewrite set_at_end;
      [ change (Ok ?v ≫= ?k) with (k v); cbv beta
      | rewrite ?length_app, ?le_bytes_length; reflexivity
      | rewrite ?length_drop, length_replicate; simpl; lia ] ].
  rewrite writeSamples_spec.
  - change (Ok ?v ≫= ?k) with (k v). cbv beta iota.
    unfold wav_header. cbv zeta. fold nc. fold len. rewrite <- !app_assoc. reflexivity.
  - rewrite !length_app, !le_bytes_length. reflexivity.
  - rewrite !length_drop, length_replicate. fold nc. simpl. lia.
Qed.

Lemma wav_bytes_range (buffer : AudioBufferN) :
  Forall (fun byte => (0 <= byte < 256)%Z) (wav_header buffer ++ wav_data buffer).
Proof.
  apply Forall_app. split.
  - unfold wav_header. cbv zeta.
    repeat (apply Forall_app; split); try apply le_bytes_range; apply charCodes_range.
  - unfold wav_data. apply Forall_forall. intros byte Hin.
    apply list_elem_of_In, in_flat_map in Hin as (i & _ & Hin).
    apply in_flat_map in Hin as (c & _ & Hin).
    apply list_elem_of_In in Hin. revert byte Hin. apply Forall_forall, le_bytes_range.
Qed.

(** X16.  [exportToWAV] never throws: every write lies within the buffer it
    allocated.  The file is the 44 bytes of the header followed by the
    samples, frame after frame with the channels interleaved, and nothing
    else: [44 + 2 * frames * channels] bytes, each between 0 and 255. *)
Theorem exportToWAV_layout (buffer : AudioBufferN) :
  exportToWAV buffer =
    Ok {| blob_bytes := wav_header buffer ++ wav_data buffer; blob_type := "audio/wav" |} /\
  length (wav_header buffer ++ wav_data buffer) =
    44 + 2 * frames buffer * numberOfChannels buffer /\
  Forall (fun byte => (0 <= byte < 256)%Z) (wav_header buffer ++ wav_data buffer).
Proof.
  split; [apply exportToWAV_bytes|]. split; [|apply wav_bytes_range].
  rewrite length_app, wav_header_length, wav_data_length. lia.
Qed.

(** ** exportToWAV: reading the file back *)

Lemma getUint_le_bytes (size : nat) (value : Z) (rest : ArrayBuffer) :
  getUint size (le_bytes size value ++ rest) 0 = (value mod 2 ^ (8 * Z.of_nat size))%Z.
Proof.
  unfold getUint. rewrite drop_0. revert value.
  induction size as [|size IH]; intros value.
  - simpl. by rewrite Z.mod_1_r.
  - cbn [le_bytes app take fold_right]. rewrite IH.
    replace (8 * Z.of_nat (S size))%Z with (8 + 8 * Z.of_nat size)%Z by lia.
    rewrite Z.pow_add_r by lia. change (2 ^ 8)%Z with 256%Z.
    rewrite Z.rem_mul_r; [done|lia|]. apply Z.pow_pos_nonneg; lia.
Qed.

Lemma getUint_skip (size : nat) (pre rest : ArrayBuffer) (byteOffset : nat) :
  length pre <= byteOffset ->
  getUint size (pre ++ rest) byteOffset = getUint size rest (byteOffset - length pre).
Proof. intros H. unfold getUint. by rewrite drop_app_ge. Qed.

Lemma segment_skip (size : nat) (pre rest : ArrayBuffer) (byteOffset : nat) :
  length pre <= byteOffset ->
  take size (drop byteOffset (pre ++ rest)) = take size (drop (byteOffset - length pre) rest).
Proof. intros H. by rewrite drop_app_ge. Qed.

Lemma segment_head (string rest : ArrayBuffer) :
  take (length string) (drop 0 (string ++ rest)) = string.
Proof. by rewrite drop_0, take_app_length. Qed.

Lemma getUint_skip_k (k size : nat) (pre rest : ArrayBuffer) (byteOffset : nat) :
  length pre = k -> k <= byteOffset ->
  getUint size (pre ++ rest) byteOffset = getUint size rest (byteOffset - k).
Proof. intros <- H. by apply getUint_skip. Qed.

Lemma segment_skip_k (k size : nat) (pre rest : ArrayBuffer) (byteOffset : nat) :
  length pre = k -> k <= byteOffset ->
  take size (drop byteOffset (pre ++ rest)) = take size (drop (byteOffset - k) rest).
Proof. intros <- H. by apply segment_skip. Qed.

Ltac field_side := first [apply le_bytes_length | reflexivity | lia].

Ltac skip_fields :=
  repeat first
    [ rewrite (getUint_skip_k 4) by field_side
    | rewrite (getUint_skip_k 2) by field_side
    | rewrite (segment_skip_k 4) by field_side
    | rewrite (segment_skip_k 2) by field_side ].

Ltac read_field :=
  skip_fields;
  match goal with
  | |- getUint ?size ?l _ = ?v => change (getUint size l 0 = v); rewrite getUint_le_bytes
  end.

(** X17.  The header of the file [exportToWAV] returns, read back field by
    field, for a sample rate that is an integer [r] and sizes that fit their
    fields: the tags RIFF, WAVE, fmt and data at offsets 0, 8, 12 and 36; the
    RIFF chunk size is the file size less 8, the format is PCM (1) with 16
    bits per sample, the byte rate is [r * channels * 2], the block size
    [channels * 2], and the data size is the file size less 44, which is
    [frames * channels * 2]. *)
Theorem exportToWAV_header (buffer : AudioBufferN) (blob : Blob) (r : Z) :
  exportToWAV buffer = Ok blob ->
  rate buffer = of_Z r -> (0 <= r < 2 ^ 32)%Z ->
  (Z.of_nat (numberOfChannels buffer) < 2 ^ 15)%Z ->
  (r * Z.of_nat (numberOfChannels buffer) * 2 < 2 ^ 32)%Z ->
  (Z.of_nat (length (blob_bytes blob)) < 2 ^ 32)%Z ->
  let bytes := blob_bytes blob in
  let size := Z.of_nat (length bytes) in
  let nc := Z.of_nat (numberOfChannels buffer) in
  take 4 bytes = charCodes "RIFF" /\
  getUint 4 bytes 4 = (size - 8)%Z /\
  take 8 (drop 8 bytes) = charCodes "WAVEfmt " /\
  getUint 4 bytes 16 = 16%Z /\
  getUint 2 bytes 20 = 1%Z /\
  getUint 2 bytes 22 = nc /\
  getUint 4 bytes 24 = r /\
  getUint 4 bytes 28 = (r * nc * 2)%Z /\
  getUint 2 bytes 32 = (nc * 2)%Z /\
  getUint 2 bytes 34 = 16%Z /\
  take 4 (drop 36 bytes) = charCodes "data" /\
  getUint 4 bytes 40 = (size - 44)%Z /\
  (size - 44 = Z.of_nat (frames buffer) * nc * 2)%Z.
Proof.
  rewrite exportToWAV_bytes.
  assert (Hlen : length (wav_header buffer ++ wav_data buffer) =
                 44 + frames buffer * numberOfChannels buffer * 2)
    by (by rewrite length_app, wav_header_length, wav_data_length).
  intros Hblob Hrate Hr Hnc Hbr.
  assert (Hb : blob_bytes blob = wav_header buffer ++ wav_data buffer)
    by (by inversion Hblob).
  rewrite Hb. clear Hb Hblob.
  intros Hsize. cbv zeta. rewrite Hlen in *. clear Hlen.
  set (nc := numberOfChannels buffer) in *.
  set (len := frames buffer * nc * 2) in *.
  assert (Hbyte : truncate (mul (mul (rate buffer) (of_nat nc)) two) = (r * Z.of_nat nc * 2)%Z).
  { rewrite Hrate. unfold of_nat, two.
    rewrite mul_of_Z by nia. rewrite mul_of_Z by nia.
    apply truncate_of_Z. nia. }
  assert (Hr' : truncate (rate buffer) = r) by (rewrite Hrate; apply truncate_of_Z; lia).
  unfold wav_header. cbv zeta. fold nc. fold len. rewrite <- !app_assoc.
  repeat apply conj.
  - reflexivity.
  - read_field. rewrite Z.mod_small; lia.
  - reflexivity.
  - read_field. reflexivity.
  - read_field. reflexivity.
  - read_field. rewrite Z.mod_small; lia.
  - read_field. rewrite Hr'. rewrite Z.mod_small; lia.
  - read_field. rewrite Hbyte. rewrite Z.mod_small; lia.
  - read_field. rewrite Z.mod_small; lia.
  - read_field. reflexivity.
  - skip_fields. reflexivity.
  - read_field. rewrite Z.mod_small; lia.
  - lia.
Qed.

Section Words.
Local Open Scope R_scope.

(** ** exportToWAV: the 16-bit samples *)


Lemma B2R_of_Z_pos (z : Z) : (0 < z < 2 ^ 53)%Z -> B2R (of_Z z) = IZR z.
Proof.
  intros Hz. destruct (of_Z_pos z Hz) as (m & -> & Hm & _).
  assert (Hd : (Zdigits2 z <= 53)%Z) by (apply Zdigits2_le; lia).
  unfold B2R, cond_Zopp. rewrite Hm, mult_IZR.
  replace (Zdigits2 z - 53)%Z with (- (53 - Zdigits2 z))%Z by lia.
  rewrite bpow_opp, bpow_IZR by lia.
  assert (0 < IZR (2 ^ (53 - Zdigits2 z))) by (apply IZR_lt, Z.pow_pos_nonneg; lia).
  field. lra.
Qed.

Lemma valid64_of_Z_pos (z : Z) : (0 < z < 2 ^ 53)%Z -> valid64 (of_Z z).
Proof. intros Hz. by destruct (of_Z_pos z Hz) as (m & -> & _ & Hc). Qed.

Lemma B2R_one : B2R one = 1.
Proof. apply (B2R_of_Z_pos 1). lia. Qed.

Lemma B2R_minus_one : B2R (of_Z (-1)) = -1.
Proof.
  change (-1)%Z with (- (1))%Z. rewrite (of_Z_neg 1) by lia.
  rewrite B2R_neg, (B2R_of_Z_pos 1) by lia. rewrite opp_IZR. lra.
Qed.

Lemma valid64_one : valid64 one.
Proof. apply (valid64_of_Z_pos 1). lia. Qed.

Lemma valid64_neg (x : number) : valid64 x -> valid64 (neg x).
Proof. by destruct x. Qed.

Lemma valid64_minus_one : valid64 (of_Z (-1)).
Proof.
  change (-1)%Z with (- (1))%Z. rewrite (of_Z_neg 1) by lia.
  apply valid64_neg, valid64_one.
Qed.

Lemma is_float32_valid (x : number) : is_float32 x -> is_finite x = true -> valid64 x.
Proof.
  intros Hf Hfin. destruct x as [s|s| |s m e]; try done.
  by destruct (fround_fixed_finite s m e Hf).
Qed.

Lemma key_finite_eq (x y : number) :
  is_finite x = true -> is_zero x = false -> key x = key y -> x = y.
Proof.
  destruct x as [sx|sx| |sx mx ex], y as [sy|sy| |sy my ey]; try done;
    destruct sx; try destruct sy; simpl; intros _ _ H; try discriminate;
    injection H; intros; f_equal; lia.
Qed.

(** What is multiplied by [0x7FFF]: the sample itself when it lies strictly
    between -1 and 1, else 1 or -1. *)
Lemma int16_cases (s : number) :
  is_float32 s ->
  (isNaN s = true /\ int16 s = NaN) \/
  (le one s = true /\ int16 s = of_Z 32767) \/
  (le s (of_Z (-1)) = true /\ int16 s = of_Z (-32767)) \/
  (valid64 s /\ -1 < B2R s < 1 /\ int16 s = mul s (of_Z 32767)).
Proof.
  intros Hf. destruct s as [b|b| |b m e].
  - right. right. right. split; [done|]. split; [simpl; lra|]. by destruct b.
  - destruct b.
    + right. right. left. split; reflexivity.
    + right. left. split; reflexivity.
  - left. split; reflexivity.
  - set (s := S754_finite b m e) in *.
    assert (Vs : valid64 s) by (by apply is_float32_valid).
    assert (Ns : isNaN s = false) by done.
    pose proof valid64_one as V1. pose proof valid64_minus_one as Vm1.
    pose proof B2R_one as R1. pose proof B2R_minus_one as Rm1.
    assert (N1 : isNaN one = false) by reflexivity.
    assert (Nm1 : isNaN (of_Z (-1)) = false) by reflexivity.
    unfold int16, Math_min. rewrite (SFcompare_key one s N1 Ns).
    destruct (key_compare (key one) (key s)) eqn:E1.
    + apply key_compare_Eq in E1.
      assert (s = one) as -> by (symmetry; by apply key_finite_eq).
      right. left. split; reflexivity.
    + right. left. split; [|reflexivity].
      apply lt_le, lt_key; done.
    + apply key_compare_Gt in E1. apply (lt_key s one Ns N1) in E1.
      apply (lt_valid s one Vs V1) in E1. rewrite R1 in E1.
      change (match one with S754_zero true => one | _ => s end) with s.
      unfold Math_max. rewrite (SFcompare_key (of_Z (-1)) s Nm1 Ns).
      destruct (key_compare (key (of_Z (-1))) (key s)) eqn:E2.
      * apply key_compare_Eq in E2.
        assert (s = of_Z (-1)) as -> by (symmetry; by apply key_finite_eq).
        right. right. left. split; reflexivity.
      * apply (lt_key (of_Z (-1)) s Nm1 Ns) in E2.
        apply (lt_valid _ s Vm1 Vs) in E2. rewrite Rm1 in E2.
        right. right. right. split; [done|]. split; [lra|done].
      * apply key_compare_Gt in E2. right. right. left. split; [|reflexivity].
        apply lt_le, lt_key; done.
Qed.

Lemma int16_range (s : number) :
  is_float32 s ->
  let w := truncate (int16 s) in
  (-32767 <= w <= 32767)%Z /\
  (isNaN s = true -> w = 0%Z) /\
  (le one s = true -> w = 32767%Z) /\
  (le s (of_Z (-1)) = true -> w = (-32767)%Z).
Proof.
  intros Hf. cbv zeta.
  destruct (int16_cases s Hf) as [[HN ->]|[[H1 ->]|[[Hm1 ->]|(Vs & Hs & ->)]]].
  - repeat apply conj; try done.
    + intros H. destruct s; discriminate.
    + intros H. destruct s; discriminate.
  - repeat apply conj; try done.
    + intros H. destruct s; try discriminate.
    + intros H. assert (Hc := le_trans _ _ _ H1 H). discriminate.
  - repeat apply conj; try done.
    + intros H. destruct s; try discriminate.
    + intros H. assert (Hc := le_trans _ _ _ H Hm1). discriminate.
  - assert (Hfin : is_finite s = true) by (by destruct s).
    assert (HR : B2R (of_Z 32767) = 32767) by (apply (B2R_of_Z_pos 32767); lia).
    assert (Habs : Rabs (B2R s) < 1) by (apply Rabs_def1; lra).
    pose proof (Rabs_pos (B2R s)) as Hpos.
    assert (Hb971 : bpow 15 <= bpow 971) by (apply bpow_le; lia).
    assert (Hb15 : bpow 15 = 32768) by (rewrite bpow_IZR by lia; reflexivity).
    destruct (mul_bound s (of_Z 32767) Hfin eq_refl) as [_ Hp].
    { rewrite HR, (Rabs_pos_eq 32767) by lra. nra. }
    rewrite HR, (Rabs_pos_eq 32767) in Hp by lra.
    assert (He53 : bpow (-53) <= / 1073741824) by (rewrite <- bpow_m30; apply bpow_le; lia).
    assert (He1075 : bpow (-1075) <= / 1073741824) by (rewrite <- bpow_m30; apply bpow_le; lia).
    pose proof (bpow_pos (-53)). pose proof (bpow_pos (-1075)).
    split; [|repeat apply conj].
    + change (-32767)%Z with (- (32767))%Z. apply truncate_abs_le; [|lia].
      change (IZR 32767) with 32767. nra.
    + intros H'. by rewrite (valid64_not_NaN s Vs) in H'.
    + intros H'. apply (le_valid one s valid64_one Vs) in H'. rewrite B2R_one in H'. lra.
    + intros H'. apply (le_valid s _ Vs valid64_minus_one) in H'.
      rewrite B2R_minus_one in H'. lra.
Qed.

End Words.

Lemma flat_map_drop {A : Type} (f : A -> list Z) (k : nat) (l : list A) (i : nat) (x : A) :
  (forall y, length (f y) = k) -> l !! i = Some x ->
  exists rest, drop (k * i) (flat_map f l) = f x ++ rest.
Proof.
  intros Hk. revert i. induction l as [|a l IH]; intros [|i] Hi; try done.
  - injection Hi as ->. exists (flat_map f l). by rewrite Nat.mul_0_r.
  - destruct (IH i Hi) as [rest Hrest]. exists rest. cbn [flat_map].
    rewrite drop_app_ge by (rewrite Hk; lia). rewrite Hk.
    replace (k * S i - k) with (k * i) by lia. exact Hrest.
Qed.

(** The two bytes of frame [i], channel [channel] in the data. *)
Lemma wav_data_at (buffer : AudioBufferN) (i channel : nat) :
  i < frames buffer -> channel < numberOfChannels buffer ->
  exists rest,
    drop (2 * (i * numberOfChannels buffer + channel)) (wav_data buffer) =
    le_bytes 2 (truncate (int16 (sampleAt buffer i channel))) ++ rest.
Proof.
  intros Hi Hc. set (nc := numberOfChannels buffer) in *.
  set (word := fun i channel => le_bytes 2 (truncate (int16 (sampleAt buffer i channel)))).
  set (frame := fun i => flat_map (word i) (seq 0 nc)).
  destruct (flat_map_drop frame (2 * nc) (seq 0 (frames buffer)) i i) as [rest1 H1].
  { intros y. apply wav_frame_length. }
  { by apply lookup_seq_lt. }
  destruct (flat_map_drop (word i) 2 (seq 0 nc) channel channel) as [rest2 H2].
  { intros y. apply le_bytes_length. }
  { by apply lookup_seq_lt. }
  exists (rest2 ++ rest1).
  replace (2 * (i * nc + channel)) with (2 * nc * i + 2 * channel) by lia.
  rewrite <- drop_drop. fold (word i channel).
  change (wav_data buffer) with (flat_map frame (seq 0 (frames buffer))).
  rewrite H1. rewrite drop_app_le.
  - fold (frame i). unfold frame at 1. rewrite H2. by rewrite <- app_assoc.
  - unfold frame. pose proof (wav_frame_length buffer i nc) as Hl.
    unfold word. rewrite Hl. lia.
Qed.

Lemma getInt16_small (view : ArrayBuffer) (byteOffset : nat) (value : Z) (rest : ArrayBuffer) :
  drop byteOffset view = le_bytes 2 value ++ rest ->
  (-32768 <= value < 32768)%Z ->
  getInt16 view byteOffset = value.
Proof.
  intros Hdrop Hv. unfold getInt16.
  assert (Hu : getUint 2 view byteOffset = (value mod 65536)%Z).
  { unfold getUint. rewrite Hdrop.
    pose proof (getUint_le_bytes 2 value rest) as H. unfold getUint in H.
    rewrite drop_0 in H. exact H. }
  rewrite Hu. cbv zeta.
  destruct (Z_lt_le_dec value 0) as [Hneg|Hpos].
  - assert (value mod 65536 = value + 65536)%Z as ->.
    { symmetry. apply (Z.mod_unique _ _ (-1)); lia. }
    destruct (Z.ltb_spec (value + 65536) 32768); lia.
  - rewrite Z.mod_small by lia. destruct (Z.ltb_spec value 32768); lia.
Qed.

Lemma blob_of_export (buffer : AudioBufferN) (blob : Blob) :
  exportToWAV buffer = Ok blob -> blob_bytes blob = wav_header buffer ++ wav_data buffer.
Proof. rewrite exportToWAV_bytes. intros H. by inversion H. Qed.

Lemma wav_word_at (buffer : AudioBufferN) (i channel : nat) (value : Z) :
  i < frames buffer -> channel < numberOfChannels buffer ->
  value = truncate (int16 (sampleAt buffer i channel)) ->
  (-32768 <= value < 32768)%Z ->
  getInt16 (wav_header buffer ++ wav_data buffer)
    (44 + 2 * (i * numberOfChannels buffer + channel)) = value.
Proof.
  intros Hi Hc -> Hv. destruct (wav_data_at buffer i channel Hi Hc) as [rest Hrest].
  apply (getInt16_small _ _ _ rest); [|done].
  rewrite drop_app_ge by (rewrite wav_header_length; lia).
  rewrite wav_header_length.
  replace (44 + 2 * (i * numberOfChannels buffer + channel) - 44)
    with (2 * (i * numberOfChannels buffer + channel)) by lia.
  exact Hrest.
Qed.

(** X18.  The samples of the file, read back: the 16-bit word of frame [i] and
    channel [channel] sits at byte [44 + 2 * (i * channels + channel)] and is
    the integer part of the sample, clamped to [-1, 1], times 32767.  It lies
    between -32767 and 32767 (never -32768); a NaN sample is written as 0, a
    sample of 1 or more as 32767 and a sample of -1 or less as -32767. *)
Theorem exportToWAV_samples (buffer : AudioBufferN) (blob : Blob) (i channel : nat) :
  exportToWAV buffer = Ok blob ->
  i < frames buffer -> channel < numberOfChannels buffer ->
  is_float32 (sampleAt buffer i channel) ->
  let sample := sampleAt buffer i channel in
  let word := getInt16 (blob_bytes blob) (44 + 2 * (i * numberOfChannels buffer + channel)) in
  word = truncate (int16 sample) /\
  (-32767 <= word <= 32767)%Z /\
  (isNaN sample = true -> word = 0%Z) /\
  (le one sample = true -> word = 32767%Z) /\
  (le sample (of_Z (-1)) = true -> word = (-32767)%Z).
Proof.
  intros Hblob Hi Hc Hf. cbv zeta. rewrite (blob_of_export _ _ Hblob).
  destruct (int16_range _ Hf) as (Hrange & Hrest). cbv zeta in Hrange, Hrest.
  rewrite (wav_word_at buffer i channel _ Hi Hc eq_refl) by lia.
  split; [done|]. split; [done|]. exact Hrest.
Qed.

Section Headroom.
Local Open Scope R_scope.

(** ** From resynthesize to the file *)





End Headroom.

End WAV.
Section SingleFFT.
Local Open Scope R_scope.

(** ** getSingleFFT *)


Lemma floor_truncate_nonneg (x : number) :
  le pzero x = true -> Math_floor x = truncate x.
Proof. destruct x as [s|s| |[] m e]; try done. Qed.

Lemma nonneg_B2R (x : number) : le pzero x = true -> 0 <= B2R x.
Proof.
  destruct x as [s|s| |[] m e]; try done; simpl; try lra.
  intros _. pose proof (B2R_finite_pos m e). simpl in H. lra.
Qed.

(** The start index of [getSingleFFT]: the floor of [z * position], between
    0 and [z] for a position between 0 and 1. *)
Lemma single_start (z : Z) (position : number) :
  (0 <= z < 2 ^ 53)%Z -> valid64 position ->
  le pzero position = true -> le position one = true ->
  let p := mul (of_Z z) position in
  is_finite p = true /\ (0 <= Math_floor p <= z)%Z.
Proof.
  intros Hz Vp H0 H1. cbv zeta.
  destruct (Z.eq_dec z 0%Z) as [->|Hne].
  { change (of_Z 0) with pzero. destruct position as [s| | |[] m e]; try done.
    all: split; [reflexivity|]; simpl; lia. }
  assert (Hzpos : (0 < z < 2 ^ 53)%Z) by lia.
  pose proof (B2R_of_Z_pos z Hzpos) as HRz.
  destruct (of_Z_pos z Hzpos) as (mz & Ez & _ & _).
  assert (Hfz : is_finite (of_Z z) = true) by (by rewrite Ez).
  assert (Hnz : le pzero (of_Z z) = true) by (by rewrite Ez).
  destruct position as [s| | |[] m e] eqn:Epos; try done.
  { rewrite Ez. split; [reflexivity|]. simpl. lia. }
  rewrite <- Epos in *.
  assert (Hfp : is_finite position = true) by (by rewrite Epos).
  apply (le_valid position one Vp valid64_one) in H1. rewrite B2R_one in H1.
  pose proof (nonneg_B2R position H0) as Hp0.
  assert (Hz0 : 0 < IZR z) by (apply IZR_lt; lia).
  assert (Hz53 : IZR z <= bpow 53 - 1).
  { rewrite bpow_IZR by lia. rewrite <- minus_IZR. apply IZR_le. lia. }
  assert (Hb53 : bpow 53 * bpow (-53) = 1) by (rewrite <- bpow_add; apply bpow_0).
  assert (Hb971 : bpow 53 <= bpow 971) by (apply bpow_le; lia).
  assert (Hlt : bpow (-1075) < bpow (-53)) by (apply bpow_lt; lia).
  pose proof (bpow_pos (-53)). pose proof (bpow_pos (-1075)). pose proof (bpow_pos 53).
  destruct (mul_bound (of_Z z) position Hfz Hfp) as [Hfin Hbound].
  { rewrite HRz, (Rabs_pos_eq (IZR z)), (Rabs_pos_eq (B2R position)) by lra. nra. }
  rewrite HRz, (Rabs_pos_eq (IZR z)), (Rabs_pos_eq (B2R position)) in Hbound by lra.
  split; [done|].
  assert (Hnn : le pzero (mul (of_Z z) position) = true) by (apply mul_nonneg; auto).
  rewrite (floor_truncate_nonneg _ Hnn).
  pose proof (nonneg_B2R _ Hnn) as Hp.
  rewrite Rabs_pos_eq in Hbound by done.
  destruct (truncate_bounds (mul (of_Z z) position)) as [Htr _]. specialize (Htr Hp).
  cbv zeta in Htr.
  assert (Hup : IZR (truncate (mul (of_Z z) position)) < IZR (z + 1)).
  { rewrite plus_IZR.
    assert (A1 : IZR z * B2R position <= IZR z) by nra.
    assert (A2 : IZR z * bpow (-53) <= 1 - bpow (-53)) by nra.
    assert (A3 : IZR z * B2R position * bpow (-53) <= IZR z * bpow (-53)) by nra.
    simpl (IZR 1). lra. }
  assert (Hlo : IZR (-1) < IZR (truncate (mul (of_Z z) position))) by (simpl; lra).
  apply lt_IZR in Hup, Hlo. lia.
Qed.

Lemma singleFrameIndex_finite (p : number) (i len : nat) :
  is_finite p = true ->
  singleFrameIndex p i len = Some (Z.min (Math_floor p + Z.of_nat i) (Z.of_nat len - 1)).
Proof. by destruct p. Qed.

(** X10.  [getSingleFFT] on a buffer that holds one window at least, at a
    position between 0 and 1: the frame it transforms is the windowed slice
    of [windowSize] samples that starts at [start], the floor of
    [(length - windowSize) * position] as computed in binary64, with
    [0 <= start <= length - windowSize]: every sample read lies in the
    buffer, none is the clamped last sample.  At position 0 the slice is the
    first frame of the analysis, at position 1 the last window of the
    signal. *)
Theorem getSingleFFT_reads_a_frame (Math : MathImpl) (buffer : AudioBuffer)
    (windowSize : Z) (position : number) :
  let L := Z.of_nat (length (channelData buffer)) in
  let start := Math_floor (mul (of_Z (L - windowSize)) position) in
  (0 <= windowSize <= L)%Z -> (L < 2 ^ 53)%Z ->
  valid64 position -> le pzero position = true -> le position one = true ->
  getSingleFFT Math buffer windowSize position =
    Ok (performFFT Math
          (analysisFrame (channelData buffer) (getHannWindow Math (Z.to_nat windowSize))
             windowSize start)) /\
  (0 <= start <= L - windowSize)%Z /\
  (is_zero position = true -> start = 0%Z) /\
  (position = one -> start = (L - windowSize)%Z).
Proof.
  intros L start HN HL Vp H0 H1.
  destruct (single_start (L - windowSize) position ltac:(lia) Vp H0 H1) as [Hfin Hstart].
  cbv zeta in Hfin, Hstart. fold start in Hstart.
  split; [|split; [done|split]].
  - unfold getSingleFFT. fold L. rewrite (proj2 (Z.ltb_ge _ _) (proj1 HN)).
    do 2 f_equal. unfold analysisFrame. apply for_range_ext. intros i frame Hi.
    rewrite (singleFrameIndex_finite _ _ _ Hfin). fold start. fold L.
    rewrite Z.min_l by lia. reflexivity.
  - intros Hz. unfold start. destruct position as [s| | |]; try done.
    assert (Hcases : (L - windowSize = 0)%Z \/ (0 < L - windowSize < 2 ^ 53)%Z) by lia.
    destruct Hcases as [->|Hpos]; [by destruct s|].
    destruct (of_Z_pos _ Hpos) as (m & -> & _). by destruct s.
  - intros ->. unfold start, one. rewrite mul_of_Z by lia.
    rewrite Z.mul_1_r. apply floor_of_Z. lia.
Qed.

End SingleFFT.

(** * Part IV: the theorems at concrete inputs *)

Lemma mags1_ok : Forall is_magnitude mags1.
Proof. repeat constructor. Qed.

Lemma mags2_ok : Forall is_magnitude mags2.
Proof. repeat constructor. Qed.

Lemma zeros4_ok : Forall is_magnitude zeros4.
Proof. repeat constructor. Qed.

Lemma samples1_ok : Forall is_sample samples1.
Proof. repeat constructor. Qed.

(** The final scaling on [1, -2, 0, 0.5]: the peak 2 goes to the binary32
    below 0.95, the other samples follow. *)
Example clipSafe_samples1 :
  clipSafe samples1 =
  [ S754_finite false 8556839184629760 (-54); S754_finite true 8556839184629760 (-53);
    pzero; S754_finite false 8556839184629760 (-55) ].
Proof. vm_compute. reflexivity. Qed.

(** An unknown selector falls back to [average], with one diagnostic. *)
Example apply_inverse_falls_back :
  Apply.apply "inverse" mags1 mags2 initial_state =
  (Ok (Some (FFTOperations.average mags1 mags2)),
   {| _logged := None;
      console := [console_error_unknown (KString "inverse")] |}).
Proof. reflexivity. Qed.

(** Through [process], the selector ["resetLog"] aborts the whole run at the
    first frame, whatever the [Math] functions return. *)
Example process_resetLog_aborts (Math : MathImpl) :
  fst (process Math 3 loaded8 "resetLog" "a" 4 50 true initial_state) = Throw TypeError.
Proof. vm_compute. reflexivity. Qed.


Lemma squared_zero_max_witness :
  is_zero (findMax zeros4) = true /\
  FFTOperations.aSquared zeros4 zeros4 = replicate 4 pzero.
Proof.
  split; [reflexivity|].
  exact (proj2 (proj1 (squared_zero_max zeros4 zeros4 eq_refl zeros4_ok zeros4_ok) eq_refl)).
Defined.

Lemma combinePhases_default_witness :
  combinePhases mags1 mags2 mags1 mags2 "weighted" = mags1.
Proof.
  refine (proj1 (combinePhases_default mags1 mags2 mags1 mags2 "weighted" _ _ _));
    discriminate.
Defined.

Lemma frame_alignment_witness :
  1 <= 100 /\ 1 <= 80 /\ targetFrames true 100 80 = 90.
Proof.
  assert (H100 : 1 <= 100) by lia. assert (H80 : 1 <= 80) by lia.
  split; [exact H100|]. split; [exact H80|].
  exact (proj1 (proj2 (proj2 (frame_alignment 100 80 H100 H80)))).
Defined.



Lemma half_spectrum_invariant_witness :
  atan2_in_range Math_table /\ frame_ok (performFFT Math_table [of_Z (-1); of_Z (-1)]).
Proof.
  split; [exact atan2_table_in_range|].
  exact (proj1 (half_spectrum_invariant Math_table atan2_table_in_range)
           [of_Z (-1); of_Z (-1)]).
Defined.

(** A processor that holds the first signal only. *)
Lemma process_precondition_witness :
  fst (process Math_table 1 {| audioBufferA := Some buffer8; audioBufferB := None |}
         "and" "a" 4 50 true initial_state) =
  Throw (Error "Both audio files must be loaded").
Proof.
  exact (f_equal fst
           (proj1 (process_precondition Math_table 1
                     {| audioBufferA := Some buffer8; audioBufferB := None |}
                     "and" "a" 4 50 true initial_state)
                  (or_intror eq_refl))).
Defined.

(** With both signals loaded, whatever the [Math] functions return: a window
    of 6 samples (not a power of two) is analysed and resynthesised; an
    overlap of 100 percent on signals shorter than the window gives an
    output of silence; an overlap of 100 percent on longer signals makes the
    frame loop run forever. *)
Section AnyMath.
Variable Math : MathImpl.

Lemma process_window_6_runs :
  is_Ok (fst (process Math 1 loaded8 "and" "a" 6 50 true initial_state)) = true.
Proof. vm_compute. reflexivity. Qed.

Lemma process_overlap_100_silence :
  fst (process Math 0 loaded8 "and" "a" 16 100 true initial_state) =
  Ok (createBuffer (replicate 16 pzero) (of_Z 44100)).
Proof. vm_compute. reflexivity. Qed.

Lemma process_overlap_100_hangs (fuel : nat) :
  fst (process Math fuel loaded8 "and" "a" 4 100 true initial_state) = OutOfFuel.
Proof.
  unfold process, loaded8. simpl.
  unfold mbind, M_bind, bind, lift, performSTFT.
  change (hopSize 4 100) with 0%Z. simpl (4 <? 0)%Z. cbv iota.
  rewrite stft_loop_diverges; [reflexivity | lia | vm_compute; discriminate].
Qed.

End AnyMath.

(** C2, the counterexample.  Neither a window that is not a power of two
    nor an overlap of 100 percent makes [process] fail with an error: the
    first run returns a buffer, the second returns 16 samples of silence,
    and the third never returns, whatever the fuel. *)
Lemma process_accepts_invalid_configuration :
  is_Ok (fst (process Math_table 1 loaded8 "and" "a" 6 50 true initial_state)) = true /\
  fst (process Math_table 0 loaded8 "and" "a" 16 100 true initial_state) =
    Ok (createBuffer (replicate 16 pzero) (of_Z 44100)) /\
  ~ (exists fuel,
       fst (process Math_table fuel loaded8 "and" "a" 4 100 true initial_state) <> OutOfFuel).
Proof.
  split; [apply process_window_6_runs|]. split; [apply process_overlap_100_silence|].
  intros [fuel H]. apply H, process_overlap_100_hangs.
Qed.

(** ** The further theorems at concrete inputs *)

Lemma operators_keep_magnitudes_nonneg_witness :
  length mags1 = length mags2 /\ Forall is_magnitude mags1 /\ Forall is_magnitude mags2 /\
  Dispatch.assoc "notA" Dispatch.operators = Some FFTOperations.notA /\
  Forall (fun z => isNaN z = false /\ le pzero z = true) (FFTOperations.notA mags1 mags2).
Proof.
  split; [reflexivity|]. split; [exact mags1_ok|]. split; [exact mags2_ok|].
  split; [reflexivity|].
  exact (proj2 (operators_keep_magnitudes_nonneg mags1 mags2 "notA" FFTOperations.notA
                  eq_refl mags1_ok mags2_ok eq_refl)).
Defined.

Lemma and_or_xor_commute_witness :
  length mags1 = length mags2 /\
  FFTOperations.xor mags1 mags2 = FFTOperations.xor mags2 mags1.
Proof.
  split; [reflexivity|].
  exact (proj2 (proj2 (and_or_xor_commute mags1 mags2 eq_refl))).
Defined.

Lemma mags1_float32 : Forall is_float32 mags1.
Proof. repeat constructor. Qed.

Lemma operators_on_equal_arguments_witness :
  Forall is_float32 mags1 /\ FFTOperations.and mags1 mags1 = mags1.
Proof.
  split; [exact mags1_float32|].
  exact (proj1 (operators_on_equal_arguments mags1 mags1_float32)).
Defined.

Lemma mags1_no_nzero : Forall (fun x => x <> nzero) mags1.
Proof. repeat constructor; discriminate. Qed.

Lemma operators_with_silence_witness :
  Forall is_magnitude mags1 /\ Forall (fun x => x <> nzero) mags1 /\
  FFTOperations.and mags1 (replicate (length mags1) pzero) = replicate (length mags1) pzero.
Proof.
  split; [exact mags1_ok|]. split; [exact mags1_no_nzero|].
  exact (proj1 (operators_with_silence mags1 mags1_ok mags1_no_nzero)).
Defined.

Lemma not_sends_peak_to_minimum_witness :
  Forall is_magnitude mags1 /\ Forall is_magnitude mags2 /\
  mags1 !! 2 = Some (of_Z 5) /\ of_Z 5 = findMax mags1 /\
  FFTOperations.notA mags1 mags2 !! 2 =
    Some (if is_zero (findMin mags2) then pzero else findMin mags2).
Proof.
  split; [exact mags1_ok|]. split; [exact mags2_ok|].
  split; [reflexivity|]. split; [reflexivity|].
  exact (proj1 (not_sends_peak_to_minimum mags1 mags2 2 (of_Z 5) mags1_ok mags2_ok)
           eq_refl eq_refl).
Defined.

Lemma operators_past_the_end_witness :
  Dispatch.assoc "and" Dispatch.operators = Some FFTOperations.and /\
  length (FFTOperations.and mags1 mags_short) = length mags1 /\
  FFTOperations.and mags1 mags_short !! 2 = Some NaN.
Proof.
  split; [reflexivity|].
  destruct (operators_past_the_end mags1 mags_short "and" FFTOperations.and eq_refl)
    as [Hlen Hpast].
  split; [exact Hlen|].
  apply Hpast; [discriminate|discriminate|]. simpl. lia.
Defined.

Lemma apply_logs_first_call_witness :
  Dispatch.assoc "and" Dispatch.operators = Some FFTOperations.and /\
  Apply.apply "and" mags1 mags2 logged_state =
    (Ok (Some (FFTOperations.and mags1 mags2)), logged_state).
Proof.
  split; [reflexivity|].
  exact (proj1 (apply_logs_first_call "and" FFTOperations.and mags1 mags2 logged_state eq_refl)
           eq_refl).
Defined.

Lemma half_valid : valid64 half.
Proof. reflexivity. Qed.

Lemma getSingleFFT_reads_a_frame_witness :
  let L := Z.of_nat (length (channelData buffer8)) in
  let start := Math_floor (mul (of_Z (L - 4)) half) in
  (0 <= 4 <= L)%Z /\ (L < 2 ^ 53)%Z /\
  valid64 half /\ le pzero half = true /\ le half one = true /\
  getSingleFFT Math_table buffer8 4 half =
    Ok (performFFT Math_table
          (analysisFrame (channelData buffer8) (getHannWindow Math_table (Z.to_nat 4)) 4 start)) /\
  (0 <= start <= L - 4)%Z.
Proof.
  cbv zeta.
  assert (H1 : (0 <= 4 <= Z.of_nat (length (channelData buffer8)))%Z) by (simpl; lia).
  assert (H2 : (Z.of_nat (length (channelData buffer8)) < 2 ^ 53)%Z) by (simpl; lia).
  split; [exact H1|]. split; [exact H2|]. split; [exact half_valid|].
  split; [reflexivity|]. split; [reflexivity|].
  destruct (getSingleFFT_reads_a_frame Math_table buffer8 4 half H1 H2 half_valid eq_refl eq_refl)
    as (Hrun & Hstart & _).
  split; [exact Hrun|exact Hstart].
Defined.

Lemma process_returns_witness :
  audioBufferA loaded8 = Some buffer8 /\ audioBufferB loaded8 = Some buffer8 /\
  Dispatch.assoc "and" Dispatch.operators = Some FFTOperations.and /\
  (2 <= 4)%Z /\ (1 <= hopSize 4 50)%Z /\
  exists (buffer : AudioBuffer) (st' : engine_state),
    process Math_table 3 loaded8 "and" "a" 4 50 true initial_state = (Ok buffer, st') /\
    sampleRate buffer = sampleRate buffer8 /\ _logged st' = Some true.
Proof.
  assert (H2 : (2 <= 4)%Z) by lia.
  assert (HH : (1 <= hopSize 4 50)%Z) by (vm_compute; discriminate).
  assert (HL : (4 <= Z.of_nat (length (channelData buffer8)))%Z) by (simpl; lia).
  assert (Hfuel : ((Z.of_nat (length (channelData buffer8)) - 4) / hopSize 4 50 + 1
                   <= Z.of_nat 3)%Z) by (vm_compute; discriminate).
  split; [reflexivity|]. split; [reflexivity|]. split; [reflexivity|].
  split; [exact H2|]. split; [exact HH|].
  destruct (process_returns Math_table 3 loaded8 buffer8 buffer8 "and" "a" FFTOperations.and
              4 50 true initial_state eq_refl eq_refl eq_refl H2 HH HL HL Hfuel Hfuel)
    as (buffer & st' & Hrun & _ & Hrate & Hlogged & _).
  exists buffer, st'. split; [exact Hrun|]. split; [exact Hrate|exact Hlogged].
Defined.

Lemma process_short_signals_witness :
  audioBufferA loaded8 = Some buffer8 /\ audioBufferB loaded8 = Some buffer8 /\
  (0 <= 16)%Z /\ (hopSize 16 50 < 16)%Z /\
  process Math_table 0 loaded8 "and" "a" 16 50 true initial_state =
    (Ok (createBuffer (f32_new (Z.to_nat (16 - hopSize 16 50))) (sampleRate buffer8)),
     {| _logged := Some false;
        console := console initial_state ++
          [console_log_processing "and" "a"; console_log_frames 0 0 0] |}).
Proof.
  assert (H0 : (0 <= 16)%Z) by lia.
  assert (HH : (hopSize 16 50 < 16)%Z) by (vm_compute; reflexivity).
  assert (HL : (Z.of_nat (length (channelData buffer8)) < 16)%Z) by (simpl; lia).
  split; [reflexivity|]. split; [reflexivity|]. split; [exact H0|]. split; [exact HH|].
  exact (proj1 (process_short_signals Math_table 0 loaded8 buffer8 buffer8 "and" "a" 16 50 true
                  initial_state eq_refl eq_refl H0 HH) HL HL).
Defined.

Lemma process_never_returns_witness :
  audioBufferA loaded8 = Some buffer8 /\ audioBufferB loaded8 = Some buffer8 /\
  (0 <= 4)%Z /\ (100 = 100 /\ 4 < 2 ^ 53)%Z /\
  (4 <= Z.of_nat (length (channelData buffer8)))%Z /\
  process Math_table 7 loaded8 "and" "a" 4 100 true initial_state = (OutOfFuel, initial_state).
Proof.
  assert (H0 : (0 <= 4)%Z) by lia.
  assert (H100 : (100 = 100 /\ 4 < 2 ^ 53)%Z) by (split; [reflexivity|lia]).
  assert (HL : (4 <= Z.of_nat (length (channelData buffer8)))%Z) by (simpl; lia).
  split; [reflexivity|]. split; [reflexivity|]. split; [exact H0|]. split; [exact H100|].
  split; [exact HL|].
  exact (process_never_returns Math_table loaded8 buffer8 buffer8 "and" "a" 4 100 true
           initial_state eq_refl eq_refl H0 (or_introl H100) (or_introl HL) 7).
Defined.

Lemma stereo2_exported : exportToWAV stereo2 = Ok stereo2_wav.
Proof. vm_compute. reflexivity. Qed.

Lemma exportToWAV_header_witness :
  exportToWAV stereo2 = Ok stereo2_wav /\ rate stereo2 = of_Z 44100 /\
  (0 <= 44100 < 2 ^ 32)%Z /\ (Z.of_nat (numberOfChannels stereo2) < 2 ^ 15)%Z /\
  (44100 * Z.of_nat (numberOfChannels stereo2) * 2 < 2 ^ 32)%Z /\
  (Z.of_nat (length (blob_bytes stereo2_wav)) < 2 ^ 32)%Z /\
  getUint 4 (blob_bytes stereo2_wav) 24 = 44100%Z /\
  getUint 4 (blob_bytes stereo2_wav) 28 = (44100 * Z.of_nat (numberOfChannels stereo2) * 2)%Z.
Proof.
  assert (Hr : (0 <= 44100 < 2 ^ 32)%Z) by lia.
  assert (Hnc : (Z.of_nat (numberOfChannels stereo2) < 2 ^ 15)%Z) by (vm_compute; reflexivity).
  assert (Hbr : (44100 * Z.of_nat (numberOfChannels stereo2) * 2 < 2 ^ 32)%Z)
    by (vm_compute; reflexivity).
  assert (Hsize : (Z.of_nat (length (blob_bytes stereo2_wav)) < 2 ^ 32)%Z)
    by (vm_compute; reflexivity).
  split; [exact stereo2_exported|]. split; [reflexivity|]. split; [exact Hr|].
  split; [exact Hnc|]. split; [exact Hbr|]. split; [exact Hsize|].
  destruct (exportToWAV_header stereo2 stereo2_wav 44100 stereo2_exported eq_refl
              Hr Hnc Hbr Hsize)
    as (_ & _ & _ & _ & _ & _ & Hrate & Hbyte & _).
  split; [exact Hrate|exact Hbyte].
Defined.

Lemma exportToWAV_samples_witness :
  exportToWAV stereo2 = Ok stereo2_wav /\ 0 < frames stereo2 /\
  1 < numberOfChannels stereo2 /\ is_float32 (sampleAt stereo2 0 1) /\
  le one (sampleAt stereo2 0 1) = true /\
  getInt16 (blob_bytes stereo2_wav) (44 + 2 * (0 * numberOfChannels stereo2 + 1)) = 32767%Z.
Proof.
  assert (Hi : 0 < frames stereo2) by (simpl; lia).
  assert (Hc : 1 < numberOfChannels stereo2) by (unfold numberOfChannels; simpl; lia).
  assert (Hf : is_float32 (sampleAt stereo2 0 1)) by reflexivity.
  split; [exact stereo2_exported|]. split; [exact Hi|]. split; [exact Hc|].
  split; [exact Hf|]. split; [reflexivity|].
  destruct (exportToWAV_samples stereo2 stereo2_wav 0 1 stereo2_exported Hi Hc Hf)
    as (_ & _ & _ & Hone & _).
  exact (Hone eq_refl).
Defined.


